(** * mesh_functions: a shallow embedding of the mesh-graph core

    The development follows [src/mesh_functions.py].  The networkx graph is a
    pair of insertion-ordered dictionaries (nodes with their attributes, and
    the adjacency), Python dictionaries are association lists that keep the
    insertion order and hold every key once, Python sets are [gset Z], and
    exceptions are the [Raise] case of a result type.  The functions that
    mutate one of their arguments ([expand_nodes], [add_map_to_surface],
    [smooth_graph]) run over an explicit store of list and graph objects. *)

From Stdlib Require Import ZArith QArith List Lia Ascii.
From stdpp Require Import base option list gmap sorting strings.

Local Open Scope Z_scope.

(** ** Scalar values

    A map value is a float; [NaN] is the missing value.  The real values are
    rationals: rounding is not modelled, the order and the behaviour of the
    comparisons on NaN are. *)

Inductive val : Type :=
| Real (q : Q)
| NaN.

Definition isnan (v : val) : bool :=
  match v with NaN => true | Real _ => false end.

(** [a < b] on floats: false as soon as one side is NaN. *)
Definition val_lt (a b : val) : bool :=
  match a, b with
  | Real x, Real y => negb (Qle_bool y x)
  | _, _ => false
  end.

(** [a > b] is [b < a]. *)
Definition val_gt (a b : val) : bool := val_lt b a.

(** ** Exceptions *)

Inductive exn : Type :=
| KeyError
| NameError
| ValueError
| IndexError
| TypeError.

Inductive res (A : Type) : Type :=
| Ok (a : A)
| Raise (e : exn).
Arguments Ok {A} a.
Arguments Raise {A} e.

#[global] Instance res_ret : MRet res := fun A a => Ok a.
#[global] Instance res_bind : MBind res := fun A B f m =>
  match m with
  | Ok a => f a
  | Raise e => Raise e
  end.

Definition is_ok {A} (r : res A) : Prop := exists a, r = Ok a.

(** ** Dictionaries

    A Python [dict] keeps its keys in insertion order; assigning to a key that
    is already there replaces the value and leaves the key where it is. *)

Definition dict (V : Type) : Type := list (Z * V).

Fixpoint dict_get {V} (d : dict V) (k : Z) : option V :=
  match d with
  | [] => None
  | (k', v) :: d' => if Z.eqb k k' then Some v else dict_get d' k
  end.

Fixpoint dict_set {V} (d : dict V) (k : Z) (v : V) : dict V :=
  match d with
  | [] => [(k, v)]
  | (k', v') :: d' =>
      if Z.eqb k k' then (k', v) :: d' else (k', v') :: dict_set d' k v
  end.

Definition dict_keys {V} (d : dict V) : list Z := map fst d.
Definition dict_values {V} (d : dict V) : list V := map snd d.

Definition dict_mem {V} (d : dict V) (k : Z) : bool :=
  match dict_get d k with Some _ => true | None => false end.

(** [d.update(d2)] *)
Definition dict_update {V} (d d2 : dict V) : dict V :=
  fold_left (fun acc kv => dict_set acc (fst kv) (snd kv)) d2 d.

(** [dict(zip(ks, vs))] *)
Definition dict_zip {V} (ks : list Z) (vs : list V) : dict V :=
  dict_update [] (combine ks vs).

(** [d[k]] *)
Definition dict_item {V} (d : dict V) (k : Z) : res V :=
  match dict_get d k with
  | Some v => Ok v
  | None => Raise KeyError
  end.

(** ** The graph

    [node] is networkx's [G._node]: node id to attribute dictionary.  The
    module reads and writes one attribute only, ["map_val"], so an attribute
    dictionary is an [option val]: [None] is the dictionary without that key.
    [adj] is [G._adj]: node id to the dictionary of its neighbours (the edge
    data is always empty). *)

Definition attrs : Type := option val.

Record Graph : Type := mkGraph {
  node : dict attrs;
  adj : dict (dict unit)
}.

Definition empty_graph : Graph := mkGraph [] [].

(** [a["map_val"]] *)
Definition attr_map_val (a : attrs) : res val :=
  match a with
  | Some v => Ok v
  | None => Raise KeyError
  end.

(** ** The [nodes] argument

    Python passes anything; the functions test it with [isinstance]. *)

Inductive pynodes : Type :=
| PyNone
| PyInt (n : Z)
| PyList (l : list Z)
| PyTuple (l : list Z)
| PySet (l : list Z)      (* in the iteration order of the set *)
| PyArray (l : list Z).

(** [for x in nodes] *)
Definition py_iter (nodes : pynodes) : res (list Z) :=
  match nodes with
  | PyNone | PyInt _ => Raise TypeError
  | PyList l | PyTuple l | PySet l | PyArray l => Ok l
  end.

(** ** Neighborhood engine *)

(** The inner loop of [get_neighbours_and_vals], over [G.adj[node].items()]. *)
Fixpoint neighbours_loop (G : Graph) (items : dict unit)
    (acc : list Z * list val) : res (list Z * list val) :=
  match items with
  | [] => Ok acc
  | (neighbours, _) :: rest =>
      a ← dict_item (node G) neighbours;
      v ← attr_map_val a;
      neighbours_loop G rest (acc.1 ++ [neighbours], acc.2 ++ [v])
  end.

(** The outer loop, over [nodes]. *)
Fixpoint nodes_loop (G : Graph) (nodes : list Z)
    (acc : list Z * list val) : res (list Z * list val) :=
  match nodes with
  | [] => Ok acc
  | n :: rest =>
      items ← dict_item (adj G) n;
      acc' ← neighbours_loop G items acc;
      nodes_loop G rest acc'
  end.

Definition get_neighbours_and_vals (G : Graph) (nodes : pynodes)
    : res (dict val) :=
  nodes ← match nodes with
          | PyInt n => Ok [n]
          | _ => py_iter nodes
          end;
  acc ← nodes_loop G nodes ([], []);
  Ok (dict_zip acc.1 acc.2).

(** [range(n)]: no iteration for a negative [n]. *)
Definition range_len (n : Z) : nat := Z.to_nat n.

Fixpoint multi_loop (G : Graph) (nodes : pynodes) (its : nat)
    (neighbourhood : dict val) : res (dict val) :=
  match its with
  | O => Ok neighbourhood
  | S its' =>
      neighbours ← get_neighbours_and_vals G nodes;
      multi_loop G nodes its' (dict_update neighbourhood neighbours)
  end.

Definition get_multi_neighbours_and_vals (G : Graph) (nodes : pynodes)
    (neighbourhood_size : Z) : res (dict val) :=
  multi_loop G nodes (range_len neighbourhood_size) [].

(** ** Graph builder *)

(** What [add_nodes_from] and [add_edges_from] do with a node id that the
    graph does not hold yet: an empty adjacency and an empty attribute
    dictionary.  A known id is left as it is. *)
Definition add_node (G : Graph) (n : Z) : Graph :=
  if dict_mem (node G) n then G
  else mkGraph (dict_set (node G) n None) (dict_set (adj G) n []).

Definition add_nodes_from (G : Graph) (nodes_to_add : list Z) : Graph :=
  fold_left add_node nodes_to_add G.

(** [self._adj[u][v] = datadict] *)
Definition adj_set (a : dict (dict unit)) (u v : Z) : dict (dict unit) :=
  match dict_get a u with
  | Some nbrs => dict_set a u (dict_set nbrs v tt)
  | None => a
  end.

Definition add_edge (G : Graph) (e : Z * Z) : Graph :=
  let G1 := add_node G e.1 in
  let G2 := add_node G1 e.2 in
  mkGraph (node G2) (adj_set (adj_set (adj G2) e.1 e.2) e.2 e.1).

Definition add_edges_from (G : Graph) (ebunch : list (Z * Z)) : Graph :=
  fold_left add_edge ebunch G.

(** [itertools.combinations(row, 2)] *)
Fixpoint combinations2 (row : list Z) : list (Z * Z) :=
  match row with
  | [] => []
  | x :: rest => map (pair x) rest ++ combinations2 rest
  end.

(** [nifti_to_graph] when the caller gives the face table and the node ids
    (otherwise both are read from the surface file). *)
Definition nifti_to_graph (mesh_faces : list (list Z))
    (nodes_to_add : list Z) : Graph :=
  fold_left (fun G row => add_edges_from G (combinations2 row))
            mesh_faces (add_nodes_from empty_graph nodes_to_add).

Definition has_node (G : Graph) (n : Z) : bool := dict_mem (node G) n.

Definition has_edge (G : Graph) (u v : Z) : bool :=
  match dict_get (adj G) u with
  | Some nbrs => dict_mem nbrs v
  | None => false
  end.

(** [nx.set_node_attributes(G, values)] for a dictionary of dictionaries:
    [G.nodes[n].update(d)], a [KeyError] on an unknown node is swallowed. *)
Definition set_node_attributes (G : Graph) (values : dict val) : Graph :=
  fold_left (fun G nv =>
               if dict_mem (node G) nv.1
               then mkGraph (dict_set (node G) nv.1 (Some nv.2)) (adj G)
               else G)
            values G.

(** ** Region operations *)

(** The global names of the module that the functions read.  The module
    itself never binds [label_coords]. *)
Record globals : Type := mkGlobals {
  label_coords : option (list Z)
}.

Definition module_globals : globals := mkGlobals None.

Definition global_label_coords (env : globals) : res (list Z) :=
  match label_coords env with
  | Some l => Ok l
  | None => Raise NameError
  end.

Definition is_node_on_region_border (env : globals) (G : Graph)
    (region_nodes : list Z) (n : Z) : res bool :=
  neighbours ← get_neighbours_and_vals G (PyList [n]);
  let total_neighbours :=
    size (list_to_set (dict_keys neighbours) : gset Z) in
  lc ← global_label_coords env;
  let n_nodes_in_region :=
    size ((list_to_set (dict_keys neighbours) : gset Z) ∩ list_to_set lc) in
  Ok (bool_decide (n_nodes_in_region < total_neighbours)%nat).

Fixpoint border_loop (env : globals) (G : Graph) (region : list Z)
    (nodes : list Z) (border_nodes : list Z) : res (list Z) :=
  match nodes with
  | [] => Ok border_nodes
  | n :: rest =>
      b ← is_node_on_region_border env G region n;
      border_loop env G region rest
        (if b : bool then border_nodes ++ [n] else border_nodes)
  end.

Definition find_region_border (env : globals) (G : Graph)
    (nodes : list Z) : res (list Z) :=
  border_loop env G nodes nodes [].

Definition remove_out_of_region_nodes (G : Graph)
    (region_nodes nodes : list Z) : list Z :=
  elements ((list_to_set region_nodes : gset Z) ∩ list_to_set nodes).

(** ** Gradient ascent *)

(** Python's [max]: the first item is the candidate, a later item replaces
    it when its key compares greater. *)
Fixpoint max_loop {A} (key : A -> val) (maxitem : A) (rest : list A) : A :=
  match rest with
  | [] => maxitem
  | x :: rest' =>
      if val_gt (key x) (key maxitem)
      then max_loop key x rest'
      else max_loop key maxitem rest'
  end.

Definition py_max {A} (key : A -> val) (l : list A) : res A :=
  match l with
  | [] => Raise ValueError
  | x :: rest => Ok (max_loop key x rest)
  end.

(** [max(neighbours, key=neighbours.get)] walks the keys in dictionary order
    and compares [neighbours.get(key)]; the walk below is over the items,
    which hold each key with that value. *)
Definition max_neighbour (G : Graph) (n : Z) (neighbourhood_size : Z)
    : res (Z * val) :=
  neighbours ← get_multi_neighbours_and_vals G (PyList [n]) neighbourhood_size;
  kmax ← py_max snd neighbours;
  vmax ← py_max id (dict_values neighbours);
  Ok (kmax.1, vmax).

Fixpoint attributes_loop (G : Graph) (nodes : list Z) (tmp : list val)
    : res (list val) :=
  match nodes with
  | [] => Ok tmp
  | i :: rest =>
      a ← dict_item (node G) i;
      v ← attr_map_val a;
      attributes_loop G rest (tmp ++ [v])
  end.

(** [get_node_attributes_as_list(G, nodes, key="map_val")]: an empty list
    stands for all the nodes of the graph. *)
Definition get_node_attributes_as_list (G : Graph) (nodes : list Z)
    : res (list val) :=
  let nodes := match nodes with [] => dict_keys (node G) | _ => nodes end in
  attributes_loop G nodes [].

Fixpoint gradient_loop (G : Graph) (stepsize : Z)
    (pairs : list (Z * val)) (new_positions : list Z) : res (list Z) :=
  match pairs with
  | [] => Ok new_positions
  | (n, retval) :: rest =>
      max_info ← max_neighbour G n stepsize;
      gradient_loop G stepsize rest
        (new_positions ++
           [if val_lt retval max_info.2 then max_info.1 else n])
  end.

Definition nodes_gradient_step (G : Graph) (nodes : list Z) (stepsize : Z)
    : res (list Z) :=
  map_values ← get_node_attributes_as_list G nodes;
  gradient_loop G stepsize (combine nodes map_values) [].

(** ** Smoothing: the mean that skips the missing values *)

Definition present (l : list val) : list Q :=
  omap (fun v => match v with Real q => Some q | NaN => None end) l.

(** [np.nanmean]: NaN (and a warning, no exception) when nothing is left. *)
Definition nanmean (l : list val) : val :=
  match present l with
  | [] => NaN
  | qs => Real (fold_left Qplus qs 0%Q / inject_Z (Z.of_nat (length qs)))
  end.

(** ** The object store

    A list or a graph that a function changes in place is an object of the
    store, named by a reference; a callee that is handed the reference sees
    and changes the caller's object. *)

Abbreviation ref := nat.

Record store : Type := mkStore {
  lists : gmap nat (list Z);
  graphs : gmap nat Graph
}.

(** A computation over the store.  The store comes back in both cases: what
    was written before an exception stays written. *)
Definition M (A : Type) : Type := store -> res A * store.

#[global] Instance M_ret : MRet M := fun A a s => (Ok a, s).
#[global] Instance M_bind : MBind M := fun A B f m s =>
  match m s with
  | (Ok a, s') => f a s'
  | (Raise e, s') => (Raise e, s')
  end.

(** A pure (reading) step. *)
Definition lift {A} (r : res A) : M A := fun s => (r, s).

(** A reference that the store does not hold has no Python counterpart; the
    model answers [TypeError]. *)
Definition read_list (l : ref) : M (list Z) := fun s =>
  match lists s !! l with
  | Some xs => (Ok xs, s)
  | None => (Raise TypeError, s)
  end.

Definition read_graph (g : ref) : M Graph := fun s =>
  match graphs s !! g with
  | Some G => (Ok G, s)
  | None => (Raise TypeError, s)
  end.

(** [nodes += xs]: the list object itself grows. *)
Definition list_extend (l : ref) (xs : list Z) : M unit := fun s =>
  match lists s !! l with
  | Some old => (Ok tt, mkStore (<[l := old ++ xs]> (lists s)) (graphs s))
  | None => (Raise TypeError, s)
  end.

Definition write_graph (g : ref) (G : Graph) : M unit := fun s =>
  (Ok tt, mkStore (lists s) (<[g := G]> (graphs s))).

(** [add_nodes_from] on a pair of a node and its attributes: a new node
    gets an empty adjacency, then [self._node[n].update(attributes)]. *)
Definition add_node_with (G : Graph) (na : Z * attrs) : Graph :=
  let G1 := add_node G na.1 in
  match na.2 with
  | Some v => mkGraph (dict_set (node G1) na.1 (Some v)) (adj G1)
  | None => G1
  end.

(** The pairs [(u, v)] for [u, nbrs] in [G._adj.items()], [v] in [nbrs]. *)
Definition edge_list (G : Graph) : list (Z * Z) :=
  flat_map (fun entry => map (pair entry.1) (dict_keys entry.2)) (adj G).

(** [G.copy()]: networkx builds the graph afresh: the nodes are added in
    their order, each with a copy of its attributes, and then the edges,
    node by node in the order of each adjacency.  Nodes, attributes and
    edges are those of [G]; the order inside an adjacency may differ. *)
Definition graph_copy (G : Graph) : Graph :=
  add_edges_from (fold_left add_node_with (node G) empty_graph) (edge_list G).

(** [G_smooth = G.copy()]: the copy is a new object of the store. *)
Definition copy_graph (g : ref) : M ref := fun s =>
  match graphs s !! g with
  | Some G =>
      let g' := fresh (dom (graphs s)) in
      (Ok g', mkStore (lists s) (<[g' := graph_copy G]> (graphs s)))
  | None => (Raise TypeError, s)
  end.

(** *** Node-set expansion *)

Definition expand_neighbours (ignore_nans : bool) (neighbours : dict val)
    : list Z :=
  if ignore_nans
  then dict_keys (filter (fun kv => negb (isnan kv.2)) neighbours)
  else dict_keys neighbours.

Fixpoint expand_loop (g nodes : ref) (ignore_nans : bool) (its : nat)
    : M unit :=
  match its with
  | O => mret tt
  | S its' =>
      G ← read_graph g;
      cur ← read_list nodes;
      neighbours ← lift (get_neighbours_and_vals G (PyList cur));
      _ ← list_extend nodes (expand_neighbours ignore_nans neighbours);
      expand_loop g nodes ignore_nans its'
  end.

Definition expand_nodes (g nodes : ref) (stepsize : Z) (ignore_nans : bool)
    : M (ref * list Z) :=
  orig_nodes ← read_list nodes;
  _ ← expand_loop g nodes ignore_nans (range_len stepsize);
  cur ← read_list nodes;
  mret (nodes,
        elements ((list_to_set cur : gset Z) ∖ list_to_set orig_nodes)).

(** *** Attribute binder *)

(** [map_data[i]] on a numpy array: a negative index counts from the end. *)
Definition array_item (map_data : list val) (i : Z) : res val :=
  let n := Z.of_nat (length map_data) in
  if (0 <=? i) && (i <? n) then
    match map_data !! Z.to_nat i with Some v => Ok v | None => Raise IndexError end
  else if (- n <=? i) && (i <? 0) then
    match map_data !! Z.to_nat (n + i) with Some v => Ok v | None => Raise IndexError end
  else Raise IndexError.

(** [map_data[nodes_to_map]] *)
Fixpoint array_take (map_data : list val) (nodes_to_map : list Z)
    : res (list val) :=
  match nodes_to_map with
  | [] => Ok []
  | i :: rest =>
      v ← array_item map_data i;
      vs ← array_take map_data rest;
      Ok (v :: vs)
  end.

(** [add_map_to_surface]; [map_data] is what [load_map_data] read from the
    map file. *)
Definition add_map_to_surface (g : ref) (nodes_to_map : list Z)
    (map_data : list val) : M ref :=
  color_map ← lift (array_take map_data nodes_to_map);
  G ← read_graph g;
  let color_map_dict := dict_zip (dict_keys (node G)) color_map in
  _ ← write_graph g (set_node_attributes G color_map_dict);
  mret g.

(** *** Smoothing *)

(** The loop over the target nodes of one pass: it fills [color_map_dict]. *)
Fixpoint smooth_nodes_loop (g_smooth : ref) (nodes : list Z)
    (kernel_size : Z) (color_map_dict : dict val) : M (dict val) :=
  match nodes with
  | [] => mret color_map_dict
  | n :: rest =>
      G ← read_graph g_smooth;
      out ← lift (get_multi_neighbours_and_vals G (PyList [n]) kernel_size);
      smooth_nodes_loop g_smooth rest kernel_size
        (dict_set color_map_dict n (nanmean (dict_values out)))
  end.

(** One pass: fill the dictionary, then [nx.set_node_attributes]. *)
Definition smooth_pass (g_smooth : ref) (nodes : list Z) (kernel_size : Z)
    : M unit :=
  color_map_dict ← smooth_nodes_loop g_smooth nodes kernel_size [];
  G ← read_graph g_smooth;
  write_graph g_smooth (set_node_attributes G color_map_dict).

Fixpoint smooth_its_loop (g_smooth : ref) (nodes : list Z)
    (kernel_size : Z) (its : nat) : M unit :=
  match its with
  | O => mret tt
  | S its' =>
      _ ← smooth_pass g_smooth nodes kernel_size;
      smooth_its_loop g_smooth nodes kernel_size its'
  end.

Definition smooth_graph (g : ref) (nodes : pynodes) (n_its kernel_size : Z)
    : M ref :=
  G ← read_graph g;
  let nodes := match nodes with
               | PyList l => l
               | _ => dict_keys (node G)
               end in
  g_smooth ← copy_graph g;
  _ ← smooth_its_loop g_smooth nodes kernel_size (range_len n_its);
  mret g_smooth.

(** ** Well-formed dictionaries: every key once *)

Definition dict_wf {V} (d : dict V) : Prop := NoDup (dict_keys d).

(** ** Well-formed graphs

    What networkx keeps true of [G._node] and [G._adj]: the same keys in the
    same order, each once, and every neighbour once in an adjacency. *)

Definition graph_wf (G : Graph) : Prop :=
  dict_keys (adj G) = dict_keys (node G) /\
  dict_wf (node G) /\
  forall u nbrs, dict_get (adj G) u = Some nbrs -> dict_wf nbrs.

(** [u] and [v] stand at two different places of the row. *)
Definition cooccur (row : list Z) (u v : Z) : Prop :=
  exists i j, i <> j /\ row !! i = Some u /\ row !! j = Some v.

(** ** Sample graphs *)

(** Two triangles that share an edge, with the values 1, 5, 3 and NaN. *)
Definition two_faces : Graph :=
  set_node_attributes (nifti_to_graph [[0; 1; 2]; [1; 2; 3]] [0; 1; 2; 3])
    (dict_zip [0; 1; 2; 3] [Real 1; Real 5; Real 3; NaN]).

(** The same values on a mesh where node 0 meets node 3 first: the
    adjacency of node 0 lists 3, 1, 2 in that order. *)
Definition nan_first : Graph :=
  set_node_attributes (nifti_to_graph [[0; 3; 1]; [0; 1; 2]] [0; 1; 2; 3])
    (dict_zip [0; 1; 2; 3] [Real 1; Real 5; Real 3; NaN]).

(** One edge, both ends with a value. *)
Definition one_edge : Graph :=
  set_node_attributes (nifti_to_graph [[0; 1]] [0; 1])
    (dict_zip [0; 1] [Real 1; Real 2]).

(** A node with a value and no neighbour. *)
Definition isolated : Graph :=
  set_node_attributes (nifti_to_graph [] [0]) (dict_zip [0] [Real 1]).

(** Node 0 has the value 1 and two neighbours whose values are missing. *)
Definition nan_ring : Graph :=
  set_node_attributes (nifti_to_graph [[0; 1; 2]] [0; 1; 2])
    (dict_zip [0; 1; 2] [Real 1; NaN; NaN]).

(** A ring of four nodes with the values NaN, 1, 3 and 2: the adjacency of
    node 3 lists 2 before 0. *)
Definition four_cycle : Graph :=
  set_node_attributes
    (nifti_to_graph [[0; 1]; [1; 2]; [2; 3]; [3; 0]] [0; 1; 2; 3])
    (dict_zip [0; 1; 2; 3] [NaN; Real 1; Real 3; Real 2]).

(** A record that is no networkx graph: node 1 lists node 0 as a neighbour
    and node 0 does not list node 1; node 1 holds no value. *)
Definition lopsided : Graph :=
  mkGraph [(0, Some (Real 1)); (1, None)] [(0, []); (1, [(0, tt)])].

(** ** Checks on a graph, as the attribute binder leaves it *)

(** The node holds a scalar value, missing or not. *)
Definition has_value (G : Graph) (n : Z) : bool :=
  match dict_get (node G) n with
  | Some (Some _) => true
  | _ => false
  end.

(** Every neighbour listed in an adjacency holds a scalar value. *)
Definition values_bound (G : Graph) : bool :=
  forallb (fun entry => forallb (has_value G) (dict_keys entry.2)) (adj G).

(** The seed has an adjacency: it is a node of the graph. *)
Definition seed_in_graph (G : Graph) (n : Z) : bool := dict_mem (adj G) n.

(** ** Neighbourhoods of a node, as the ascent and the smoothing query them *)

(** The query succeeds and every value it finds is missing (an empty
    neighbourhood included). *)
Definition all_missing (G : Graph) (k : Z) (n : Z) : bool :=
  match get_multi_neighbours_and_vals G (PyList [n]) k with
  | Ok d => forallb isnan (dict_values d)
  | Raise _ => false
  end.

(** The query succeeds and finds at least one neighbour. *)
Definition nonempty_neighbourhood (G : Graph) (k : Z) (n : Z) : bool :=
  match get_multi_neighbours_and_vals G (PyList [n]) k with
  | Ok (_ :: _) => true
  | _ => false
  end.

(** The query succeeds. *)
Definition neighbourhood_ok (G : Graph) (k : Z) (n : Z) : bool :=
  match get_multi_neighbours_and_vals G (PyList [n]) k with
  | Ok _ => true
  | Raise _ => false
  end.

(** ** Smoothing as a batch

    The smoothing pass as the specification words it: every replacement value
    of a pass is computed from one graph, the state that the previous pass
    left, and the values are applied together afterwards.  The functions
    below never see a store; [smooth_graph] is compared with them. *)

(** The mean that a pass computes for node [n], read from [G]. *)
Definition pass_mean (G : Graph) (kernel_size : Z) (n : Z) : res val :=
  out ← get_multi_neighbours_and_vals G (PyList [n]) kernel_size;
  Ok (nanmean (dict_values out)).

(** The staging map of a pass: all the means, read from the same [G]. *)
Fixpoint staging (G : Graph) (kernel_size : Z) (nodes : list Z)
    (staged : dict val) : res (dict val) :=
  match nodes with
  | [] => Ok staged
  | n :: rest =>
      mean ← pass_mean G kernel_size n;
      staging G kernel_size rest (dict_set staged n mean)
  end.

Definition batch_pass (G : Graph) (nodes : list Z) (kernel_size : Z)
    : res Graph :=
  staged ← staging G kernel_size nodes [];
  Ok (set_node_attributes G staged).

(** [its] passes in a row; when a pass raises, the graph is the one that the
    passes before it left. *)
Fixpoint batch_passes (G : Graph) (nodes : list Z) (kernel_size : Z)
    (its : nat) : res unit * Graph :=
  match its with
  | O => (Ok tt, G)
  | S its' =>
      match batch_pass G nodes kernel_size with
      | Ok G' => batch_passes G' nodes kernel_size its'
      | Raise e => (Raise e, G)
      end
  end.

(** The nodes that [smooth_graph] smooths: the list when [nodes] is a list,
    all the nodes of the graph otherwise. *)
Definition smooth_targets (G : Graph) (nodes : pynodes) : list Z :=
  match nodes with
  | PyList l => l
  | _ => dict_keys (node G)
  end.

(** The store after [G.copy()] and the passes: one more graph, at a new
    reference. *)
Definition with_copy (s : store) (G' : Graph) : store :=
  mkStore (lists s) (<[fresh (dom (graphs s)) := G']> (graphs s)).

(** ** Calls of the reading functions

    The functions of the neighborhood engine, of the region operations (but
    [expand_nodes]) and of the gradient ascent assign to no attribute and to
    no item of their arguments: each is a function of the graph and the list
    that the references name.  A call looks both up and writes nothing. *)

Definition reading {A} (g nodes : ref) (f : Graph -> list Z -> res A) : M A :=
  G ← read_graph g;
  l ← read_list nodes;
  lift (f G l).

(** A store with the two-triangle graph and the caller's list [[0]]. *)
Definition caller_store : store :=
  mkStore {[ 0%nat := [0] ]} {[ 0%nat := two_faces ]}.

(** A store that holds one graph, at reference 0. *)
Definition store_of (G : Graph) : store := mkStore ∅ {[ 0%nat := G ]}.

(** The graph binds the value [v] to node [k]. *)
Definition bound_to (G : Graph) (k : Z) (v : val) : Prop :=
  dict_get (node G) k = Some (Some v).

(** ** Graphs as networkx keeps them

    What every [nx.Graph] satisfies: [_node] and [_adj] have the same keys in
    the same order, each once; a neighbour is listed once; and the adjacency
    is symmetric ([v] in [_adj[u]] exactly when [u] in [_adj[v]]). *)
Definition nx_graph (G : Graph) : bool :=
  bool_decide (dict_keys (adj G) = dict_keys (node G)) &&
  bool_decide (NoDup (dict_keys (node G))) &&
  forallb (fun entry =>
             bool_decide (NoDup (dict_keys entry.2)) &&
             forallb (fun v => has_edge G v entry.1) (dict_keys entry.2))
          (adj G).

(** [G'] has the nodes, the attributes and the edges of [G]; the order
    inside an adjacency may differ. *)
Definition same_graph (G G' : Graph) : Prop :=
  node G' = node G /\
  dict_keys (adj G') = dict_keys (adj G) /\
  forall u v, has_edge G' u v = has_edge G u v.

(** Every node of [l] with an empty adjacency. *)
Definition empty_adjacencies (l : dict attrs) : dict (dict unit) :=
  map (fun e => (e.1, [])) l.

(** [d[x] = {}] on the keys of a dictionary of neighbours: [x] goes to the
    end unless it is there. *)
Definition keys_add (l : list Z) (x : Z) : list Z :=
  if decide (x ∈ l) then l else l ++ [x].

(** The neighbours that [add_edges_from] hands to node [x], edge by edge:
    [_adj[u][v]] is set before [_adj[v][u]]. *)
Definition handed (x : Z) (ebunch : list (Z * Z)) : list Z :=
  flat_map (fun e => (if decide (e.1 = x) then [e.2] else []) ++
                     (if decide (e.2 = x) then [e.1] else [])) ebunch.

(** What one entry [u, nbrs] of [_adj.items()] hands to node [x]. *)
Definition handed_by (x : Z) (l : list Z) (entry : Z * dict unit) : list Z :=
  if decide (entry.1 = x) then fold_left keys_add (dict_keys entry.2) l
  else if dict_mem entry.2 x then keys_add l entry.1 else l.

(** ** Loading: file extension, vertex ids, the map as a list *)

(** [handle_ext]: [ext[0]] raises [IndexError] on the empty string. *)
Definition handle_ext (ext : string) : res string :=
  match ext with
  | EmptyString => Raise IndexError
  | String c _ =>
      if Ascii.eqb c "."%char then Ok ext else Ok (String "."%char ext)
  end.

(** [np.unique]: the distinct values, in increasing order. *)
Definition np_unique (l : list Z) : list Z :=
  merge_sort Z.le (remove_dups l).

(** [load_surface_info], from the face table that [read_geometry] returns:
    [np.unique] flattens the table. *)
Definition load_surface_info (mesh_faces : list (list Z))
    : list (list Z) * list Z :=
  (mesh_faces, np_unique (concat mesh_faces)).

(** A new graph object. *)
Definition alloc_graph (G : Graph) : M ref := fun s =>
  let g := fresh (dom (graphs s)) in
  (Ok g, mkStore (lists s) (<[g := G]> (graphs s))).

(** [surf_and_map_to_graph]; [mesh_faces] and [map_data] are what the two
    files hold. *)
Definition surf_and_map_to_graph (mesh_faces : list (list Z))
    (map_data : list val) : M ref :=
  let info := load_surface_info mesh_faces in
  g ← alloc_graph (nifti_to_graph info.1 info.2);
  add_map_to_surface g info.2 map_data.

(** [graph_has_attributes]: [G.nodes[0] != {}]. *)
Definition graph_has_attributes (G : Graph) : res bool :=
  a ← dict_item (node G) 0;
  Ok (match a with None => false | Some _ => true end).

(** [get_map_data_as_list]; [np.float] leaves the value as it is. *)
Definition get_map_data_as_list (G : Graph) : res (list val) :=
  get_node_attributes_as_list G (dict_keys (node G)).

(** The loop of [define_map_clusters]; it reads the global name [nodes],
    which is [None] here when the module does not bind it. *)
Fixpoint clusters_loop (global_nodes : option pynodes) (G : Graph)
    (map_data : list val) : res unit :=
  match map_data with
  | [] => Ok tt
  | _ :: rest =>
      nodes ← match global_nodes with
              | Some nodes => Ok nodes
              | None => Raise NameError
              end;
      _ ← get_neighbours_and_vals G nodes;
      clusters_loop global_nodes G rest
  end.

Definition define_map_clusters (global_nodes : option pynodes) (G : Graph)
    : res unit :=
  map_data ← get_map_data_as_list G;
  clusters_loop global_nodes G map_data.

(** ** Executable checks used in the statements *)

(** An index that numpy accepts for an array of this length. *)
Definition index_ok (map_data : list val) (i : Z) : bool :=
  (- Z.of_nat (length map_data) <=? i) && (i <? Z.of_nat (length map_data)).

(** Node [n] has a neighbour that is not in [lc]. *)
Definition outside_neighbour (G : Graph) (lc : list Z) (n : Z) : bool :=
  match dict_get (adj G) n with
  | Some nbrs => existsb (fun k => bool_decide (k ∉ lc)) (dict_keys nbrs)
  | None => false
  end.

(** The node holds a real value. *)
Definition has_real_value (G : Graph) (n : Z) : bool :=
  match dict_get (node G) n with
  | Some (Some (Real _)) => true
  | _ => false
  end.

(** The scalar value of a node, missing when nothing is bound. *)
Definition value_of (G : Graph) (n : Z) : val :=
  match dict_get (node G) n with
  | Some (Some v) => v
  | _ => NaN
  end.

(** A mesh with the values 0.5, 1.5, 2.5, 3.5 in a map file. *)
Definition sample_faces : list (list Z) := [[0; 1; 2]; [1; 2; 3]].
Definition sample_map : list val :=
  [Real (1 # 2); Real (3 # 2); Real (5 # 2); Real (7 # 2)].

(** One move of the ascent: the node stays, or goes to an adjacent node
    that holds a real value greater than its own. *)
Definition ascent_move (G : Graph) (n m : Z) : Prop :=
  m = n \/
  (has_edge G n m = true /\ has_real_value G m = true /\
   val_lt (value_of G n) (value_of G m) = true).

(** Every neighbour listed in an adjacency has an adjacency of its own. *)
Definition adj_closed (G : Graph) : bool :=
  forallb (fun entry => forallb (seed_in_graph G) (dict_keys entry.2)) (adj G).

(** What [expand_nodes] may append: nodes of the graph and, when the
    missing values are ignored, nodes that hold a real value. *)
Definition expandable (G : Graph) (ignore_nans : bool) (x : Z) : Prop :=
  seed_in_graph G x = true /\
  (ignore_nans = true -> has_real_value G x = true).

(** The graph of the sample mesh, before any value is bound. *)
Definition bare_mesh : Graph := nifti_to_graph sample_faces [0; 1; 2; 3].

(** The nodes whose attribute [get_node_attributes_as_list] reads: all the
    nodes of the graph when the list is empty. *)
Definition attribute_targets (G : Graph) (nodes : list Z) : list Z :=
  match nodes with
  | [] => dict_keys (node G)
  | _ => nodes
  end.

(** * Properties *)

(** ** Dictionaries *)

Section dict_facts.
Context {V : Type}.
Implicit Types (d : dict V) (k : Z) (v : V).

Lemma dict_get_None d k : dict_get d k = None <-> k ∉ dict_keys d.
Proof.
  induction d as [|[k' v'] d IH]; simpl.
  - split; [intros _; apply not_elem_of_nil | done].
  - rewrite not_elem_of_cons. destruct (Z.eqb_spec k k'); split.
    + done.
    + intros [? _]; done.
    + intros; split; [done | by apply IH].
    + intros [_ ?]; by apply IH.
Qed.

Lemma dict_get_Some_elem d k v : dict_get d k = Some v -> (k, v) ∈ d.
Proof.
  induction d as [|[k' v'] d IH]; simpl; [done|].
  destruct (Z.eqb_spec k k') as [->|]; intros H.
  - injection H as ->. apply elem_of_cons; by left.
  - apply elem_of_cons; right; by apply IH.
Qed.

Lemma dict_get_is_Some d k : is_Some (dict_get d k) <-> k ∈ dict_keys d.
Proof.
  rewrite <- not_eq_None_Some, dict_get_None.
  destruct (decide (k ∈ dict_keys d)); naive_solver.
Qed.

Lemma dict_mem_true d k : dict_mem d k = true <-> k ∈ dict_keys d.
Proof.
  unfold dict_mem. rewrite <- dict_get_is_Some.
  destruct (dict_get d k); split; done || by intros [? ?].
Qed.

Lemma dict_mem_false d k : dict_mem d k = false <-> k ∉ dict_keys d.
Proof.
  rewrite <- dict_mem_true. destruct (dict_mem d k); naive_solver.
Qed.

Lemma dict_get_set_eq d k v : dict_get (dict_set d k v) k = Some v.
Proof.
  induction d as [|[k' v'] d IH]; simpl.
  - by rewrite Z.eqb_refl.
  - destruct (Z.eqb_spec k k') as [->|Hne]; simpl.
    + by rewrite Z.eqb_refl.
    + destruct (Z.eqb_spec k k'); [done | apply IH].
Qed.

Lemma dict_get_set_ne d k k' v :
  k <> k' -> dict_get (dict_set d k v) k' = dict_get d k'.
Proof.
  intros Hne. induction d as [|[k0 v0] d IH]; simpl.
  - destruct (Z.eqb_spec k' k); [congruence | done].
  - destruct (Z.eqb_spec k k0) as [->|]; simpl.
    + destruct (Z.eqb_spec k' k0); [congruence | done].
    + destruct (Z.eqb_spec k' k0); [done | apply IH].
Qed.

(** Assigning to a key that is there keeps the keys and their order;
    a new key goes to the end. *)
Lemma dict_keys_set d k v :
  dict_keys (dict_set d k v) =
  if dict_mem d k then dict_keys d else dict_keys d ++ [k].
Proof.
  unfold dict_mem. induction d as [|[k' v'] d IH]; simpl; [done|].
  destruct (Z.eqb_spec k k') as [->|]; simpl; [done|].
  rewrite IH. by destruct (dict_get d k).
Qed.

Lemma dict_set_fresh d k v : k ∉ dict_keys d -> dict_set d k v = d ++ [(k, v)].
Proof.
  induction d as [|[k' v'] d IH]; simpl; [done|].
  rewrite not_elem_of_cons. intros [Hne Hin].
  destruct (Z.eqb_spec k k'); [done|]. by rewrite IH.
Qed.

Lemma dict_set_same d k v : dict_get d k = Some v -> dict_set d k v = d.
Proof.
  induction d as [|[k' v'] d IH]; simpl; [done|].
  destruct (Z.eqb_spec k k') as [->|]; intros H.
  - by injection H as ->.
  - by rewrite IH.
Qed.

Lemma dict_elem_of_set d k v k' v' :
  (k', v') ∈ dict_set d k v -> (k' = k /\ v' = v) \/ (k', v') ∈ d.
Proof.
  induction d as [|[k0 v0] d IH]; simpl.
  - intros H%list_elem_of_singleton. injection H as -> ->. by left.
  - destruct (Z.eqb_spec k k0) as [->|].
    + rewrite !elem_of_cons. intros [H|H]; [left|right; by right].
      by injection H as -> ->.
    + rewrite !elem_of_cons. intros [H|H]; [right; by left|].
      destruct (IH H); [by left | right; by right].
Qed.

Lemma dict_wf_set d k v : dict_wf d -> dict_wf (dict_set d k v).
Proof.
  unfold dict_wf. rewrite dict_keys_set.
  destruct (dict_mem d k) eqn:E; [done|].
  intros Hd. apply NoDup_app. split_and!; [done| |apply NoDup_singleton].
  intros x Hx ->%list_elem_of_singleton. by apply dict_mem_false in E.
Qed.

Lemma dict_wf_update d d2 : dict_wf d -> dict_wf (dict_update d d2).
Proof.
  unfold dict_update. revert d.
  induction d2 as [|[k v] d2 IH]; intros d Hd; simpl; [done|].
  by apply IH, dict_wf_set.
Qed.

Lemma dict_wf_zip ks (vs : list V) : dict_wf (dict_zip ks vs).
Proof. apply dict_wf_update, NoDup_nil_2. Qed.

Lemma dict_wf_get d k v : dict_wf d -> (k, v) ∈ d -> dict_get d k = Some v.
Proof.
  unfold dict_wf. induction d as [|[k' v'] d IH]; simpl.
  - intros _ H; by apply elem_of_nil in H.
  - rewrite NoDup_cons, elem_of_cons. intros [Hk Hd] [H|H].
    + injection H as -> ->. by rewrite Z.eqb_refl.
    + destruct (Z.eqb_spec k k') as [->|]; [|by apply IH].
      exfalso. apply Hk. apply list_elem_of_fmap. by exists (k', v).
Qed.

(** Merging entries that are already there changes nothing. *)
Lemma dict_update_absorb d d2 :
  (forall k v, (k, v) ∈ d2 -> dict_get d k = Some v) ->
  dict_update d d2 = d.
Proof.
  unfold dict_update. induction d2 as [|[k v] d2 IH]; intros H; simpl; [done|].
  rewrite dict_set_same.
  - apply IH. intros k' v' Hin. apply H, elem_of_cons. by right.
  - apply H, elem_of_cons. by left.
Qed.

Lemma dict_update_self d : dict_wf d -> dict_update d d = d.
Proof. intros Hd. apply dict_update_absorb. intros; by apply dict_wf_get. Qed.

(** Merging new keys appends them in their order. *)
Lemma dict_update_fresh d d2 :
  dict_wf d2 -> (forall k, k ∈ dict_keys d2 -> k ∉ dict_keys d) ->
  dict_update d d2 = d ++ d2.
Proof.
  unfold dict_update, dict_wf. revert d.
  induction d2 as [|[k v] d2 IH]; intros d Hwf Hfresh; simpl.
  - by rewrite app_nil_r.
  - simpl in Hwf. apply NoDup_cons in Hwf as [Hk Hwf].
    rewrite dict_set_fresh by (apply Hfresh; simpl; apply elem_of_cons; by left).
    rewrite IH; [by rewrite <- app_assoc | done |].
    intros k' Hk'. unfold dict_keys. rewrite fmap_app, elem_of_app.
    intros [Hin | ->%list_elem_of_singleton]; [|done].
    revert Hin. apply Hfresh. simpl. apply elem_of_cons. by right.
Qed.

Lemma dict_update_nil d : dict_wf d -> dict_update [] d = d.
Proof.
  intros Hd. rewrite dict_update_fresh; [done..|].
  intros k _. apply not_elem_of_nil.
Qed.
End dict_facts.

(** ** Neighborhood engine *)

Lemma get_neighbours_and_vals_wf G nodes d :
  get_neighbours_and_vals G nodes = Ok d -> dict_wf d.
Proof.
  unfold get_neighbours_and_vals. intros H.
  destruct (match nodes with PyInt n => Ok [n] | _ => py_iter nodes end)
    as [l|e]; simpl in H; [|done].
  destruct (nodes_loop G l ([], [])) as [acc|e]; simpl in H; [|done].
  injection H as <-. apply dict_wf_zip.
Qed.

(** Once the accumulating dictionary holds the 1-hop result, further rounds
    over the same seeds leave it as it is. *)
Lemma multi_loop_fixed G nodes d its :
  get_neighbours_and_vals G nodes = Ok d ->
  multi_loop G nodes its d = Ok d.
Proof.
  intros H. induction its as [|its IH]; simpl; [done|].
  rewrite H. simpl. rewrite dict_update_self; [done|].
  by eapply get_neighbours_and_vals_wf.
Qed.

Lemma multi_loop_raise G nodes e its d :
  get_neighbours_and_vals G nodes = Raise e ->
  multi_loop G nodes (S its) d = Raise e.
Proof. intros H. simpl. by rewrite H. Qed.

(** C1. For every graph, seed set and hop count [k >= 1],
    [get_multi_neighbours_and_vals] expands the same seeds on each of its
    [k] rounds and merges the rounds into one dictionary, so its result (the
    dictionary, or the exception) is the result of the single call
    [get_neighbours_and_vals G nodes]: more rounds reach no farther node. *)
Theorem multi_hop_is_one_hop (G : Graph) (nodes : pynodes) (k : Z) :
  1 <= k ->
  get_multi_neighbours_and_vals G nodes k = get_neighbours_and_vals G nodes.
Proof.
  intros Hk. unfold get_multi_neighbours_and_vals, range_len.
  destruct (Z.to_nat k) as [|its] eqn:E; [lia|].
  destruct (get_neighbours_and_vals G nodes) as [d|e] eqn:Hd.
  - simpl. rewrite Hd. simpl.
    rewrite dict_update_nil by (by eapply get_neighbours_and_vals_wf).
    by apply multi_loop_fixed.
  - by apply multi_loop_raise.
Qed.

(** ** Graph builder *)

Lemma has_node_spec G n : has_node G n = true <-> n ∈ dict_keys (node G).
Proof. apply dict_mem_true. Qed.

Lemma has_edge_spec G u v :
  has_edge G u v = true <->
  exists nbrs, dict_get (adj G) u = Some nbrs /\ v ∈ dict_keys nbrs.
Proof.
  unfold has_edge. destruct (dict_get (adj G) u) as [nbrs|].
  - rewrite dict_mem_true. split; [intros H; by exists nbrs|].
    by intros (? & [= <-] & ?).
  - split; [done|]. by intros (? & ? & ?).
Qed.

Lemma dict_mem_set {V} (d : dict V) k v k' :
  dict_mem (dict_set d k v) k' = (k' =? k) || dict_mem d k'.
Proof.
  unfold dict_mem. destruct (Z.eqb_spec k' k) as [->|Hne]; simpl.
  - by rewrite dict_get_set_eq.
  - by rewrite dict_get_set_ne.
Qed.

Lemma dict_get_adj_set a u v x :
  dict_get (adj_set a u v) x =
  if decide (x = u) then (fun nbrs => dict_set nbrs v tt) <$> dict_get a u
  else dict_get a x.
Proof.
  unfold adj_set. destruct (dict_get a u) as [nbrs|] eqn:E; simpl.
  - case_decide as Hx; [subst; apply dict_get_set_eq|].
    by apply dict_get_set_ne.
  - case_decide; [by subst|done].
Qed.

Lemma dict_keys_adj_set a u v : dict_keys (adj_set a u v) = dict_keys a.
Proof.
  unfold adj_set. destruct (dict_get a u) as [nbrs|] eqn:E; [|done].
  rewrite dict_keys_set. unfold dict_mem. by rewrite E.
Qed.

Lemma dict_get_keys_eq {V W} (d : dict V) (d' : dict W) k :
  dict_keys d = dict_keys d' -> is_Some (dict_get d k) <-> is_Some (dict_get d' k).
Proof. intros H. by rewrite !dict_get_is_Some, H. Qed.

Lemma graph_wf_empty : graph_wf empty_graph.
Proof. split_and!; [done | apply NoDup_nil_2 | done]. Qed.

Lemma add_node_wf G n : graph_wf G -> graph_wf (add_node G n).
Proof.
  intros (Hk & Hn & Ha). unfold add_node.
  destruct (dict_mem (node G) n) eqn:E; [done|].
  assert (dict_mem (adj G) n = false) as E'.
  { apply dict_mem_false. rewrite Hk. by apply dict_mem_false. }
  split_and!; simpl.
  - by rewrite !dict_keys_set, E, E', Hk.
  - by apply dict_wf_set.
  - intros u nbrs. destruct (decide (n = u)) as [->|Hne].
    + rewrite dict_get_set_eq. intros [= <-]. apply NoDup_nil_2.
    + rewrite dict_get_set_ne by done. apply Ha.
Qed.

Lemma add_node_has_node G n x :
  has_node (add_node G n) x = (x =? n) || has_node G x.
Proof.
  unfold add_node, has_node.
  destruct (dict_mem (node G) n) eqn:E; simpl.
  - destruct (Z.eqb_spec x n) as [->|]; [by rewrite E | done].
  - apply dict_mem_set.
Qed.

Lemma add_node_has_edge G n u v :
  graph_wf G -> has_edge (add_node G n) u v = has_edge G u v.
Proof.
  intros (Hk & _ & _). unfold add_node, has_edge.
  destruct (dict_mem (node G) n) eqn:E; simpl; [done|].
  destruct (decide (n = u)) as [->|Hne].
  - rewrite dict_get_set_eq.
    assert (dict_get (adj G) u = None) as ->; [|done].
    apply dict_get_None. rewrite Hk. by apply dict_mem_false.
  - by rewrite dict_get_set_ne.
Qed.

Lemma add_edge_wf G e : graph_wf G -> graph_wf (add_edge G e).
Proof.
  intros HG. unfold add_edge.
  pose proof (add_node_wf _ e.2 (add_node_wf _ e.1 HG)) as (Hk & Hn & Ha).
  set (G2 := add_node (add_node G e.1) e.2) in *.
  split_and!; simpl.
  - by rewrite !dict_keys_adj_set.
  - done.
  - intros u nbrs. rewrite dict_get_adj_set. case_decide as Hu.
    + rewrite dict_get_adj_set. case_decide.
      * destruct (dict_get (adj G2) e.1) as [n1|] eqn:E1; simpl; [|done].
        intros [= <-]. apply dict_wf_set, dict_wf_set. by eapply Ha.
      * destruct (dict_get (adj G2) e.2) as [n1|] eqn:E1; simpl; [|done].
        intros [= <-]. apply dict_wf_set. by eapply Ha.
    + rewrite dict_get_adj_set. case_decide.
      * destruct (dict_get (adj G2) e.1) as [n1|] eqn:E1; simpl; [|done].
        intros [= <-]. apply dict_wf_set. by eapply Ha.
      * apply Ha.
Qed.

Lemma add_edge_has_node G e x :
  has_node (add_edge G e) x = (x =? e.1) || (x =? e.2) || has_node G x.
Proof.
  unfold add_edge, has_node at 1. simpl.
  change (dict_mem (node ?G') x) with (has_node G' x).
  rewrite !add_node_has_node.
  destruct (x =? e.1), (x =? e.2); done.
Qed.

Lemma add_edge_has_edge G e x y :
  graph_wf G ->
  has_edge (add_edge G e) x y =
  ((x =? e.1) && (y =? e.2)) || ((x =? e.2) && (y =? e.1)) || has_edge G x y.
Proof.
  intros HG.
  pose proof (add_node_wf _ e.1 HG) as HG1.
  pose proof (add_node_wf _ e.2 HG1) as HG2.
  rewrite <- (add_node_has_edge G e.1 x y HG).
  rewrite <- (add_node_has_edge _ e.2 x y HG1).
  assert (has_node (add_node (add_node G e.1) e.2) e.1 = true) as H1.
  { rewrite !add_node_has_node, Z.eqb_refl. by rewrite orb_true_r. }
  assert (has_node (add_node (add_node G e.1) e.2) e.2 = true) as H2.
  { by rewrite !add_node_has_node, Z.eqb_refl. }
  unfold add_edge.
  set (G2 := add_node (add_node G e.1) e.2) in *.
  destruct HG2 as (Hk & _ & _).
  apply has_node_spec in H1, H2. rewrite <- Hk in H1, H2.
  apply dict_get_is_Some in H1 as [n1 E1], H2 as [n2 E2].
  unfold has_edge. simpl. rewrite !dict_get_adj_set.
  destruct e as [u v]; simpl in *.
  destruct (Z.eqb_spec x u) as [Hx1|Hx1], (Z.eqb_spec x v) as [Hx2|Hx2];
    repeat case_decide; try congruence; subst; simpl;
    rewrite ?E1, ?E2; simpl; rewrite ?dict_mem_set.
  all: by destruct (y =? v), (y =? u) || by destruct (y =? v) || done.
Qed.

Lemma add_nodes_from_spec nodes_to_add G :
  graph_wf G ->
  let G' := add_nodes_from G nodes_to_add in
  graph_wf G' /\
  (forall x, has_node G' x = true <->
             has_node G x = true \/ x ∈ nodes_to_add) /\
  (forall x y, has_edge G' x y = has_edge G x y).
Proof.
  unfold add_nodes_from. revert G.
  induction nodes_to_add as [|n l IH]; intros G HG; simpl.
  - split_and!; [done| |done]. intros x. rewrite elem_of_nil. tauto.
  - destruct (IH (add_node G n) (add_node_wf _ _ HG)) as (Hw & Hn & He).
    split_and!; [done| |].
    + intros x. rewrite Hn, add_node_has_node, elem_of_cons.
      rewrite orb_true_iff, Z.eqb_eq. tauto.
    + intros x y. by rewrite He, add_node_has_edge.
Qed.

Lemma add_edges_from_spec ebunch G :
  graph_wf G ->
  let G' := add_edges_from G ebunch in
  graph_wf G' /\
  (forall x, has_node G' x = true <->
             has_node G x = true \/
             exists e, e ∈ ebunch /\ (x = e.1 \/ x = e.2)) /\
  (forall x y, has_edge G' x y = true <->
               has_edge G x y = true \/ (x, y) ∈ ebunch \/ (y, x) ∈ ebunch).
Proof.
  unfold add_edges_from. revert G.
  induction ebunch as [|e l IH]; intros G HG; simpl.
  - split_and!; [done| |].
    + intros x. split; [by left|]. intros [?|(e & He & _)]; [done|].
      by apply elem_of_nil in He.
    + intros x y. rewrite !elem_of_nil. tauto.
  - destruct (IH (add_edge G e) (add_edge_wf _ _ HG)) as (Hw & Hn & He).
    split_and!; [done| |].
    + intros x. rewrite Hn, add_edge_has_node, !orb_true_iff, !Z.eqb_eq.
      split.
      * intros [[[->| ->]|?]|(e' & He' & Hx)].
        -- right. exists e. split; [apply elem_of_cons|]; by left.
        -- right. exists e. split; [apply elem_of_cons; by left|by right].
        -- by left.
        -- right. exists e'. split; [apply elem_of_cons; by right|done].
      * intros [?|(e' & [->|He']%elem_of_cons & Hx)].
        -- left. by right.
        -- left. left. done.
        -- right. by exists e'.
    + intros x y. rewrite He, add_edge_has_edge by done.
      rewrite !orb_true_iff, !andb_true_iff, !Z.eqb_eq, !elem_of_cons.
      destruct e as [u v]; simpl. split.
      * intros [[[[-> ->]|[-> ->]]|?]|[?|?]]; tauto.
      * intros [?|[[[= -> ->]|?]|[[= -> ->]|?]]]; tauto.
Qed.

(** The pairs of [combinations2]: an earlier place with a later one. *)
Lemma elem_of_combinations2 row u v :
  (u, v) ∈ combinations2 row <->
  exists i j, (i < j)%nat /\ row !! i = Some u /\ row !! j = Some v.
Proof.
  induction row as [|x rest IH]; simpl.
  - rewrite elem_of_nil. split; [done|]. by intros (i & j & _ & H & _).
  - rewrite elem_of_app, IH, list_elem_of_fmap. split.
    + intros [(y & [= -> ->] & Hy)|(i & j & Hij & Hi & Hj)].
      * apply list_elem_of_lookup in Hy as [j Hj].
        exists 0%nat, (S j). split_and!; [lia|done|done].
      * exists (S i), (S j). split_and!; [lia|done|done].
    + intros (i & j & Hij & Hi & Hj).
      destruct j as [|j]; [lia|]. simpl in Hj.
      destruct i as [|i]; simpl in Hi.
      * left. injection Hi as ->. exists v. split; [done|].
        apply list_elem_of_lookup. by exists j.
      * right. exists i, j. split_and!; [lia|done|done].
Qed.

Lemma cooccur_combinations2 row u v :
  cooccur row u v <->
  (u, v) ∈ combinations2 row \/ (v, u) ∈ combinations2 row.
Proof.
  rewrite !elem_of_combinations2. unfold cooccur. split.
  - intros (i & j & Hij & Hi & Hj).
    destruct (decide (i < j)%nat); [left; exists i, j|right; exists j, i];
      (split_and!; [lia|done|done]).
  - intros [(i & j & Hij & Hi & Hj)|(i & j & Hij & Hi & Hj)];
      [exists i, j|exists j, i]; (split_and!; [lia|done|done]).
Qed.

(** For two different vertices, to co-occur is to be both in the row. *)
Lemma cooccur_distinct row u v :
  u <> v -> cooccur row u v <-> u ∈ row /\ v ∈ row.
Proof.
  intros Hne. unfold cooccur. rewrite !list_elem_of_lookup. split.
  - intros (i & j & _ & Hi & Hj). eauto.
  - intros [[i Hi] [j Hj]]. exists i, j. split_and!; [|done..].
    intros ->. congruence.
Qed.

Lemma combinations2_endpoint row x :
  (2 <= length row)%nat -> x ∈ row ->
  exists e, e ∈ combinations2 row /\ (x = e.1 \/ x = e.2).
Proof.
  intros Hlen [i Hi]%list_elem_of_lookup.
  destruct (decide (i = 0%nat)) as [->|Hne].
  - destruct (lookup_lt_is_Some_2 row 1) as [y Hy]; [lia|].
    exists (x, y). split; [|by left].
    apply elem_of_combinations2. exists 0%nat, 1%nat. split_and!; [lia|done..].
  - destruct (lookup_lt_is_Some_2 row 0) as [y Hy]; [lia|].
    exists (y, x). split; [|by right].
    apply elem_of_combinations2. exists 0%nat, i. split_and!; [lia|done..].
Qed.

Lemma combinations2_in_row row e :
  e ∈ combinations2 row -> e.1 ∈ row /\ e.2 ∈ row.
Proof.
  destruct e as [u v]. rewrite elem_of_combinations2.
  intros (i & j & _ & Hi & Hj). rewrite !list_elem_of_lookup. eauto.
Qed.

Lemma faces_loop_spec mesh_faces G :
  graph_wf G ->
  let G' := fold_left (fun G row => add_edges_from G (combinations2 row))
                      mesh_faces G in
  graph_wf G' /\
  (forall x, has_node G' x = true <->
             has_node G x = true \/
             exists row e, row ∈ mesh_faces /\ e ∈ combinations2 row /\
                           (x = e.1 \/ x = e.2)) /\
  (forall x y, has_edge G' x y = true <->
               has_edge G x y = true \/
               exists row, row ∈ mesh_faces /\ cooccur row x y).
Proof.
  revert G. induction mesh_faces as [|row rows IH]; intros G HG; simpl.
  - split_and!; [done| |].
    + intros x. split; [by left|]. intros [?|(r & e & Hr & _)]; [done|].
      by apply elem_of_nil in Hr.
    + intros x y. split; [by left|]. intros [?|(r & Hr & _)]; [done|].
      by apply elem_of_nil in Hr.
  - destruct (add_edges_from_spec (combinations2 row) G HG) as (Hw1 & Hn1 & He1).
    destruct (IH _ Hw1) as (Hw & Hn & He).
    split_and!; [done| |].
    + intros x. rewrite Hn, Hn1. split.
      * intros [[?|(e & He' & Hx)]|(r & e & Hr & He' & Hx)].
        -- by left.
        -- right. exists row, e. split; [apply elem_of_cons; by left|done].
        -- right. exists r, e. split; [apply elem_of_cons; by right|done].
      * intros [?|(r & e & [->|Hr]%elem_of_cons & He' & Hx)].
        -- left. by left.
        -- left. right. by exists e.
        -- right. by exists r, e.
    + intros x y. rewrite He, He1, <- cooccur_combinations2. split.
      * intros [[?|Hc]|(r & Hr & Hc)].
        -- by left.
        -- right. exists row. split; [apply elem_of_cons; by left|done].
        -- right. exists r. split; [apply elem_of_cons; by right|done].
      * intros [?|(r & [->|Hr]%elem_of_cons & Hc)].
        -- left. by left.
        -- left. by right.
        -- right. by exists r.
Qed.

Lemma elem_of_concat (x : Z) (ls : list (list Z)) :
  x ∈ concat ls <-> exists l, l ∈ ls /\ x ∈ l.
Proof.
  induction ls as [|l ls IH]; simpl.
  - rewrite elem_of_nil. split; [done|]. intros (l & Hl & _).
    by apply elem_of_nil in Hl.
  - rewrite elem_of_app, IH. split.
    + intros [?|(l' & ? & ?)].
      * exists l. split; [apply elem_of_cons; by left|done].
      * exists l'. split; [apply elem_of_cons; by right|done].
    + intros (l' & [->|?]%elem_of_cons & ?); [by left|right; by exists l'].
Qed.

(** C4. For every face table whose rows hold at least two vertex ids (and
    node ids taken from the table), the built graph has one node for each
    vertex id of the table and no other, each once; [u] and [v] are joined
    exactly when they stand at two places of one row, which for [u <> v] is
    to say that some row holds both; and a pair that shares several faces is
    one edge: a neighbour is listed once in an adjacency. *)
Theorem nifti_to_graph_spec (mesh_faces : list (list Z)) (nodes_to_add : list Z) :
  Forall (fun row => (2 <= length row)%nat) mesh_faces ->
  (forall n, n ∈ nodes_to_add -> n ∈ concat mesh_faces) ->
  let G := nifti_to_graph mesh_faces nodes_to_add in
  NoDup (dict_keys (node G)) /\
  (forall n, n ∈ dict_keys (node G) <-> n ∈ concat mesh_faces) /\
  (forall u v, has_edge G u v = true <->
               exists row, row ∈ mesh_faces /\ cooccur row u v) /\
  (forall u v, u <> v ->
               (has_edge G u v = true <->
                exists row, row ∈ mesh_faces /\ u ∈ row /\ v ∈ row)) /\
  (forall u v, has_edge G u v = has_edge G v u) /\
  (forall u nbrs, dict_get (adj G) u = Some nbrs -> NoDup (dict_keys nbrs)).
Proof.
  intros Hrows Hnodes G. unfold nifti_to_graph in G.
  destruct (add_nodes_from_spec nodes_to_add _ graph_wf_empty) as (Hw0 & Hn0 & He0).
  destruct (faces_loop_spec mesh_faces _ Hw0) as (Hw & Hn & He).
  fold G in Hw, Hn, He.
  assert (forall u v, has_edge G u v = true <->
               exists row, row ∈ mesh_faces /\ cooccur row u v) as Hedge.
  { intros u v. rewrite He, He0. split; [|by right].
    intros [H|H]; [done|done]. }
  destruct Hw as (Hk & Hnd & Hadj).
  split_and!; [done| |done| | |done].
  - intros n. rewrite <- has_node_spec, Hn, Hn0. split.
    + intros [[H|H]|(row & e & Hr & He' & Hx)].
      * done.
      * by apply Hnodes.
      * apply elem_of_concat. exists row. split; [done|].
        apply combinations2_in_row in He' as [? ?]. by destruct Hx as [->| ->].
    + intros (row & Hr & Hx)%elem_of_concat. right.
      rewrite Forall_forall in Hrows.
      destruct (combinations2_endpoint row n) as (e & ? & ?); [|done|by exists row, e].
      by apply Hrows.
  - intros u v Hne. rewrite Hedge.
    split; intros (row & Hr & H); exists row; (split; [done|]);
      by apply (cooccur_distinct row u v Hne).
  - intros u v. apply eq_true_iff_eq. rewrite !Hedge.
    split; intros (row & Hr & i & j & Hij & Hi & Hj); exists row;
      (split; [done|]); exists j, i; split_and!; done.
Qed.

(** ** Region operations *)

Lemma size_inter_lt (S L : gset Z) :
  (size (S ∩ L) < size S)%nat <-> exists x, x ∈ S /\ x ∉ L.
Proof.
  split.
  - intros Hlt.
    destruct (decide (set_Exists (fun x => x ∉ L) S)) as [Hex|Hn]; [done|].
    assert (S ∩ L = S) as Heq; [|rewrite Heq in Hlt; lia].
    apply set_eq. intros x. rewrite elem_of_intersection.
    split; [tauto|]. intros HS. split; [done|].
    destruct (decide (x ∈ L)); [done|]. exfalso. apply Hn. by exists x.
  - intros (x & HS & HL). apply subset_size.
    split; [apply intersection_subseteq_l|].
    intros Hsub. apply HL. specialize (Hsub x HS).
    by apply elem_of_intersection in Hsub as [_ ?].
Qed.

Lemma is_border_reads_global env G region_nodes n d lc :
  get_neighbours_and_vals G (PyList [n]) = Ok d ->
  label_coords env = Some lc ->
  exists b, is_node_on_region_border env G region_nodes n = Ok b /\
            (b = true <-> exists x, x ∈ dict_keys d /\ x ∉ lc).
Proof.
  intros Hd Hlc. unfold is_node_on_region_border, global_label_coords.
  rewrite Hd, Hlc. simpl. eexists. split; [done|].
  rewrite bool_decide_eq_true, size_inter_lt.
  by setoid_rewrite elem_of_list_to_set.
Qed.

Lemma is_border_unbound_global G region_nodes n d :
  get_neighbours_and_vals G (PyList [n]) = Ok d ->
  is_node_on_region_border module_globals G region_nodes n = Raise NameError.
Proof. intros Hd. unfold is_node_on_region_border. by rewrite Hd. Qed.

(** C2. On the one-edge graph with the region [[0; 1]], node 0 has the single
    neighbour 1, which lies in the region, so the node is not on the border.
    The function never reads its [region_nodes] argument: it reads the global
    name [label_coords].  With the module as it is written the name is
    unbound and both functions raise [NameError]; with the name bound to an
    empty collection they answer that every node is on the border. *)
Theorem is_node_on_region_border_reads_global :
  get_neighbours_and_vals one_edge (PyList [0]) = Ok [(1, Real 2)] /\
  is_node_on_region_border module_globals one_edge [0; 1] 0 = Raise NameError /\
  find_region_border module_globals one_edge [0; 1] = Raise NameError /\
  is_node_on_region_border (mkGlobals (Some [])) one_edge [0; 1] 0 = Ok true /\
  find_region_border (mkGlobals (Some [])) one_edge [0; 1] = Ok [0; 1].
Proof. split_and!; vm_compute; reflexivity. Qed.

(** ** Seeds and errors of the 1-hop step *)

Lemma neighbours_loop_raise G items acc e :
  neighbours_loop G items acc = Raise e -> e = KeyError.
Proof.
  revert acc. induction items as [|[nb []] rest IH]; intros acc; simpl; [done|].
  unfold dict_item. destruct (dict_get (node G) nb) as [[v|]|]; simpl.
  - apply IH.
  - congruence.
  - congruence.
Qed.

Lemma nodes_loop_raise G nodes acc e :
  nodes_loop G nodes acc = Raise e -> e = KeyError.
Proof.
  revert acc. induction nodes as [|n rest IH]; intros acc; simpl; [done|].
  unfold dict_item. destruct (dict_get (adj G) n) as [items|]; simpl; [|congruence].
  destruct (neighbours_loop G items acc) as [acc'|e'] eqn:E; simpl.
  - apply IH.
  - intros [= <-]. by eapply neighbours_loop_raise.
Qed.

Lemma nodes_loop_ok_seeds G nodes acc acc' :
  nodes_loop G nodes acc = Ok acc' ->
  forall n, n ∈ nodes -> seed_in_graph G n = true.
Proof.
  revert acc. induction nodes as [|n rest IH]; intros acc H x Hx; simpl in *.
  - by apply elem_of_nil in Hx.
  - unfold dict_item, seed_in_graph, dict_mem in *.
    destruct (dict_get (adj G) n) as [items|] eqn:En; simpl in H; [|done].
    destruct (neighbours_loop G items acc) as [a|] eqn:E; simpl in H; [|done].
    apply elem_of_cons in Hx as [->|Hx]; [by rewrite En|].
    by eapply IH.
Qed.

Lemma neighbours_loop_ok G items acc :
  forallb (has_value G) (dict_keys items) = true ->
  is_ok (neighbours_loop G items acc).
Proof.
  revert acc. induction items as [|[nb []] rest IH]; intros acc; simpl.
  - by eexists.
  - rewrite andb_true_iff. intros [Hv Hrest]. unfold has_value, dict_item in *.
    destruct (dict_get (node G) nb) as [[v|]|]; simpl; try done.
    by apply IH.
Qed.

Lemma values_bound_adj G n items :
  values_bound G = true -> dict_get (adj G) n = Some items ->
  forallb (has_value G) (dict_keys items) = true.
Proof.
  unfold values_bound. rewrite forallb_forall.
  intros H Hn. apply dict_get_Some_elem, list_elem_of_In in Hn.
  apply (H _ Hn).
Qed.

Lemma nodes_loop_ok G nodes acc :
  values_bound G = true ->
  forallb (seed_in_graph G) nodes = true ->
  is_ok (nodes_loop G nodes acc).
Proof.
  intros HG. revert acc. induction nodes as [|n rest IH]; intros acc; simpl.
  - by eexists.
  - rewrite andb_true_iff. intros [Hn Hrest].
    unfold seed_in_graph, dict_mem, dict_item in *.
    destruct (dict_get (adj G) n) as [items|] eqn:En; [|done]. simpl.
    destruct (neighbours_loop_ok G items acc) as [acc' ->];
      [by eapply values_bound_adj|].
    simpl. by apply IH.
Qed.

(** C5, as the code has it.  On a graph whose neighbours all hold a scalar
    value: when every seed is a node of the graph, [get_neighbours_and_vals]
    returns a dictionary (possibly empty) and raises nothing, for a list of
    seeds and for a single id; when some seed of the list is not a node of
    the graph, the call raises [KeyError]. *)
Theorem get_neighbours_and_vals_seeds (G : Graph) (seeds : list Z) (n : Z) :
  values_bound G = true ->
  (forallb (seed_in_graph G) seeds = true ->
   is_ok (get_neighbours_and_vals G (PyList seeds))) /\
  (seed_in_graph G n = true -> is_ok (get_neighbours_and_vals G (PyInt n))) /\
  (forallb (seed_in_graph G) seeds = false ->
   get_neighbours_and_vals G (PyList seeds) = Raise KeyError).
Proof.
  intros HG.
  assert (forall l, forallb (seed_in_graph G) l = true ->
                    is_ok (get_neighbours_and_vals G (PyList l))) as Hok.
  { intros l Hl. unfold get_neighbours_and_vals. simpl.
    destruct (nodes_loop_ok G l ([], []) HG Hl) as [acc ->].
    simpl. by eexists. }
  split_and!.
  - apply Hok.
  - intros Hn. change (is_ok (get_neighbours_and_vals G (PyList [n]))).
    apply Hok. simpl. by rewrite Hn.
  - intros Hs. unfold get_neighbours_and_vals. simpl.
    destruct (nodes_loop G seeds ([], [])) as [acc|e] eqn:E; simpl.
    + exfalso. apply not_true_iff_false in Hs. apply Hs.
      apply forallb_forall. intros x Hx%list_elem_of_In.
      by eapply nodes_loop_ok_seeds.
    + f_equal. by eapply nodes_loop_raise.
Qed.

(** ** Gradient ascent *)

Lemma val_lt_nan_r a : val_lt a NaN = false.
Proof. by destruct a. Qed.

(** A missing value that comes first stays the maximum: nothing compares
    greater than NaN. *)
Lemma max_loop_nan_first {A} (key : A -> val) m rest :
  isnan (key m) = true -> max_loop key m rest = m.
Proof.
  intros Hm. induction rest as [|x rest IH]; simpl; [done|].
  replace (val_gt (key x) (key m)) with false; [done|].
  unfold val_gt. by destruct (key m).
Qed.

(** A real value is never given up for a missing one. *)
Lemma max_loop_real {A} (key : A -> val) m rest :
  isnan (key m) = false -> isnan (key (max_loop key m rest)) = false.
Proof.
  revert m. induction rest as [|x rest IH]; intros m Hm; simpl; [done|].
  unfold val_gt. destruct (val_lt (key m) (key x)) eqn:E; [|by apply IH].
  apply IH. destruct (key m), (key x); done.
Qed.

(** C6. On [nan_first] the neighbourhood of node 0 holds the real values 5
    and 3, and [max_neighbour] returns neighbour 3 with the missing value:
    the missing value comes first in the dictionary and no later value
    compares greater than it.  The ascent step then leaves node 0 (value 1)
    in place, although neighbour 1 holds 5. *)
Theorem max_neighbour_nan_first :
  get_multi_neighbours_and_vals nan_first (PyList [0]) 1 =
    Ok [(3, NaN); (1, Real 5); (2, Real 3)] /\
  max_neighbour nan_first 0 1 = Ok (3, NaN) /\
  nodes_gradient_step nan_first [0] 1 = Ok [0].
Proof. split_and!; vm_compute; reflexivity. Qed.

Lemma max_neighbour_all_missing G n k d :
  get_multi_neighbours_and_vals G (PyList [n]) k = Ok d ->
  d <> [] -> forallb isnan (dict_values d) = true ->
  exists nb, max_neighbour G n k = Ok (nb, NaN).
Proof.
  intros Hd Hne Hnan. unfold max_neighbour. rewrite Hd. simpl.
  destruct d as [|[nb v] rest]; [done|]. simpl in *.
  apply andb_true_iff in Hnan as [Hv _]. destruct v; [done|].
  rewrite !max_loop_nan_first by done. by exists nb.
Qed.

Lemma max_neighbour_empty G n k :
  get_multi_neighbours_and_vals G (PyList [n]) k = Ok [] ->
  max_neighbour G n k = Raise ValueError.
Proof. intros Hd. unfold max_neighbour. by rewrite Hd. Qed.

Lemma max_neighbour_nonempty G n k :
  nonempty_neighbourhood G k n = true -> is_ok (max_neighbour G n k).
Proof.
  unfold nonempty_neighbourhood, max_neighbour.
  destruct (get_multi_neighbours_and_vals G (PyList [n]) k) as [[|[nb v] d]|];
    try done.
  intros _. simpl. by eexists.
Qed.

Lemma attributes_loop_ok G nodes tmp :
  forallb (has_value G) nodes = true ->
  exists vals, attributes_loop G nodes tmp = Ok (tmp ++ vals) /\
               length vals = length nodes.
Proof.
  revert tmp. induction nodes as [|n rest IH]; intros tmp; simpl.
  - intros _. exists []. by rewrite app_nil_r.
  - rewrite andb_true_iff. intros [Hn Hrest]. unfold has_value, dict_item in *.
    destruct (dict_get (node G) n) as [[v|]|]; try done. simpl.
    destruct (IH (tmp ++ [v]) Hrest) as (vals & -> & Hlen).
    exists (v :: vals). split; [by rewrite <- app_assoc | simpl; lia].
Qed.

Lemma gradient_loop_spec G k pairs acc :
  forallb (fun p => nonempty_neighbourhood G k p.1) pairs = true ->
  exists out,
    gradient_loop G k pairs acc = Ok (acc ++ out) /\
    length out = length pairs /\
    forall i p, pairs !! i = Some p -> all_missing G k p.1 = true ->
                out !! i = Some p.1.
Proof.
  revert acc. induction pairs as [|[n retval] rest IH]; intros acc; simpl.
  - intros _. exists []. rewrite app_nil_r. by split_and!.
  - rewrite andb_true_iff. intros [Hn Hrest].
    destruct (max_neighbour_nonempty G n k Hn) as [max_info Hmax].
    rewrite Hmax. simpl.
    destruct (IH (acc ++ [if val_lt retval max_info.2 then max_info.1 else n])
                 Hrest) as (out & -> & Hlen & Hout).
    eexists (_ :: out). split_and!.
    + by rewrite <- app_assoc.
    + simpl; lia.
    + intros [|i] p; simpl; [|apply Hout].
      intros [= <-]. simpl. unfold all_missing, nonempty_neighbourhood in *.
      destruct (get_multi_neighbours_and_vals G (PyList [n]) k)
        as [d|] eqn:Hd; [|done].
      intros Hnan. destruct (max_neighbour_all_missing G n k d) as [nb Hnb];
        [done| by destruct d |done|].
      rewrite Hnb in Hmax. injection Hmax as <-. simpl.
      by rewrite val_lt_nan_r.
Qed.

(** Every node of a non-empty list holds a value and finds a neighbour: the
    ascent step returns a list of the same length, and a node whose
    neighbours all miss their value keeps its place. *)
Lemma nodes_gradient_step_all_missing G nodes k :
  nodes <> [] ->
  forallb (has_value G) nodes = true ->
  forallb (nonempty_neighbourhood G k) nodes = true ->
  exists out,
    nodes_gradient_step G nodes k = Ok out /\
    length out = length nodes /\
    forall i n, nodes !! i = Some n -> all_missing G k n = true ->
                out !! i = Some n.
Proof.
  intros Hne Hvals Hnb. unfold nodes_gradient_step, get_node_attributes_as_list.
  destruct nodes as [|n0 rest]; [done|].
  destruct (attributes_loop_ok G (n0 :: rest) [] Hvals) as (vals & -> & Hlen).
  simpl app. cbn [mbind res_bind].
  set (nodes := n0 :: rest) in *.
  destruct (gradient_loop_spec G k (combine nodes vals) []) as (out & -> & Hl & Hout).
  - apply forallb_forall. intros [n v] Hin. simpl.
    apply in_combine_l in Hin. rewrite forallb_forall in Hnb. by apply Hnb.
  - exists out. split_and!; [done| |].
    + rewrite Hl, length_combine. lia.
    + intros i n Hi Hnan.
      destruct (lookup_lt_is_Some_2 vals i) as [v Hv].
      { rewrite Hlen. by eapply lookup_lt_Some. }
      apply (Hout i (n, v)); [|done].
      clear -Hi Hv. revert i vals Hi Hv.
      induction nodes as [|x xs IH]; intros [|i] [|y ys] Hi Hv; simpl in *;
        try done; [congruence | by apply IH].
Qed.

(** ** Smoothing *)

Lemma set_node_attributes_adj G values : adj (set_node_attributes G values) = adj G.
Proof.
  unfold set_node_attributes. revert G.
  induction values as [|[n v] rest IH]; intros G; simpl; [done|].
  rewrite IH. by destruct (dict_mem (node G) n).
Qed.

Lemma set_node_attributes_keys G values :
  dict_keys (node (set_node_attributes G values)) = dict_keys (node G).
Proof.
  unfold set_node_attributes. revert G.
  induction values as [|[n v] rest IH]; intros G; simpl; [done|].
  rewrite IH. destruct (dict_mem (node G) n) eqn:E; [|done].
  simpl. by rewrite dict_keys_set, E.
Qed.

(** A node that the staging map does not name keeps its value. *)
Lemma set_node_attributes_other G values n :
  n ∉ dict_keys values ->
  dict_get (node (set_node_attributes G values)) n = dict_get (node G) n.
Proof.
  unfold set_node_attributes. revert G.
  induction values as [|[m v] rest IH]; intros G; simpl; [done|].
  rewrite not_elem_of_cons. intros [Hne Hn]. rewrite IH by done.
  destruct (dict_mem (node G) m); [|done]. simpl.
  by apply dict_get_set_ne.
Qed.

(** A node of the graph that the staging map names gets the staged value. *)
Lemma set_node_attributes_staged G values n v :
  dict_wf values -> dict_get values n = Some v -> has_node G n = true ->
  dict_get (node (set_node_attributes G values)) n = Some (Some v).
Proof.
  unfold set_node_attributes, dict_wf. revert G.
  induction values as [|[m w] rest IH]; intros G; simpl; [done|].
  rewrite NoDup_cons. intros [Hm Hwf].
  destruct (Z.eqb_spec n m) as [->|Hne]; intros Hv Hn.
  - injection Hv as ->. unfold has_node in Hn. rewrite Hn.
    fold (set_node_attributes (mkGraph (dict_set (node G) m (Some v)) (adj G)) rest).
    rewrite set_node_attributes_other by done. simpl. apply dict_get_set_eq.
  - apply IH; [done..|]. destruct (dict_mem (node G) m); [|done].
    unfold has_node in *. simpl. by rewrite dict_mem_set, Hn, orb_true_r.
Qed.

Lemma staging_spec G k nodes staged staged' :
  dict_wf staged ->
  staging G k nodes staged = Ok staged' ->
  dict_wf staged' /\
  (forall n, n ∈ nodes ->
             exists mean, pass_mean G k n = Ok mean /\
                          dict_get staged' n = Some mean) /\
  (forall n, n ∉ nodes -> dict_get staged' n = dict_get staged n).
Proof.
  revert staged. induction nodes as [|m rest IH]; intros staged Hwf; simpl.
  - intros [= <-]. split_and!; [done| |done].
    intros n Hn. by apply elem_of_nil in Hn.
  - destruct (pass_mean G k m) as [mean|] eqn:Hm; simpl; [|done].
    intros H. destruct (IH _ (dict_wf_set _ m mean Hwf) H) as (Hwf' & Hin & Hout).
    split_and!; [done| |].
    + intros n [->|Hn]%elem_of_cons.
      * destruct (decide (m ∈ rest)) as [Hr|Hr]; [by apply Hin|].
        exists mean. split; [done|]. rewrite Hout by done. apply dict_get_set_eq.
      * by apply Hin.
    + intros n [Hne Hn]%not_elem_of_cons. rewrite Hout by done.
      by apply dict_get_set_ne.
Qed.

Lemma staging_ok G k nodes staged :
  forallb (neighbourhood_ok G k) nodes = true -> is_ok (staging G k nodes staged).
Proof.
  revert staged. induction nodes as [|m rest IH]; intros staged; simpl.
  - by eexists.
  - rewrite andb_true_iff. intros [Hm Hrest].
    unfold pass_mean, neighbourhood_ok in *.
    destruct (get_multi_neighbours_and_vals G (PyList [m]) k); [|done].
    simpl. by apply IH.
Qed.

(** What a batch pass leaves: the same nodes and edges; for a target node of
    the graph, the mean read from the graph before the pass; for any other
    node, the value it had. *)
Lemma batch_pass_spec G nodes k G' :
  batch_pass G nodes k = Ok G' ->
  adj G' = adj G /\
  dict_keys (node G') = dict_keys (node G) /\
  (forall n, n ∈ nodes -> has_node G n = true ->
             exists mean, pass_mean G k n = Ok mean /\
                          dict_get (node G') n = Some (Some mean)) /\
  (forall n, n ∉ nodes -> dict_get (node G') n = dict_get (node G) n).
Proof.
  unfold batch_pass.
  destruct (staging G k nodes []) as [staged|] eqn:Hs; simpl; [|done].
  intros [= <-].
  destruct (staging_spec G k nodes [] staged (NoDup_nil_2 : dict_wf []) Hs)
    as (Hwf & Hin & Hout).
  split_and!.
  - apply set_node_attributes_adj.
  - apply set_node_attributes_keys.
  - intros n Hn HG. destruct (Hin n Hn) as (mean & Hm & Hget).
    exists mean. split; [done|]. by apply set_node_attributes_staged.
  - intros n Hn. apply set_node_attributes_other.
    apply dict_get_None. by rewrite Hout.
Qed.

Lemma batch_pass_ok G nodes k :
  forallb (neighbourhood_ok G k) nodes = true -> is_ok (batch_pass G nodes k).
Proof.
  intros H. unfold batch_pass.
  destruct (staging_ok G k nodes [] H) as [staged ->]. simpl. by eexists.
Qed.

Lemma batch_pass_nil G k : batch_pass G [] k = Ok G.
Proof. done. Qed.



(** ** Copying a graph *)

Lemma dict_update_keys {V} (d l : dict V) k :
  k ∈ dict_keys (dict_update d l) <-> k ∈ dict_keys d \/ k ∈ l.*1.
Proof.
  unfold dict_update. revert d. induction l as [|[k' v'] l IH]; intros d; simpl.
  - rewrite elem_of_nil. tauto.
  - rewrite IH, dict_keys_set, elem_of_cons.
    destruct (dict_mem d k') eqn:E.
    + apply dict_mem_true in E. split; [tauto|].
      intros [?|[->|?]]; tauto.
    + rewrite elem_of_app, list_elem_of_singleton. tauto.
Qed.

Lemma dict_update_elem {V} (d l : dict V) k v :
  (k, v) ∈ dict_update d l -> (k, v) ∈ d \/ (k, v) ∈ l.
Proof.
  unfold dict_update. revert d. induction l as [|[k' v'] l IH]; intros d; simpl.
  - by left.
  - intros [H|H]%IH.
    + apply dict_elem_of_set in H as [[-> ->]|H]; [right|by left].
      apply elem_of_cons. by left.
    + right. apply elem_of_cons. by right.
Qed.

Lemma combine_Forall2_fst {A B} (P : A -> B -> Prop) ks vs :
  Forall2 P ks vs -> (combine ks vs).*1 = ks.
Proof. induction 1; simpl; [done|]. by f_equal. Qed.

Lemma combine_Forall2_elem {A B} (P : A -> B -> Prop) ks vs k v :
  Forall2 P ks vs -> (k, v) ∈ combine ks vs -> P k v.
Proof.
  induction 1 as [|k0 v0 ks vs HP _ IH]; simpl.
  - intros H. by apply elem_of_nil in H.
  - intros [[= -> ->]|H]%elem_of_cons; [done|by apply IH].
Qed.

Lemma neighbours_loop_spec G items acc acc' :
  neighbours_loop G items acc = Ok acc' ->
  exists vs, acc' = (acc.1 ++ dict_keys items, acc.2 ++ vs) /\
             Forall2 (bound_to G) (dict_keys items) vs.
Proof.
  revert acc. induction items as [|[nb []] rest IH]; intros acc; simpl.
  - intros [= <-]. exists []. rewrite !app_nil_r. by destruct acc.
  - unfold dict_item. destruct (dict_get (node G) nb) as [[v|]|] eqn:E;
      simpl; try done.
    intros (vs & -> & Hvs)%IH. exists (v :: vs). simpl.
    rewrite <- !app_assoc. split; [done|]. by constructor.
Qed.

Lemma nodes_loop_spec G nodes acc acc' :
  nodes_loop G nodes acc = Ok acc' ->
  exists ks vs,
    acc' = (acc.1 ++ ks, acc.2 ++ vs) /\
    Forall2 (bound_to G) ks vs /\
    forall k, k ∈ ks <-> exists n, n ∈ nodes /\ has_edge G n k = true.
Proof.
  revert acc. induction nodes as [|n rest IH]; intros acc; simpl.
  - intros [= <-]. exists [], []. rewrite !app_nil_r. split_and!.
    + by destruct acc.
    + constructor.
    + intros k. rewrite elem_of_nil. split; [done|].
      intros (? & H & _). by apply elem_of_nil in H.
  - unfold dict_item. destruct (dict_get (adj G) n) as [items|] eqn:En;
      simpl; [|done].
    destruct (neighbours_loop G items acc) as [acc1|] eqn:E1; simpl; [|done].
    apply neighbours_loop_spec in E1 as (vs1 & -> & H1).
    intros (ks & vs & -> & H2 & Hks)%IH. simpl.
    exists (dict_keys items ++ ks), (vs1 ++ vs). rewrite <- !app_assoc.
    split_and!; [done|by apply Forall2_app|].
    intros k. rewrite elem_of_app, Hks. split.
    + intros [Hk|(m & Hm & He)].
      * exists n. split; [apply elem_of_cons; by left|].
        apply has_edge_spec. by exists items.
      * exists m. split; [apply elem_of_cons; by right|done].
    + intros (m & [->|Hm]%elem_of_cons & He).
      * left. apply has_edge_spec in He as (nbrs & Hn & Hk). congruence.
      * right. by exists m.
Qed.

Lemma get_neighbours_and_vals_spec G l d :
  get_neighbours_and_vals G (PyList l) = Ok d ->
  dict_wf d /\
  (forall k, k ∈ dict_keys d <-> exists n, n ∈ l /\ has_edge G n k = true) /\
  (forall k v, (k, v) ∈ d -> bound_to G k v).
Proof.
  intros Hd. split; [by eapply get_neighbours_and_vals_wf|].
  unfold get_neighbours_and_vals in Hd. simpl in Hd.
  destruct (nodes_loop G l ([], [])) as [acc|] eqn:E; simpl in Hd; [|done].
  injection Hd as <-.
  apply nodes_loop_spec in E as (ks & vs & -> & HF & Hks). simpl.
  unfold dict_zip. split.
  - intros k. rewrite dict_update_keys, (combine_Forall2_fst _ _ _ HF), <- Hks.
    simpl. rewrite elem_of_nil. tauto.
  - intros k v [H|H]%dict_update_elem; [by apply elem_of_nil in H|].
    by eapply combine_Forall2_elem.
Qed.

Lemma add_node_known G n : has_node G n = true -> add_node G n = G.
Proof. unfold has_node, add_node. by intros ->. Qed.

Lemma add_edge_known G e :
  has_node G e.1 = true -> has_node G e.2 = true ->
  node (add_edge G e) = node G.
Proof.
  intros H1 H2. unfold add_edge. simpl.
  rewrite (add_node_known G e.1 H1). by rewrite (add_node_known G e.2 H2).
Qed.

Lemma add_edges_from_known ebunch G :
  (forall e, e ∈ ebunch -> has_node G e.1 = true /\ has_node G e.2 = true) ->
  node (add_edges_from G ebunch) = node G.
Proof.
  unfold add_edges_from. revert G.
  induction ebunch as [|e l IH]; intros G H; simpl; [done|].
  destruct (H e) as [H1 H2]; [apply elem_of_cons; by left|].
  rewrite IH.
  - by apply add_edge_known.
  - intros e' He'. unfold has_node. rewrite (add_edge_known G e H1 H2).
    apply H, elem_of_cons. by right.
Qed.

(** A networkx graph, in words of the lemmas above. *)
Lemma nx_graph_spec G :
  nx_graph G = true <->
  graph_wf G /\ forall u v, has_edge G u v = true -> has_edge G v u = true.
Proof.
  unfold nx_graph, graph_wf.
  rewrite !andb_true_iff, !bool_decide_eq_true, forallb_forall. split.
  - intros [[Hk Hn] Hadj]. split_and!; [done|done| |].
    + intros u nbrs Hu%dict_get_Some_elem%list_elem_of_In.
      by apply Hadj, andb_true_iff in Hu as [Hu%bool_decide_eq_true _].
    + intros u v (nbrs & Hu & Hv)%has_edge_spec.
      apply dict_get_Some_elem, list_elem_of_In, Hadj in Hu.
      apply andb_true_iff in Hu as [_ Hu]. rewrite forallb_forall in Hu.
      by apply Hu, list_elem_of_In.
  - intros [(Hk & Hn & Hwf) Hsym]. split_and!; [done|done|].
    intros [u nbrs] Hin%list_elem_of_In. simpl.
    assert (dict_get (adj G) u = Some nbrs) as Hu.
    { apply dict_wf_get; [|done]. unfold dict_wf. by rewrite Hk. }
    apply andb_true_iff. split.
    + apply bool_decide_eq_true. by eapply Hwf.
    + apply forallb_forall. intros v Hv%list_elem_of_In.
      apply Hsym, has_edge_spec. by exists nbrs.
Qed.

Lemma same_graph_refl G : same_graph G G.
Proof. by split_and!. Qed.

Lemma dict_set_last {V} (d : dict V) n x y :
  n ∉ dict_keys d -> dict_set (d ++ [(n, x)]) n y = d ++ [(n, y)].
Proof.
  induction d as [|[k v] d IH]; simpl.
  - intros _. by rewrite Z.eqb_refl.
  - rewrite not_elem_of_cons. intros [Hne Hn].
    destruct (Z.eqb_spec n k); [done|]. by rewrite IH.
Qed.

(** The first half of [G.copy()]: on fresh nodes listed once, the node
    dictionary is rebuilt as it was, each node with an empty adjacency. *)
Lemma copy_nodes_run (l : dict attrs) G0 :
  NoDup (dict_keys l) ->
  (forall n, n ∈ dict_keys l -> n ∉ dict_keys (node G0)) ->
  dict_keys (adj G0) = dict_keys (node G0) ->
  fold_left add_node_with l G0 =
  mkGraph (node G0 ++ l) (adj G0 ++ empty_adjacencies l).
Proof.
  revert G0. induction l as [|[n a] l IH]; intros G0 Hnd Hfresh Hk; simpl.
  - rewrite !app_nil_r. by destruct G0.
  - simpl in Hnd. apply NoDup_cons in Hnd as [Hn Hnd].
    assert (n ∉ dict_keys (node G0)) as HnG.
    { apply Hfresh. simpl. apply elem_of_cons. by left. }
    assert (add_node_with G0 (n, a) =
            mkGraph (node G0 ++ [(n, a)]) (adj G0 ++ [(n, [])])) as ->.
    { unfold add_node_with, add_node. simpl.
      rewrite (proj2 (dict_mem_false _ _) HnG).
      rewrite !dict_set_fresh by (done || by rewrite Hk).
      destruct a as [v|]; simpl; [|done]. by rewrite dict_set_last. }
    rewrite IH; simpl.
    + by rewrite <- !app_assoc.
    + done.
    + intros x Hx. unfold dict_keys. rewrite map_app, elem_of_app. simpl.
      rewrite list_elem_of_singleton. intros [Hin| ->]; [|done].
      revert Hin. apply Hfresh. simpl. apply elem_of_cons. by right.
    + unfold dict_keys in *. rewrite !map_app. simpl. by rewrite Hk.
Qed.

Lemma elem_of_edge_list G x y :
  (x, y) ∈ edge_list G <->
  exists nbrs, (x, nbrs) ∈ adj G /\ y ∈ dict_keys nbrs.
Proof.
  unfold edge_list. rewrite list_elem_of_In, in_flat_map. split.
  - intros ([u nbrs] & Hin%list_elem_of_In & Hxy). simpl in Hxy.
    apply in_map_iff in Hxy as (v & [= <- <-] & Hv%list_elem_of_In).
    by exists nbrs.
  - intros (nbrs & Hin%list_elem_of_In & Hy%list_elem_of_In).
    exists (x, nbrs). split; [done|]. simpl. apply in_map_iff. by exists y.
Qed.

Lemma edge_list_has_edge G x y :
  graph_wf G -> (x, y) ∈ edge_list G <-> has_edge G x y = true.
Proof.
  intros (Hk & Hn & _). rewrite elem_of_edge_list, has_edge_spec.
  split; intros (nbrs & Hx & Hy); exists nbrs; (split; [|done]).
  - apply dict_wf_get; [|done]. unfold dict_wf. by rewrite Hk.
  - by apply dict_get_Some_elem.
Qed.

Lemma bare_nodes_no_edge (l : dict attrs) u v :
  has_edge (mkGraph l (empty_adjacencies l)) u v = false.
Proof.
  unfold has_edge. simpl.
  destruct (dict_get (empty_adjacencies l) u) as [nbrs|] eqn:E;
    [|done].
  unfold empty_adjacencies in E. apply dict_get_Some_elem, list_elem_of_In, in_map_iff in E
    as (e & [= _ <-] & _). done.
Qed.

Lemma bare_nodes_wf (l : dict attrs) :
  NoDup (dict_keys l) -> graph_wf (mkGraph l (empty_adjacencies l)).
Proof.
  intros Hnd. split_and!; simpl.
  - unfold dict_keys, empty_adjacencies. by rewrite map_map.
  - done.
  - intros u nbrs E. unfold empty_adjacencies in E.
    apply dict_get_Some_elem, list_elem_of_In, in_map_iff in E
      as (e & [= _ <-] & _). apply NoDup_nil_2.
Qed.

(** [G.copy()] of a networkx graph: the same node dictionary, the same keys
    of the adjacency, the same edges; and again a networkx graph. *)
Lemma graph_copy_same G :
  nx_graph G = true ->
  same_graph G (graph_copy G) /\ nx_graph (graph_copy G) = true.
Proof.
  intros [Hwf Hsym]%nx_graph_spec.
  pose proof Hwf as (Hk & Hn & Hadj).
  unfold graph_copy.
  rewrite (copy_nodes_run (node G) empty_graph); simpl; [|done| |done].
  2:{ intros n _. apply not_elem_of_nil. }
  set (G1 := mkGraph (node G) (empty_adjacencies (node G))).
  pose proof (bare_nodes_wf (node G) Hn) as Hwf1. fold G1 in Hwf1.
  destruct (add_edges_from_spec (edge_list G) G1 Hwf1) as (Hwf' & Hnode' & Hedge').
  set (G' := add_edges_from G1 (edge_list G)) in *.
  assert (forall e, e ∈ edge_list G ->
                    has_node G1 e.1 = true /\ has_node G1 e.2 = true) as Hends.
  { intros [x y] Hxy. simpl.
    pose proof Hxy as Hxy'%(edge_list_has_edge G x y Hwf).
    pose proof (Hsym x y Hxy') as Hyx.
    apply has_edge_spec in Hxy' as (n1 & H1 & _).
    apply has_edge_spec in Hyx as (n2 & H2 & _).
    split; apply has_node_spec; simpl; rewrite <- Hk;
      apply dict_get_is_Some; by eexists. }
  assert (node G' = node G) as HnodeG.
  { unfold G'. by rewrite add_edges_from_known. }
  assert (forall u v, has_edge G' u v = has_edge G u v) as HedgeG.
  { intros u v. apply eq_true_iff_eq. rewrite Hedge'.
    unfold G1 at 1. rewrite bare_nodes_no_edge.
    rewrite !(edge_list_has_edge G) by done. split.
    - intros [?|[?|?]]; [done|done|by apply Hsym].
    - intros ?. right. by left. }
  assert (same_graph G G') as Hsame.
  { split_and!; [done| |done].
    destruct Hwf' as (Hk' & _). by rewrite Hk', HnodeG, Hk. }
  split; [done|].
  apply nx_graph_spec. split; [done|].
  intros u v. rewrite !HedgeG. apply Hsym.
Qed.

(** More than zero rounds: the multi-hop query is the 1-hop query. *)
Lemma get_multi_positive G nodes k :
  1 <= k ->
  get_multi_neighbours_and_vals G nodes k = get_neighbours_and_vals G nodes.
Proof.
  intros Hk. unfold get_multi_neighbours_and_vals, range_len.
  destruct (Z.to_nat k) as [|its] eqn:E; [lia|].
  destruct (get_neighbours_and_vals G nodes) as [d|e] eqn:Hd.
  - simpl. rewrite Hd. simpl.
    rewrite dict_update_nil by (by eapply get_neighbours_and_vals_wf).
    by apply multi_loop_fixed.
  - by apply multi_loop_raise.
Qed.

Lemma get_multi_nonpositive G nodes k :
  k <= 0 -> get_multi_neighbours_and_vals G nodes k = Ok [].
Proof.
  intros Hk. unfold get_multi_neighbours_and_vals, range_len.
  by rewrite Z2Nat.nonpos.
Qed.

(** Two graphs with the same nodes, attributes and edges answer a query on
    one node with the same entries (the order may differ). *)
Lemma same_graph_query G G' n d :
  same_graph G G' ->
  get_neighbours_and_vals G (PyList [n]) = Ok d ->
  exists d', get_neighbours_and_vals G' (PyList [n]) = Ok d' /\
             forall k v, (k, v) ∈ d' <-> (k, v) ∈ d.
Proof.
  intros (Hnode & Hkeys & Hedge) Hd.
  destruct (get_neighbours_and_vals_spec G [n] d Hd) as (Hwf & Hk & Hv).
  assert (is_Some (dict_get (adj G') n)) as [items' Hitems'].
  { apply dict_get_is_Some. rewrite Hkeys. apply dict_get_is_Some.
    unfold get_neighbours_and_vals in Hd. simpl in Hd.
    unfold dict_item in Hd. by destruct (dict_get (adj G) n). }
  assert (forall k, k ∈ dict_keys items' -> exists v, (k, v) ∈ d) as Hitems.
  { intros k Hin.
    assert (k ∈ dict_keys d) as [v Hkv]%dict_get_is_Some.
    { apply Hk. exists n. split; [by apply list_elem_of_singleton|].
      rewrite <- Hedge. apply has_edge_spec. by exists items'. }
    exists v. by apply dict_get_Some_elem. }
  destruct (neighbours_loop_ok G' items' ([], [])) as [acc Hacc].
  { apply forallb_forall. intros k Hin%list_elem_of_In.
    destruct (Hitems k Hin) as [v Hkv%Hv].
    unfold has_value, bound_to in *. by rewrite Hnode, Hkv. }
  assert (get_neighbours_and_vals G' (PyList [n]) = Ok (dict_zip acc.1 acc.2))
    as Hd'.
  { unfold get_neighbours_and_vals. simpl. unfold dict_item.
    rewrite Hitems'. simpl. by rewrite Hacc. }
  eexists. split; [done|].
  destruct (get_neighbours_and_vals_spec G' [n] _ Hd') as (Hwf' & Hk' & Hv').
  intros k v. split.
  - intros Hin. pose proof (Hv' k v Hin) as Hb.
    assert (k ∈ dict_keys d) as [v0 Hkv0]%dict_get_is_Some.
    { apply Hk. setoid_rewrite <- Hedge. apply Hk'.
      apply list_elem_of_fmap. by exists (k, v). }
    apply dict_get_Some_elem in Hkv0. pose proof (Hv k v0 Hkv0) as Hb0.
    unfold bound_to in *. rewrite Hnode in Hb. congruence.
  - intros Hin. pose proof (Hv k v Hin) as Hb.
    assert (k ∈ dict_keys (dict_zip acc.1 acc.2))
      as [v0 Hkv0]%dict_get_is_Some.
    { apply Hk'. setoid_rewrite Hedge. apply Hk.
      apply list_elem_of_fmap. by exists (k, v). }
    apply dict_get_Some_elem in Hkv0. pose proof (Hv' k v0 Hkv0) as Hb0.
    unfold bound_to in *. rewrite Hnode in Hb0. congruence.
Qed.

Lemma same_graph_multi G G' n k d :
  same_graph G G' ->
  get_multi_neighbours_and_vals G (PyList [n]) k = Ok d ->
  exists d', get_multi_neighbours_and_vals G' (PyList [n]) k = Ok d' /\
             forall x v, (x, v) ∈ d' <-> (x, v) ∈ d.
Proof.
  intros Hsame. destruct (Z_le_gt_dec k 0) as [Hk|Hk].
  - rewrite !get_multi_nonpositive by done. intros [= <-]. by exists [].
  - rewrite !get_multi_positive by lia. by apply same_graph_query.
Qed.

Lemma same_graph_neighbourhood G G' k n :
  same_graph G G' ->
  neighbourhood_ok G k n = true ->
  neighbourhood_ok G' k n = true /\
  (all_missing G k n = true -> all_missing G' k n = true).
Proof.
  intros Hsame. unfold neighbourhood_ok, all_missing.
  destruct (get_multi_neighbours_and_vals G (PyList [n]) k) as [d|] eqn:Hd;
    [|done].
  destruct (same_graph_multi G G' n k d Hsame Hd) as (d' & -> & Hent).
  intros _. split; [done|].
  rewrite !forallb_forall. intros Hnan v Hv.
  apply list_elem_of_In, list_elem_of_fmap in Hv as ([x v'] & -> & Hin).
  apply Hnan, list_elem_of_In, list_elem_of_fmap.
  exists (x, v'). split; [done|]. by apply Hent.
Qed.

(** ** The order of neighbours in a copy *)

Lemma unit_dict_eq (d d' : dict unit) : dict_keys d = dict_keys d' -> d = d'.
Proof.
  revert d'. induction d as [|[k []] d IH]; intros [|[k' []] d']; simpl;
    try done.
  intros [= -> H]. f_equal. by apply IH.
Qed.

Lemma dict_ext {V} (a b : dict V) :
  dict_keys a = dict_keys b -> NoDup (dict_keys a) ->
  (forall k, k ∈ dict_keys a -> dict_get a k = dict_get b k) -> a = b.
Proof.
  revert b. induction a as [|[k v] a IH]; intros [|[k' v'] b]; simpl;
    try done.
  intros [= <- Hk] [Hn Hnd]%NoDup_cons Hget.
  pose proof (Hget k) as Hhead. rewrite Z.eqb_refl in Hhead.
  assert (v = v') as <-.
  { assert (Some v = Some v') as [= ->]; [|done].
    apply Hhead, elem_of_cons. by left. }
  f_equal. apply IH; [done|done|].
  intros k0 Hk0. specialize (Hget k0).
  assert (k0 <> k) as Hne%Z.eqb_neq by (by intros ->).
  rewrite Hne in Hget. apply Hget, elem_of_cons. by right.
Qed.

Lemma graph_eta (G G' : Graph) : node G' = node G -> adj G' = adj G -> G' = G.
Proof. destruct G, G'. simpl. by intros -> ->. Qed.

Lemma filter_ext_elem {A} (P1 P2 : A -> Prop)
    `{!forall x, Decision (P1 x), !forall x, Decision (P2 x)} (l : list A) :
  (forall x, x ∈ l -> P1 x <-> P2 x) -> filter P1 l = filter P2 l.
Proof.
  induction l as [|a l IH]; intros Hext; [done|].
  assert (filter P1 l = filter P2 l) as IH'.
  { apply IH. intros x Hx. apply Hext, elem_of_cons. by right. }
  assert (P1 a <-> P2 a) as Ha by (apply Hext, elem_of_cons; by left).
  destruct (decide (P1 a)) as [H1|H1].
  - rewrite !filter_cons_True by tauto. by rewrite IH'.
  - rewrite !filter_cons_False by tauto. done.
Qed.

Lemma filter_all {A} (P : A -> Prop) `{!forall x, Decision (P x)} (l : list A) :
  (forall x, x ∈ l -> P x) -> filter P l = l.
Proof.
  induction l as [|a l IH]; intros Hall; [done|].
  rewrite filter_cons_True by (apply Hall, elem_of_cons; by left).
  f_equal. apply IH. intros x Hx. apply Hall, elem_of_cons. by right.
Qed.

Lemma filter_none {A} (P : A -> Prop) `{!forall x, Decision (P x)} (l : list A) :
  (forall x, x ∈ l -> ~ P x) -> filter P l = [].
Proof.
  induction l as [|a l IH]; intros Hall; [done|].
  rewrite filter_cons_False by (apply Hall, elem_of_cons; by left).
  apply IH. intros x Hx. apply Hall, elem_of_cons. by right.
Qed.

Lemma dict_keys_set_unit (d : dict unit) v :
  dict_keys (dict_set d v tt) = keys_add (dict_keys d) v.
Proof.
  rewrite dict_keys_set. unfold keys_add.
  destruct (dict_mem d v) eqn:E.
  - apply dict_mem_true in E. by rewrite decide_True.
  - apply dict_mem_false in E. by rewrite decide_False.
Qed.

Lemma keys_add_known l x : x ∈ l -> keys_add l x = l.
Proof. intros H. unfold keys_add. by rewrite decide_True. Qed.

Lemma keys_add_idem l x : keys_add (keys_add l x) x = keys_add l x.
Proof.
  apply keys_add_known. unfold keys_add. case_decide; [done|].
  apply elem_of_app. right. by apply list_elem_of_singleton.
Qed.

Lemma fold_keys_add_NoDup evs l :
  NoDup evs ->
  fold_left keys_add evs l = l ++ filter (fun v => v ∉ l) evs.
Proof.
  revert l. induction evs as [|e evs IH]; intros l Hnd; simpl.
  - by rewrite app_nil_r.
  - apply NoDup_cons in Hnd as [He Hnd]. rewrite IH by done.
    unfold keys_add. case_decide as Hin.
    + rewrite filter_cons_False; [done|]. by intros ?.
    + rewrite filter_cons_True by done. rewrite <- app_assoc. simpl.
      do 2 f_equal. apply filter_ext_elem. intros x Hx.
      rewrite elem_of_app, list_elem_of_singleton.
      split; [tauto|]. intros Hl [?| ->]; done.
Qed.

Lemma fold_keys_add_nil evs : NoDup evs -> fold_left keys_add evs [] = evs.
Proof.
  intros Hnd. rewrite fold_keys_add_NoDup by done. simpl.
  apply filter_all. intros x _. apply not_elem_of_nil.
Qed.

Lemma handed_app x es1 es2 :
  handed x (es1 ++ es2) = handed x es1 ++ handed x es2.
Proof. unfold handed. by rewrite flat_map_app. Qed.

Lemma handed_own x ks l :
  fold_left keys_add (handed x (map (pair x) ks)) l = fold_left keys_add ks l.
Proof.
  revert l. induction ks as [|v ks IH]; intros l; [done|].
  cbn [map handed flat_map fst snd]. rewrite decide_True by done.
  rewrite !fold_left_app. cbn [fold_left].
  case_decide as Hv; cbn [fold_left].
  - subst v. rewrite keys_add_idem. apply IH.
  - apply IH.
Qed.

Lemma handed_other x u ks l :
  u <> x ->
  fold_left keys_add (handed x (map (pair u) ks)) l =
  if decide (x ∈ ks) then keys_add l u else l.
Proof.
  intros Hu. revert l. induction ks as [|v ks IH]; intros l.
  - cbn. by rewrite decide_False by apply not_elem_of_nil.
  - cbn [map handed flat_map fst snd]. rewrite decide_False by done.
    rewrite !fold_left_app. cbn [fold_left app].
    fold (handed x (map (pair u) ks)). rewrite IH.
    destruct (decide (v = x)) as [->|Hv]; cbn [fold_left].
    + rewrite keys_add_idem. rewrite (decide_True (P := x ∈ x :: ks));
        [by case_decide|]. apply elem_of_cons. by left.
    + destruct (decide (x ∈ ks)) as [Hin|Hin].
      * rewrite decide_True; [done|]. apply elem_of_cons. by right.
      * rewrite decide_False; [done|]. rewrite not_elem_of_cons. by split.
Qed.

Lemma handed_edge_list x (a : dict (dict unit)) l :
  fold_left keys_add
    (handed x (flat_map (fun entry => map (pair entry.1) (dict_keys entry.2)) a))
    l =
  fold_left (handed_by x) a l.
Proof.
  revert l. induction a as [|[u nbrs] a IH]; intros l; [done|].
  cbn [flat_map fold_left fst snd]. rewrite handed_app, fold_left_app, IH.
  f_equal. unfold handed_by. cbn [fst snd].
  destruct (decide (u = x)) as [->|Hu].
  - apply handed_own.
  - rewrite handed_other by done. destruct (dict_mem nbrs x) eqn:E.
    + apply dict_mem_true in E. by rewrite decide_True.
    + apply dict_mem_false in E. by rewrite decide_False.
Qed.

(** The adjacency of [x] after [add_edges_from], on a graph that has the
    ends of every edge as nodes. *)
Lemma add_edges_from_handed ebunch G x nb :
  (forall e, e ∈ ebunch -> has_node G e.1 = true /\ has_node G e.2 = true) ->
  dict_get (adj G) x = Some nb ->
  exists nb',
    dict_get (adj (add_edges_from G ebunch)) x = Some nb' /\
    dict_keys nb' = fold_left keys_add (handed x ebunch) (dict_keys nb).
Proof.
  unfold add_edges_from. revert G nb.
  induction ebunch as [|[u v] l IH]; intros G nb H Hx.
  - by exists nb.
  - destruct (H (u, v)) as [H1 H2]; [apply elem_of_cons; by left|].
    simpl in H1, H2.
    cbn [fold_left handed flat_map fst snd]. rewrite fold_left_app.
    assert (exists nb1,
      dict_get (adj (add_edge G (u, v))) x = Some nb1 /\
      dict_keys nb1 =
        fold_left keys_add
          ((if decide (u = x) then [v] else []) ++
           (if decide (v = x) then [u] else [])) (dict_keys nb))
      as (nb1 & Hnb1 & Hkeys1).
    { unfold add_edge. cbn [fst snd adj].
      rewrite (add_node_known G u H1), (add_node_known G v H2).
      rewrite !dict_get_adj_set. rewrite fold_left_app.
      destruct (decide (u = x)) as [->|Hu], (decide (v = x)) as [->|Hv];
        cbn [fold_left].
      - rewrite !decide_True by done. rewrite Hx. simpl.
        eexists. split; [done|]. by rewrite !dict_keys_set_unit.
      - rewrite decide_False by done. rewrite decide_True by done.
        rewrite Hx. simpl. eexists. split; [done|].
        by rewrite dict_keys_set_unit.
      - rewrite decide_True by done. rewrite decide_False by done.
        rewrite Hx. simpl. eexists. split; [done|].
        by rewrite dict_keys_set_unit.
      - rewrite !decide_False by done. by exists nb. }
    destruct (IH (add_edge G (u, v)) nb1) as (nb' & Hnb' & Hkeys'); [|done|].
    + intros e He. unfold has_node.
      rewrite (add_edge_known G (u, v) H1 H2). apply H, elem_of_cons. by right.
    + exists nb'. split; [done|]. by rewrite Hkeys', Hkeys1.
Qed.

Lemma handed_by_before G x (a1 : dict (dict unit)) l :
  (forall e, e ∈ a1 -> dict_get (adj G) e.1 = Some e.2) ->
  x ∉ dict_keys a1 ->
  fold_left (handed_by x) a1 l =
  fold_left keys_add (filter (fun u => has_edge G u x = true) (dict_keys a1)) l.
Proof.
  revert l. induction a1 as [|[u nbrs] a1 IH]; intros l Hget Hx; [done|].
  simpl in Hx. apply not_elem_of_cons in Hx as [Hne Hx].
  assert (has_edge G u x = dict_mem nbrs x) as Hedge.
  { assert (dict_get (adj G) u = Some nbrs) as Hu.
    { apply (Hget (u, nbrs)), elem_of_cons. by left. }
    unfold has_edge. by rewrite Hu. }
  cbn [fold_left dict_keys map fst]. unfold handed_by at 2. cbn [fst snd].
  rewrite decide_False by done.
  rewrite IH; [|intros e He; apply Hget, elem_of_cons; by right|done].
  destruct (dict_mem nbrs x) eqn:E.
  - rewrite filter_cons_True by done. done.
  - rewrite filter_cons_False; [done|]. rewrite Hedge. done.
Qed.

Lemma handed_by_after x (a2 : dict (dict unit)) l :
  (forall e, e ∈ a2 -> e.1 <> x /\ (dict_mem e.2 x = true -> e.1 ∈ l)) ->
  fold_left (handed_by x) a2 l = l.
Proof.
  induction a2 as [|[u nbrs] a2 IH]; intros H; [done|].
  destruct (H (u, nbrs)) as [Hne Hin]; [apply elem_of_cons; by left|].
  simpl in Hne, Hin. cbn [fold_left]. unfold handed_by at 2. cbn [fst snd].
  rewrite decide_False by done.
  destruct (dict_mem nbrs x).
  - rewrite keys_add_known by auto. apply IH.
    intros e He. apply H, elem_of_cons. by right.
  - apply IH. intros e He. apply H, elem_of_cons. by right.
Qed.

Lemma empty_adjacencies_get (l : dict attrs) x :
  x ∈ dict_keys l -> dict_get (empty_adjacencies l) x = Some [].
Proof.
  induction l as [|[k a] l IH]; simpl.
  - intros H. by apply elem_of_nil in H.
  - intros [->|H]%elem_of_cons.
    + by rewrite Z.eqb_refl.
    + destruct (Z.eqb_spec x k); [done|]. by apply IH.
Qed.

(** The order in which [G.copy()] lists the neighbours of [x]: first those
    that stand before [x] among the nodes, in the order of the nodes; then
    the others, in the order the input had them. *)
Lemma graph_copy_adj G x pre post nb :
  nx_graph G = true ->
  dict_keys (adj G) = pre ++ x :: post ->
  dict_get (adj G) x = Some nb ->
  exists nb',
    dict_get (adj (graph_copy G)) x = Some nb' /\
    dict_keys nb' = filter (fun u => has_edge G u x = true) pre ++
                    filter (fun v => v ∉ pre) (dict_keys nb).
Proof.
  intros [Hwf Hsym]%nx_graph_spec Hsplit Hx.
  pose proof Hwf as (Hk & Hn & Hadj).
  assert (NoDup (pre ++ x :: post)) as Hnd.
  { rewrite <- Hsplit, Hk. apply Hn. }
  apply NoDup_app in Hnd as (Hpre & Hdisj & [Hxpost Hpost]%NoDup_cons).
  assert (x ∉ pre) as Hxpre.
  { intros Hin. apply (Hdisj x Hin), elem_of_cons. by left. }
  unfold graph_copy.
  rewrite (copy_nodes_run (node G) empty_graph); simpl; [|done| |done].
  2:{ intros n _. apply not_elem_of_nil. }
  set (G1 := mkGraph (node G) (empty_adjacencies (node G))).
  assert (forall e, e ∈ edge_list G ->
                    has_node G1 e.1 = true /\ has_node G1 e.2 = true) as Hends.
  { intros [a b] Hab. simpl.
    pose proof Hab as Hab'%(edge_list_has_edge G a b Hwf).
    pose proof (Hsym a b Hab') as Hba.
    apply has_edge_spec in Hab' as (n1 & H1 & _).
    apply has_edge_spec in Hba as (n2 & H2 & _).
    split; apply has_node_spec; simpl; rewrite <- Hk;
      apply dict_get_is_Some; by eexists. }
  destruct (add_edges_from_handed (edge_list G) G1 x [] Hends)
    as (nb' & Hnb' & Hkeys').
  { simpl. apply empty_adjacencies_get. rewrite <- Hk, Hsplit.
    apply elem_of_app. right. apply elem_of_cons. by left. }
  exists nb'. split; [done|]. rewrite Hkeys'. simpl.
  unfold edge_list. rewrite handed_edge_list.
  unfold dict_keys in Hsplit.
  apply fmap_app_inv in Hsplit as (a1 & rest & -> & Hrest & Ha).
  symmetry in Hrest. apply fmap_cons_inv in Hrest as ([x' nbx] & a2 & Hx' & -> & ->).
  simpl in Hx'. subst x'.
  assert (forall e, e ∈ adj G -> dict_get (adj G) e.1 = Some e.2) as Hentry.
  { intros [u nbrs] He. apply dict_wf_get; [|done]. unfold dict_wf.
    by rewrite Hk. }
  assert (nbx = nb) as ->.
  { assert (Some nbx = Some nb) as [= ->]; [|done].
    rewrite <- Hx. symmetry. apply (Hentry (x, nbx)). rewrite Ha.
    apply elem_of_app. right. apply elem_of_cons. by left. }
  rewrite Ha, fold_left_app. cbn [fold_left].
  rewrite (handed_by_before G x a1 []).
  2:{ intros e He. apply Hentry. rewrite Ha. apply elem_of_app. by left. }
  2:{ done. }
  change (dict_keys a1) with (fst <$> a1).
  set (A := filter (fun u => has_edge G u x = true) (fst <$> a1)).
  rewrite fold_keys_add_nil by (by apply NoDup_filter).
  unfold handed_by at 2. cbn [fst snd]. rewrite decide_True by done.
  rewrite fold_keys_add_NoDup by (by eapply Hadj).
  assert (filter (fun v => v ∉ A) (dict_keys nb) =
          filter (fun v => v ∉ fst <$> a1) (dict_keys nb)) as ->.
  { apply filter_ext_elem. intros v Hv.
    assert (has_edge G v x = true) as Hvx.
    { apply Hsym, has_edge_spec. by exists nb. }
    unfold A. rewrite list_elem_of_filter. tauto. }
  apply handed_by_after. intros [u nbrs] He. simpl.
  assert (u ∈ fst <$> a2) as Hu.
  { apply list_elem_of_fmap. by exists (u, nbrs). }
  split; [by intros ->|].
  intros Hmem. apply elem_of_app. right. apply list_elem_of_filter. split.
  - intros Hin. apply (Hdisj u Hin), elem_of_cons. by right.
  - assert (has_edge G x u = true) as (nb0 & Hnb0 & Hin)%has_edge_spec.
    { assert (dict_get (adj G) u = Some nbrs) as Hget.
      { apply (Hentry (u, nbrs)). rewrite Ha. apply elem_of_app. right.
        apply elem_of_cons. by right. }
      apply Hsym. unfold has_edge. by rewrite Hget. }
    congruence.
Qed.

Lemma has_edge_adj G G' u v :
  adj G' = adj G -> has_edge G' u v = has_edge G u v.
Proof. unfold has_edge. by intros ->. Qed.

(** A graph with the adjacency of a copy is copied as it is: [G.copy()]
    changes the order of neighbours once only. *)
Lemma graph_copy_of_copy G G1 :
  nx_graph G = true ->
  adj G1 = adj (graph_copy G) ->
  dict_keys (node G1) = dict_keys (node G) ->
  graph_copy G1 = G1.
Proof.
  intros Hnx Hadj1 Hkeys1.
  destruct (graph_copy_same G Hnx) as [(HnodeC & HkeysC & HedgeC) HnxC].
  pose proof Hnx as [(Hk & Hn & Hwf) Hsym]%nx_graph_spec.
  pose proof HnxC as [(HkC & HnC & HwfC) HsymC]%nx_graph_spec.
  assert (forall u v, has_edge G1 u v = has_edge G u v) as Hedge1.
  { intros u v. by rewrite (has_edge_adj _ _ u v Hadj1). }
  assert (nx_graph G1 = true) as Hnx1.
  { apply nx_graph_spec. split; [split_and!|].
    - by rewrite Hadj1, HkeysC, Hk.
    - unfold dict_wf. rewrite Hkeys1. apply Hn.
    - rewrite Hadj1. apply HwfC.
    - intros u v. rewrite !Hedge1. apply Hsym. }
  destruct (graph_copy_same G1 Hnx1) as [(Hnode' & Hkeys' & Hedge') _].
  apply graph_eta; [done|].
  apply dict_ext; [done| |].
  { rewrite Hkeys', Hadj1, HkC, HnodeC. apply Hn. }
  intros k Hin. rewrite Hkeys', Hadj1, HkeysC in Hin.
  pose proof Hin as (pre & post & Hsplit)%list_elem_of_split.
  pose proof Hin as [nb0 Hnb0]%dict_get_is_Some.
  destruct (graph_copy_adj G k pre post nb0 Hnx Hsplit Hnb0)
    as (nbC & HnbC & HkeysnbC).
  rewrite <- Hadj1 in HnbC.
  destruct (graph_copy_adj G1 k pre post nbC Hnx1) as (nb' & Hnb' & Hkeysnb');
    [by rewrite Hadj1, HkeysC|done|].
  rewrite Hnb', HnbC. f_equal. apply unit_dict_eq.
  rewrite Hkeysnb', HkeysnbC.
  rewrite (list_filter_iff (fun u => has_edge G1 u k = true)
             (fun u => has_edge G u k = true)) by (intros u; by rewrite Hedge1).
  f_equal. rewrite filter_app. rewrite (filter_none (fun v => v ∉ pre)).
  - simpl. apply filter_all. by intros v [Hv _]%list_elem_of_filter.
  - intros v [_ Hv]%list_elem_of_filter. tauto.
Qed.

(** ** The store: what the mutating functions read and write *)

Lemma store_eta s : mkStore (lists s) (graphs s) = s.
Proof. by destruct s. Qed.

Lemma fresh_graph_ref s : graphs s !! fresh (dom (graphs s)) = None.
Proof. apply not_elem_of_dom, is_fresh. Qed.

(** The loop over the nodes of a pass reads the graph and writes nothing:
    it computes the staging map of the graph that the pass started from. *)
Lemma smooth_nodes_loop_reads s g_smooth G nodes k staged :
  graphs s !! g_smooth = Some G ->
  smooth_nodes_loop g_smooth nodes k staged s = (staging G k nodes staged, s).
Proof.
  intros HG. revert staged. induction nodes as [|n rest IH]; intros staged.
  - done.
  - simpl. unfold mbind, M_bind, read_graph, lift, pass_mean. rewrite HG.
    destruct (get_multi_neighbours_and_vals G (PyList [n]) k) as [out|e];
      simpl; [apply IH | done].
Qed.

Lemma smooth_pass_batch s g_smooth G nodes k :
  graphs s !! g_smooth = Some G ->
  smooth_pass g_smooth nodes k s =
  match batch_pass G nodes k with
  | Ok G' => (Ok tt, mkStore (lists s) (<[g_smooth := G']> (graphs s)))
  | Raise e => (Raise e, s)
  end.
Proof.
  intros HG. unfold smooth_pass, batch_pass, mbind at 1, M_bind.
  rewrite (smooth_nodes_loop_reads s g_smooth G) by done.
  destruct (staging G k nodes []) as [staged|e]; simpl; [|done].
  unfold mbind, M_bind, read_graph. by rewrite HG.
Qed.

Lemma smooth_its_loop_batch s g_smooth G nodes k its :
  graphs s !! g_smooth = Some G ->
  smooth_its_loop g_smooth nodes k its s =
  ((batch_passes G nodes k its).1,
   mkStore (lists s) (<[g_smooth := (batch_passes G nodes k its).2]> (graphs s))).
Proof.
  revert s G. induction its as [|its IH]; intros s G HG; simpl.
  - rewrite insert_id by done. by rewrite store_eta.
  - unfold mbind, M_bind. rewrite (smooth_pass_batch s g_smooth G) by done.
    destruct (batch_pass G nodes k) as [G'|e]; simpl.
    + rewrite (IH _ G') by (simpl; apply lookup_insert_eq).
      simpl. by rewrite insert_insert_eq.
    + rewrite insert_id by done. by rewrite store_eta.
Qed.

(** A run of [smooth_graph]: the copy is a new object, the passes are batch
    passes over the copy, and the store gains that one graph. *)
Lemma smooth_graph_run s g G nodes n_its k :
  graphs s !! g = Some G ->
  smooth_graph g nodes n_its k s =
  (match (batch_passes (graph_copy G) (smooth_targets G nodes) k
            (range_len n_its)).1 with
   | Ok _ => Ok (fresh (dom (graphs s)))
   | Raise e => Raise e
   end,
   with_copy s (batch_passes (graph_copy G) (smooth_targets G nodes) k
                  (range_len n_its)).2).
Proof.
  intros HG. unfold smooth_graph, mbind, M_bind, read_graph, copy_graph.
  rewrite HG. fold (smooth_targets G nodes). cbv beta iota zeta.
  rewrite HG. set (g' := fresh (dom (graphs s))). cbv beta iota zeta.
  rewrite (smooth_its_loop_batch _ g' (graph_copy G))
    by (simpl; apply lookup_insert_eq).
  simpl. unfold with_copy. fold g'. rewrite insert_insert_eq.
  by destruct (batch_passes (graph_copy G) (smooth_targets G nodes) k
                 (range_len n_its)).1.
Qed.

Lemma with_copy_frame s G' :
  lists (with_copy s G') = lists s /\
  graphs (with_copy s G') !! fresh (dom (graphs s)) = Some G' /\
  forall r, is_Some (graphs s !! r) ->
            r <> fresh (dom (graphs s)) /\
            graphs (with_copy s G') !! r = graphs s !! r.
Proof.
  unfold with_copy. simpl. split_and!; [done|apply lookup_insert_eq|].
  intros r Hr.
  assert (r <> fresh (dom (graphs s))) as Hne.
  { intros ->. rewrite fresh_graph_ref in Hr. by destruct Hr. }
  split; [done|]. by rewrite lookup_insert_ne.
Qed.

(** C7. A run of [smooth_graph] on the graph at [g] is a run of batch passes
    on a copy of it: the first pass reads the copy, every later pass reads
    the graph that the pass before it left, and within a pass every mean is
    read from that one graph and the staged values are applied together
    afterwards ([batch_pass]; a target node gets the mean of the
    neighbourhood as it was before the pass).  The graph that is returned is
    a new object of the store, built by [G.copy()]: for a networkx graph it
    has the nodes, the attributes and the edges of the input.  The input
    graph and every other object are as they were. *)
Theorem smooth_graph_batch (s : store) (g : ref) (G : Graph)
    (nodes : pynodes) (n_its k : Z) :
  graphs s !! g = Some G ->
  let targets := smooth_targets G nodes in
  let r := batch_passes (graph_copy G) targets k (range_len n_its) in
  let g' := fresh (dom (graphs s)) in
  smooth_graph g nodes n_its k s =
    (match r.1 with Ok _ => Ok g' | Raise e => Raise e end, with_copy s r.2) /\
  (forall G0 G1, batch_pass G0 targets k = Ok G1 ->
     adj G1 = adj G0 /\
     (forall n, n ∈ targets -> has_node G0 n = true ->
        exists out,
          get_multi_neighbours_and_vals G0 (PyList [n]) k = Ok out /\
          dict_get (node G1) n = Some (Some (nanmean (dict_values out)))) /\
     (forall n, n ∉ targets -> dict_get (node G1) n = dict_get (node G0) n)) /\
  (nx_graph G = true -> same_graph G (graph_copy G)) /\
  g' <> g /\
  graphs s !! g' = None /\
  graphs (with_copy s r.2) !! g = Some G /\
  graphs (with_copy s r.2) !! g' = Some r.2 /\
  lists (with_copy s r.2) = lists s.
Proof.
  intros HG targets r g'.
  destruct (with_copy_frame s r.2) as (Hl & Hnew & Hold).
  destruct (Hold g) as [Hne Hg]; [by rewrite HG|].
  split_and!.
  - by apply smooth_graph_run.
  - intros G0 G1 H01.
    destruct (batch_pass_spec G0 targets k G1 H01) as (Hadj & _ & Hin & Hout).
    split_and!; [done| |done].
    intros n Hn Hnode. destruct (Hin n Hn Hnode) as (mean & Hmean & Hget).
    unfold pass_mean in Hmean.
    destruct (get_multi_neighbours_and_vals G0 (PyList [n]) k) as [out|];
      simpl in Hmean; [|done].
    injection Hmean as <-. by exists out.
  - intros Hnx. by apply graph_copy_same.
  - by intros <-.
  - apply fresh_graph_ref.
  - by rewrite Hg.
  - done.
  - done.
Qed.

(** ** Node-set expansion *)

Lemma expand_loop_frame g nodes ign its s :
  let s' := (expand_loop g nodes ign its s).2 in
  graphs s' = graphs s /\
  (forall r, r <> nodes -> lists s' !! r = lists s !! r) /\
  (forall l, lists s !! nodes = Some l ->
             exists added, lists s' !! nodes = Some (l ++ added)).
Proof.
  revert s. induction its as [|its IH]; intros s; simpl.
  - split_and!; [done..|]. intros l Hl. exists []. by rewrite app_nil_r.
  - unfold mbind, M_bind, read_graph, read_list, lift, list_extend.
    destruct (graphs s !! g) as [G|]; simpl.
    2:{ split_and!; [done..|]. intros l Hl. exists []. by rewrite app_nil_r. }
    destruct (lists s !! nodes) as [cur|] eqn:Hcur; simpl.
    2:{ split_and!; [done..|]. intros l Hl. done. }
    destruct (get_neighbours_and_vals G (PyList cur)) as [d|e]; simpl.
    2:{ split_and!; [done..|]. intros l [= <-]. exists [].
        by rewrite app_nil_r. }
    rewrite Hcur. simpl.
    set (s1 := mkStore _ _).
    destruct (IH s1) as (Hg & Hother & Hnodes).
    destruct (expand_loop g nodes ign its s1) as [r s'] eqn:E. simpl in *.
    split_and!.
    + done.
    + intros r0 Hr0. rewrite Hother by done. by apply lookup_insert_ne.
    + intros l [= <-].
      destruct (Hnodes (cur ++ expand_neighbours ign d)) as [added Hadd].
      { apply lookup_insert_eq. }
      exists (expand_neighbours ign d ++ added). by rewrite app_assoc.
Qed.

(** C9. For every graph and every node list, [expand_nodes] with stepsize 0
    returns the caller's list, unchanged, and an empty list of new nodes,
    whatever the ignore-missing flag; the store is as it was. *)
Theorem expand_nodes_zero (s : store) (g nodes : ref) (l : list Z)
    (ignore_nans : bool) :
  lists s !! nodes = Some l ->
  expand_nodes g nodes 0 ignore_nans s = (Ok (nodes, []), s).
Proof.
  intros Hl. unfold expand_nodes, mbind, M_bind, read_list. rewrite Hl.
  simpl. rewrite Hl. simpl. unfold mret, M_ret.
  by rewrite difference_diag_L, elements_empty.
Qed.

Lemma reading_frame {A} g nodes (f : Graph -> list Z -> res A) s :
  (reading g nodes f s).2 = s.
Proof.
  unfold reading, mbind, M_bind, read_graph, read_list, lift.
  destruct (graphs s !! g); [|done]. by destruct (lists s !! nodes).
Qed.

Lemma expand_nodes_frame g nodes stepsize ign s :
  let out := expand_nodes g nodes stepsize ign s in
  graphs out.2 = graphs s /\
  (forall r, r <> nodes -> lists out.2 !! r = lists s !! r) /\
  (forall l, lists s !! nodes = Some l ->
             exists added, lists out.2 !! nodes = Some (l ++ added)) /\
  (forall l new_nodes, out.1 = Ok (l, new_nodes) -> l = nodes).
Proof.
  cbv zeta. unfold expand_nodes, mbind, M_bind, read_list.
  destruct (lists s !! nodes) as [orig|] eqn:Horig; simpl.
  2:{ split_and!; try done; intros; simplify_eq/=. }
  destruct (expand_loop_frame g nodes ign (range_len stepsize) s)
    as (Hg & Hother & Hnodes).
  destruct (expand_loop g nodes ign (range_len stepsize) s) as [[[]|e] s'];
    simpl in *.
  - destruct (lists s' !! nodes) as [cur|] eqn:Hcur; simpl.
    + split_and!; [done|done| |].
      * intros l Hl. destruct (Hnodes l) as [added Ha]; [congruence|].
        exists added. congruence.
      * by intros l new_nodes [= <- _].
    + split_and!; [done|done| |done].
      intros l Hl. destruct (Hnodes l) as [added Ha]; [congruence|].
      exists added. congruence.
  - split_and!; [done|done| |done].
    intros l Hl. destruct (Hnodes l) as [added Ha]; [congruence|].
    exists added. congruence.
Qed.

Lemma add_map_to_surface_frame g nodes_to_map map_data s :
  let out := add_map_to_surface g nodes_to_map map_data s in
  lists out.2 = lists s /\
  (forall r, r <> g -> graphs out.2 !! r = graphs s !! r) /\
  (forall g', out.1 = Ok g' ->
     g' = g /\
     exists G color_map,
       graphs s !! g = Some G /\
       array_take map_data nodes_to_map = Ok color_map /\
       graphs out.2 !! g =
         Some (set_node_attributes G
                 (dict_zip (dict_keys (node G)) color_map))).
Proof.
  unfold add_map_to_surface, mbind, M_bind, lift, read_graph, write_graph.
  destruct (array_take map_data nodes_to_map) as [color_map|]; simpl.
  2:{ split_and!; try done; intros; simplify_eq/=. }
  destruct (graphs s !! g) as [G|] eqn:HG; simpl.
  2:{ split_and!; try done; intros; simplify_eq/=. }
  split_and!; [done| |].
  - intros r Hr. by apply lookup_insert_ne.
  - intros g' [= <-]. split; [done|]. exists G, color_map.
    split_and!; [done..|]. apply lookup_insert_eq.
Qed.

Lemma smooth_graph_frame g nodes n_its k s :
  let out := smooth_graph g nodes n_its k s in
  lists out.2 = lists s /\
  (forall r, is_Some (graphs s !! r) -> graphs out.2 !! r = graphs s !! r) /\
  (forall g', out.1 = Ok g' -> graphs s !! g' = None).
Proof.
  cbv zeta. destruct (graphs s !! g) as [G|] eqn:HG.
  - rewrite (smooth_graph_run s g G) by done. simpl.
    set (G' := (batch_passes _ _ _ _).2).
    destruct (with_copy_frame s G') as (Hl & _ & Hold).
    split_and!; [done| |].
    + intros r Hr. by apply Hold.
    + intros g'. destruct (batch_passes _ _ _ _).1; [|done].
      intros [= <-]. apply fresh_graph_ref.
  - unfold smooth_graph, mbind, M_bind, read_graph. rewrite HG. simpl.
    split_and!; try done; intros; simplify_eq/=.
Qed.

(** C8, as the code has it.  A call of a reading function (neighborhood
    engine, border detection, region filter, gradient ascent) leaves the
    store as it was.  [expand_nodes] leaves every graph and every other list
    as they were, but it appends to the caller's list in place, and the list
    it returns is that same object.  [add_map_to_surface] writes the graph it
    is given and returns it.  [smooth_graph] leaves every list and every
    graph of the store as they were and returns a new graph. *)
Theorem store_effects (s : store) (g nodes : ref) :
  (forall A (f : Graph -> list Z -> res A), (reading g nodes f s).2 = s) /\
  (forall stepsize ignore_nans,
     let out := expand_nodes g nodes stepsize ignore_nans s in
     graphs out.2 = graphs s /\
     (forall r, r <> nodes -> lists out.2 !! r = lists s !! r) /\
     (forall l, lists s !! nodes = Some l ->
                exists added, lists out.2 !! nodes = Some (l ++ added)) /\
     (forall l new_nodes, out.1 = Ok (l, new_nodes) -> l = nodes)) /\
  (forall nodes_to_map map_data,
     let out := add_map_to_surface g nodes_to_map map_data s in
     lists out.2 = lists s /\
     (forall r, r <> g -> graphs out.2 !! r = graphs s !! r) /\
     (forall g', out.1 = Ok g' ->
        g' = g /\
        exists G color_map,
          graphs s !! g = Some G /\
          array_take map_data nodes_to_map = Ok color_map /\
          graphs out.2 !! g =
            Some (set_node_attributes G
                    (dict_zip (dict_keys (node G)) color_map)))) /\
  (forall pynodes n_its k,
     let out := smooth_graph g pynodes n_its k s in
     lists out.2 = lists s /\
     (forall r, is_Some (graphs s !! r) -> graphs out.2 !! r = graphs s !! r) /\
     (forall g', out.1 = Ok g' -> graphs s !! g' = None)).
Proof.
  split_and!.
  - intros A f. apply reading_frame.
  - intros. apply expand_nodes_frame.
  - intros. apply add_map_to_surface_frame.
  - intros. apply smooth_graph_frame.
Qed.

(** The caller's list [[0]] holds 0, 1 and 2 after one step of expansion. *)
Lemma expand_nodes_extends_caller_list :
  lists caller_store !! 0%nat = Some [0] /\
  lists (expand_nodes 0%nat 0%nat 1 false caller_store).2 !! 0%nat
    = Some [0; 1; 2].
Proof. split_and!; vm_compute; reflexivity. Qed.

(** ** Missing values and empty neighbourhoods *)

Lemma nanmean_all_missing l : forallb isnan l = true -> nanmean l = NaN.
Proof.
  intros H. unfold nanmean.
  assert (present l = []) as ->; [|done].
  unfold present. induction l as [|[q|] l IH]; simpl in *; [done|done|].
  by apply IH.
Qed.

Lemma pass_mean_all_missing G k n :
  all_missing G k n = true -> pass_mean G k n = Ok NaN.
Proof.
  unfold all_missing, pass_mean.
  destruct (get_multi_neighbours_and_vals G (PyList [n]) k) as [d|]; [|done].
  intros H. simpl. by rewrite nanmean_all_missing.
Qed.

Lemma has_value_has_node G n : has_value G n = true -> has_node G n = true.
Proof.
  unfold has_value, has_node, dict_mem. by destruct (dict_get (node G) n).
Qed.

(** One smoothing pass on the copy of a networkx graph, over targets whose
    queries succeed: a target of the graph whose neighbourhood holds no real
    value gets the missing value. *)
Lemma smooth_graph_once_all_missing s g G nodes k :
  graphs s !! g = Some G ->
  nx_graph G = true ->
  forallb (neighbourhood_ok G k) nodes = true ->
  exists G',
    smooth_graph g (PyList nodes) 1 k s =
      (Ok (fresh (dom (graphs s))), with_copy s G') /\
    forall n, n ∈ nodes -> has_node G n = true -> all_missing G k n = true ->
              dict_get (node G') n = Some (Some NaN).
Proof.
  intros HG Hnx Hok. rewrite (smooth_graph_run s g G) by done.
  change (range_len 1) with 1%nat. simpl.
  destruct (graph_copy_same G Hnx) as [Hsame _].
  assert (forallb (neighbourhood_ok (graph_copy G) k) nodes = true) as Hok'.
  { rewrite forallb_forall in Hok. apply forallb_forall. intros n Hn.
    by apply (same_graph_neighbourhood G (graph_copy G) k n Hsame), Hok. }
  destruct (batch_pass_ok (graph_copy G) nodes k Hok') as [G' HG'].
  rewrite HG'. simpl. exists G'. split; [done|].
  intros n Hn Hnode Hmiss.
  destruct (batch_pass_spec (graph_copy G) nodes k G' HG') as (_ & _ & Hin & _).
  destruct (Hin n Hn) as (mean & Hmean & Hget).
  { destruct Hsame as (Hnodes & _). unfold has_node in *. by rewrite Hnodes. }
  rewrite pass_mean_all_missing in Hmean.
  - by injection Hmean as <-.
  - apply (same_graph_neighbourhood G (graph_copy G) k n Hsame); [|done].
    rewrite forallb_forall in Hok. by apply Hok, list_elem_of_In.
Qed.

(** With every value bound and every query answered, the ascent step can
    only fail on [max] of an empty neighbourhood. *)
Lemma gradient_loop_empty G k pairs acc n :
  forallb (fun p => neighbourhood_ok G k p.1) pairs = true ->
  n ∈ pairs.*1 ->
  get_multi_neighbours_and_vals G (PyList [n]) k = Ok [] ->
  gradient_loop G k pairs acc = Raise ValueError.
Proof.
  revert acc. induction pairs as [|[m v] rest IH]; intros acc; simpl.
  - intros _ Hn. by apply elem_of_nil in Hn.
  - rewrite andb_true_iff. intros [Hm Hrest] Hn Hempty.
    unfold neighbourhood_ok, max_neighbour in *.
    destruct (get_multi_neighbours_and_vals G (PyList [m]) k) as [[|[nb w] d]|]
      eqn:Hd; [done| |done].
    simpl. apply IH; [done| |done].
    apply elem_of_cons in Hn as [->|Hn]; [congruence|done].
Qed.

Lemma nodes_gradient_step_empty G nodes k n :
  forallb (has_value G) nodes = true ->
  forallb (neighbourhood_ok G k) nodes = true ->
  n ∈ nodes ->
  get_multi_neighbours_and_vals G (PyList [n]) k = Ok [] ->
  nodes_gradient_step G nodes k = Raise ValueError.
Proof.
  intros Hvals Hok Hn Hempty.
  unfold nodes_gradient_step, get_node_attributes_as_list.
  destruct nodes as [|n0 rest]; [by apply elem_of_nil in Hn|].
  destruct (attributes_loop_ok G (n0 :: rest) [] Hvals) as (vals & -> & Hlen).
  simpl app. cbn [mbind res_bind].
  set (nodes := n0 :: rest) in *.
  assert (Hfst : (combine nodes vals).*1 = nodes).
  { clear -Hlen. revert vals Hlen.
    induction nodes as [|x xs IH]; intros [|y ys] Hlen; simpl in *;
      try done. f_equal. apply IH. lia. }
  apply (gradient_loop_empty G k _ [] n); [|by rewrite Hfst|done].
  apply forallb_forall. intros [m v] Hin. simpl.
  apply in_combine_l in Hin. rewrite forallb_forall in Hok. by apply Hok.
Qed.

(** C3, as the code has it.  Take a graph in the store and a list of nodes
    that all hold a value and whose neighbourhood queries all succeed.
    Smoothing never fails on them: one pass (on the copy of a graph as
    networkx keeps it) returns a graph in which every listed node whose
    neighbourhood holds no real value (all missing, or no neighbour at all)
    has the missing value.  The ascent step returns, and keeps such a node in
    place, when every listed node has at least one neighbour; when some
    listed node has no neighbour at all it raises [ValueError], the [max] of
    an empty dictionary. *)
Theorem missing_neighbourhood (s : store) (g : ref) (G : Graph)
    (nodes : list Z) (k : Z) :
  graphs s !! g = Some G ->
  forallb (has_value G) nodes = true ->
  forallb (neighbourhood_ok G k) nodes = true ->
  (nx_graph G = true ->
   exists G',
     smooth_graph g (PyList nodes) 1 k s =
       (Ok (fresh (dom (graphs s))), with_copy s G') /\
     forall n, n ∈ nodes -> all_missing G k n = true ->
               dict_get (node G') n = Some (Some NaN)) /\
  (nodes <> [] -> forallb (nonempty_neighbourhood G k) nodes = true ->
   exists out,
     nodes_gradient_step G nodes k = Ok out /\
     length out = length nodes /\
     forall i n, nodes !! i = Some n -> all_missing G k n = true ->
                 out !! i = Some n) /\
  (forall n, n ∈ nodes ->
     get_multi_neighbours_and_vals G (PyList [n]) k = Ok [] ->
     nodes_gradient_step G nodes k = Raise ValueError).
Proof.
  intros HG Hvals Hok. split_and!.
  - intros Hnx.
    destruct (smooth_graph_once_all_missing s g G nodes k HG Hnx Hok)
      as (G' & Hrun & Hnan).
    exists G'. split; [done|]. intros n Hn Hmiss. apply Hnan; [done| |done].
    apply has_value_has_node. rewrite forallb_forall in Hvals.
    by apply Hvals, list_elem_of_In.
  - intros Hne Hnb. by apply nodes_gradient_step_all_missing.
  - intros n Hn Hempty. by eapply nodes_gradient_step_empty.
Qed.

(** ** The [nodes] argument of [smooth_graph] *)



(** ** The theorems at work on the sample graphs *)

Lemma multi_hop_is_one_hop_witness :
  1 <= 3 /\
  get_multi_neighbours_and_vals two_faces (PyList [0]) 3 =
  get_neighbours_and_vals two_faces (PyList [0]).
Proof.
  split; [lia|]. apply (multi_hop_is_one_hop two_faces (PyList [0]) 3). lia.
Defined.

Lemma nifti_to_graph_spec_witness :
  let mesh_faces := [[0; 1; 2]; [1; 2; 3]] in
  let nodes_to_add := [0; 1; 2; 3] in
  let G := nifti_to_graph mesh_faces nodes_to_add in
  NoDup (dict_keys (node G)) /\
  (forall n, n ∈ dict_keys (node G) <-> n ∈ concat mesh_faces) /\
  (forall u v, has_edge G u v = true <->
               exists row, row ∈ mesh_faces /\ cooccur row u v) /\
  (forall u v, u <> v ->
               (has_edge G u v = true <->
                exists row, row ∈ mesh_faces /\ u ∈ row /\ v ∈ row)) /\
  (forall u v, has_edge G u v = has_edge G v u) /\
  (forall u nbrs, dict_get (adj G) u = Some nbrs -> NoDup (dict_keys nbrs)).
Proof.
  intros mesh_faces nodes_to_add.
  apply (nifti_to_graph_spec mesh_faces nodes_to_add).
  - repeat constructor; simpl; lia.
  - intros n. subst mesh_faces nodes_to_add. simpl.
    rewrite !elem_of_cons. tauto.
Defined.

Lemma get_neighbours_and_vals_seeds_witness :
  values_bound two_faces = true /\
  (forallb (seed_in_graph two_faces) [0; 3] = true ->
   is_ok (get_neighbours_and_vals two_faces (PyList [0; 3]))) /\
  (seed_in_graph two_faces 0 = true ->
   is_ok (get_neighbours_and_vals two_faces (PyInt 0))) /\
  (forallb (seed_in_graph two_faces) [0; 3] = false ->
   get_neighbours_and_vals two_faces (PyList [0; 3]) = Raise KeyError).
Proof.
  split; [reflexivity|].
  apply (get_neighbours_and_vals_seeds two_faces [0; 3] 0). reflexivity.
Defined.

(** A seed that is not a node of the graph raises [KeyError]. *)
Lemma get_neighbours_and_vals_absent_seed :
  has_node two_faces 7 = false /\
  get_neighbours_and_vals two_faces (PyList [7]) = Raise KeyError.
Proof. split; reflexivity. Qed.

Lemma missing_neighbourhood_witness :
  let s := store_of nan_ring in
  let g := 0%nat in
  let G := nan_ring in
  let nodes := [0] in
  let k := 1 in
  (graphs s !! g = Some G /\
   forallb (has_value G) nodes = true /\
   forallb (neighbourhood_ok G k) nodes = true /\
   nx_graph G = true) /\
  (nx_graph G = true ->
   exists G',
     smooth_graph g (PyList nodes) 1 k s =
       (Ok (fresh (dom (graphs s))), with_copy s G') /\
     forall n, n ∈ nodes -> all_missing G k n = true ->
               dict_get (node G') n = Some (Some NaN)) /\
  (nodes <> [] -> forallb (nonempty_neighbourhood G k) nodes = true ->
   exists out,
     nodes_gradient_step G nodes k = Ok out /\
     length out = length nodes /\
     forall i n, nodes !! i = Some n -> all_missing G k n = true ->
                 out !! i = Some n) /\
  (forall n, n ∈ nodes ->
     get_multi_neighbours_and_vals G (PyList [n]) k = Ok [] ->
     nodes_gradient_step G nodes k = Raise ValueError).
Proof.
  intros s g G nodes k. split.
  - split_and!; reflexivity.
  - apply (missing_neighbourhood s g G nodes k); reflexivity.
Defined.

(** Why the smoothing part asks for a networkx graph: on a record whose
    adjacency is not symmetric the copy gains the edge back, and node 0 gets
    a neighbour without a value that the record did not show. *)
Lemma lopsided_record_copy_raises :
  nx_graph lopsided = false /\
  forallb (has_value lopsided) [0] = true /\
  forallb (neighbourhood_ok lopsided 1) [0] = true /\
  has_edge lopsided 0 1 = false /\
  has_edge (graph_copy lopsided) 0 1 = true /\
  (smooth_graph 0%nat (PyList [0]) 1 1 (store_of lopsided)).1 = Raise KeyError.
Proof. split_and!; reflexivity. Qed.

(** A node without a neighbour, or a radius of 0: the neighbourhood is empty
    and the ascent step raises [ValueError]. *)
Lemma nodes_gradient_step_empty_neighbourhood_raises :
  get_multi_neighbours_and_vals isolated (PyList [0]) 1 = Ok [] /\
  nodes_gradient_step isolated [0] 1 = Raise ValueError /\
  get_multi_neighbours_and_vals two_faces (PyList [0]) 0 = Ok [] /\
  nodes_gradient_step two_faces [0] 0 = Raise ValueError.
Proof. split_and!; reflexivity. Qed.

Lemma smooth_graph_batch_witness :
  let s := store_of two_faces in
  let g := 0%nat in
  let G := two_faces in
  let nodes := PyNone in
  let n_its := 2 in
  let k := 1 in
  (graphs s !! g = Some G /\ nx_graph G = true) /\
  (let targets := smooth_targets G nodes in
   let r := batch_passes (graph_copy G) targets k (range_len n_its) in
   let g' := fresh (dom (graphs s)) in
   smooth_graph g nodes n_its k s =
     (match r.1 with Ok _ => Ok g' | Raise e => Raise e end, with_copy s r.2) /\
   (forall G0 G1, batch_pass G0 targets k = Ok G1 ->
      adj G1 = adj G0 /\
      (forall n, n ∈ targets -> has_node G0 n = true ->
         exists out,
           get_multi_neighbours_and_vals G0 (PyList [n]) k = Ok out /\
           dict_get (node G1) n = Some (Some (nanmean (dict_values out)))) /\
      (forall n, n ∉ targets -> dict_get (node G1) n = dict_get (node G0) n)) /\
   (nx_graph G = true -> same_graph G (graph_copy G)) /\
   g' <> g /\
   graphs s !! g' = None /\
   graphs (with_copy s r.2) !! g = Some G /\
   graphs (with_copy s r.2) !! g' = Some r.2 /\
   lists (with_copy s r.2) = lists s).
Proof.
  intros s g G nodes n_its k. split; [split; reflexivity|].
  apply (smooth_graph_batch s g G nodes n_its k). reflexivity.
Defined.

Lemma expand_nodes_zero_witness :
  lists caller_store !! 0%nat = Some [0] /\
  expand_nodes 0%nat 0%nat 0 true caller_store
    = (Ok (0%nat, []), caller_store).
Proof.
  split; [reflexivity|].
  apply (expand_nodes_zero caller_store 0%nat 0%nat [0] true). reflexivity.
Defined.


(** * Further properties of the module *)

(** ** What the 1-hop step returns *)

(** X1. On a graph whose neighbours all hold a value, with seeds that are
    nodes of the graph, [get_neighbours_and_vals] returns a dictionary that
    holds each key once; its keys are exactly the nodes adjacent to some
    seed (a seed is a key only when it is adjacent to a seed), and each key
    comes with the value that the graph binds to that node. *)
Theorem get_neighbours_and_vals_result (G : Graph) (seeds : list Z) :
  values_bound G = true ->
  forallb (seed_in_graph G) seeds = true ->
  exists d,
    get_neighbours_and_vals G (PyList seeds) = Ok d /\
    NoDup (dict_keys d) /\
    (forall k, k ∈ dict_keys d <->
               exists n, n ∈ seeds /\ has_edge G n k = true) /\
    (forall k v, dict_get d k = Some v ->
                 dict_get (node G) k = Some (Some v)).
Proof.
  intros HG Hs.
  destruct (nodes_loop_ok G seeds ([], []) HG Hs) as [acc Hacc].
  assert (get_neighbours_and_vals G (PyList seeds) = Ok (dict_zip acc.1 acc.2))
    as Hd.
  { unfold get_neighbours_and_vals. simpl. by rewrite Hacc. }
  destruct (get_neighbours_and_vals_spec G seeds _ Hd) as (Hwf & Hk & Hv).
  eexists. split_and!; [done..|].
  intros k v Hget. by apply Hv, dict_get_Some_elem.
Qed.

Lemma get_neighbours_and_vals_result_witness :
  values_bound two_faces = true /\
  forallb (seed_in_graph two_faces) [0; 3] = true /\
  exists d,
    get_neighbours_and_vals two_faces (PyList [0; 3]) = Ok d /\
    NoDup (dict_keys d) /\
    (forall k, k ∈ dict_keys d <->
               exists n, n ∈ [0; 3] /\ has_edge two_faces n k = true) /\
    (forall k v, dict_get d k = Some v ->
                 dict_get (node two_faces) k = Some (Some v)).
Proof.
  split_and!; [reflexivity..|].
  apply (get_neighbours_and_vals_result two_faces [0; 3]); reflexivity.
Defined.

(** ** What [max_neighbour] returns *)

Lemma max_loop_snd (m : Z * val) (rest : dict val) :
  (max_loop snd m rest).2 = max_loop id m.2 (dict_values rest).
Proof.
  revert m. induction rest as [|x rest IH]; intros m; simpl; [done|].
  unfold id at 1 2. destruct (val_gt x.2 m.2); apply IH.
Qed.

Lemma max_loop_elem {A} (key : A -> val) m rest :
  max_loop key m rest ∈ m :: rest.
Proof.
  revert m. induction rest as [|x rest IH]; intros m; simpl.
  - apply elem_of_cons. by left.
  - destruct (val_gt (key x) (key m)).
    + apply elem_of_cons. right. apply IH.
    + specialize (IH m). apply elem_of_cons in IH as [->|IH].
      * apply elem_of_cons. by left.
      * apply elem_of_cons. right. apply elem_of_cons. by right.
Qed.

(** From a real first candidate, [max] ends on a real value that no real
    value of the sequence exceeds: a missing value never replaces the
    candidate. *)
Lemma max_loop_upper {A} (key : A -> val) m rest q :
  key m = Real q ->
  exists q', key (max_loop key m rest) = Real q' /\
             (q <= q')%Q /\
             forall x qx, x ∈ rest -> key x = Real qx -> (qx <= q')%Q.
Proof.
  revert m q. induction rest as [|x rest IH]; intros m q Hm; simpl.
  - exists q. split_and!; [done|apply Qle_refl|].
    intros x qx Hx. by apply elem_of_nil in Hx.
  - unfold val_gt. rewrite Hm. destruct (key x) as [qx|] eqn:Hx; simpl.
    + destruct (Qle_bool qx q) eqn:Hle; simpl.
      * apply Qle_bool_iff in Hle.
        destruct (IH m q Hm) as (q' & Hq' & Hqq' & Hrest).
        exists q'. split_and!; [done..|].
        intros y qy [->|Hy]%elem_of_cons Hky; [|by eapply Hrest].
        rewrite Hx in Hky. injection Hky as <-. by eapply Qle_trans.
      * assert (q < qx)%Q as Hlt.
        { apply Qnot_le_lt. intros H%Qle_bool_iff. congruence. }
        destruct (IH x qx Hx) as (q' & Hq' & Hqq' & Hrest).
        exists q'. split_and!; [done| |].
        -- eapply Qle_trans; [by apply Qlt_le_weak|done].
        -- intros y qy [->|Hy]%elem_of_cons Hky; [|by eapply Hrest].
           rewrite Hx in Hky. by injection Hky as <-.
    + destruct (IH m q Hm) as (q' & Hq' & Hqq' & Hrest).
      exists q'. split_and!; [done..|].
      intros y qy [->|Hy]%elem_of_cons Hky; [congruence|by eapply Hrest].
Qed.

(** The result of [max_neighbour] on a neighbourhood that is not empty. *)
Lemma max_neighbour_run (G : Graph) (n k k0 : Z) (v0 : val)
    (rest : dict val) :
  get_multi_neighbours_and_vals G (PyList [n]) k = Ok ((k0, v0) :: rest) ->
  exists nb v,
    max_neighbour G n k = Ok (nb, v) /\
    (nb, v) ∈ (k0, v0) :: rest /\
    match v0 with
    | NaN => nb = k0 /\ v = NaN
    | Real _ =>
        exists q, v = Real q /\
                  forall k' q', (k', Real q') ∈ (k0, v0) :: rest -> (q' <= q)%Q
    end.
Proof.
  intros Hd. unfold max_neighbour. rewrite Hd. simpl.
  pose proof (max_loop_snd (k0, v0) rest) as Hsnd. simpl in Hsnd.
  rewrite <- Hsnd.
  pose proof (max_loop_elem snd (k0, v0) rest) as Hin.
  destruct (max_loop snd (k0, v0) rest) as [nb v] eqn:Hmax. simpl.
  exists nb, v. split_and!; [done..|].
  destruct v0 as [q0|].
  - destruct (max_loop_upper snd (k0, Real q0) rest q0 eq_refl)
      as (q' & Hq' & Hqq' & Hrest).
    rewrite Hmax in Hq'. simpl in Hq'. exists q'. split; [done|].
    intros k' q1 [[= -> ->]|H]%elem_of_cons; [done|].
    by apply (Hrest (k', Real q1)).
  - rewrite max_loop_nan_first in Hmax by done. by injection Hmax as <- <-.
Qed.

(** X2. When the neighbourhood of a node is not empty, [max_neighbour]
    returns one of its entries: a neighbour together with that neighbour's
    own value.  If the first entry holds a real value, the value returned is
    real and no real value of the neighbourhood exceeds it; if the first
    entry holds the missing value, that first entry is returned. *)
Theorem max_neighbour_result (G : Graph) (n k k0 : Z) (v0 : val)
    (rest : dict val) :
  get_multi_neighbours_and_vals G (PyList [n]) k = Ok ((k0, v0) :: rest) ->
  exists nb v,
    max_neighbour G n k = Ok (nb, v) /\
    (nb, v) ∈ (k0, v0) :: rest /\
    match v0 with
    | NaN => nb = k0 /\ v = NaN
    | Real _ =>
        exists q, v = Real q /\
                  forall k' q', (k', Real q') ∈ (k0, v0) :: rest -> (q' <= q)%Q
    end.
Proof.
  intros Hd.
  destruct (max_neighbour_run G n k k0 v0 rest Hd) as (nb & v & Hmax & Hin & Hv).
  exists nb, v. by split_and!.
Qed.

Lemma max_neighbour_result_witness :
  get_multi_neighbours_and_vals two_faces (PyList [1]) 1
    = Ok ((0, Real 1) :: [(2, Real 3); (3, NaN)]) /\
  exists nb v,
    max_neighbour two_faces 1 1 = Ok (nb, v) /\
    (nb, v) ∈ (0, Real 1) :: [(2, Real 3); (3, NaN)] /\
    exists q, v = Real q /\
              forall k' q', (k', Real q') ∈ (0, Real 1) :: [(2, Real 3); (3, NaN)]
                            -> (q' <= q)%Q.
Proof.
  split; [reflexivity|].
  apply (max_neighbour_result two_faces 1 1 0 (Real 1) [(2, Real 3); (3, NaN)]).
  reflexivity.
Defined.

(** ** What a step of the ascent does *)

Lemma get_multi_one_hop G nodes k d :
  get_multi_neighbours_and_vals G nodes k = Ok d -> d <> [] ->
  get_neighbours_and_vals G nodes = Ok d.
Proof.
  unfold get_multi_neighbours_and_vals, range_len.
  destruct (Z.to_nat k) as [|its]; simpl; [by intros [= <-]|].
  destruct (get_neighbours_and_vals G nodes) as [d1|] eqn:Hd1; simpl; [|done].
  rewrite dict_update_nil by (by eapply get_neighbours_and_vals_wf).
  rewrite (multi_loop_fixed G nodes d1 its Hd1). by intros [= <-].
Qed.

Lemma max_neighbour_entry G n k nb v :
  max_neighbour G n k = Ok (nb, v) ->
  exists d, get_multi_neighbours_and_vals G (PyList [n]) k = Ok d /\
            (nb, v) ∈ d.
Proof.
  unfold max_neighbour.
  destruct (get_multi_neighbours_and_vals G (PyList [n]) k) as [[|m rest]|];
    simpl; try done.
  intros [= <- <-]. eexists. split; [done|].
  rewrite <- max_loop_snd.
  pose proof (max_loop_elem snd m rest) as Hin.
  by destruct (max_loop snd m rest).
Qed.

Lemma attributes_loop_spec G nodes tmp out :
  attributes_loop G nodes tmp = Ok out ->
  exists vals, out = tmp ++ vals /\ Forall2 (bound_to G) nodes vals.
Proof.
  revert tmp. induction nodes as [|n rest IH]; intros tmp; simpl.
  - intros [= <-]. exists []. by rewrite app_nil_r.
  - unfold dict_item. destruct (dict_get (node G) n) as [[v|]|] eqn:E;
      simpl; try done.
    intros (vals & -> & HF)%IH. exists (v :: vals).
    rewrite <- app_assoc. split; [done|]. by constructor.
Qed.

Lemma gradient_loop_moves G k nodes vals acc out :
  Forall2 (bound_to G) nodes vals ->
  gradient_loop G k (combine nodes vals) acc = Ok out ->
  exists new, out = acc ++ new /\ Forall2 (ascent_move G) nodes new.
Proof.
  intros HF. revert acc. induction HF as [|n v nodes vals Hnv HF IH];
    intros acc; simpl.
  - intros [= <-]. exists []. by rewrite app_nil_r.
  - destruct (max_neighbour G n k) as [[nb w]|] eqn:Hmax; simpl; [|done].
    intros (new & -> & Hnew)%IH. eexists (_ :: new).
    rewrite <- app_assoc. split; [done|]. constructor; [|done].
    destruct (val_lt v w) eqn:Hlt; [|by left]. right.
    destruct w as [q|]; [|by rewrite val_lt_nan_r in Hlt].
    apply max_neighbour_entry in Hmax as (d & Hd & Hin).
    apply get_multi_one_hop in Hd; [|by intros ->; apply elem_of_nil in Hin].
    destruct (get_neighbours_and_vals_spec G [n] d Hd) as (_ & Hk & Hv).
    assert (has_edge G n nb = true) as He.
    { destruct (proj1 (Hk nb)) as (n' & Hn' & He).
      - apply list_elem_of_fmap. by exists (nb, Real q).
      - by apply list_elem_of_singleton in Hn' as ->. }
    specialize (Hv nb (Real q) Hin).
    unfold has_real_value, value_of, bound_to in *. by rewrite Hv, Hnv.
Qed.

(** The ascent step on nodes that hold a value and have a neighbour. *)
Lemma nodes_gradient_step_run (G : Graph) (nodes : list Z) (k : Z) :
  nodes <> [] ->
  forallb (has_value G) nodes = true ->
  forallb (nonempty_neighbourhood G k) nodes = true ->
  exists out,
    nodes_gradient_step G nodes k = Ok out /\
    Forall2 (ascent_move G) nodes out.
Proof.
  intros Hne Hvals Hnb.
  destruct (nodes_gradient_step_all_missing G nodes k Hne Hvals Hnb)
    as (out & Hout & _).
  exists out. split; [done|].
  unfold nodes_gradient_step, get_node_attributes_as_list in Hout.
  destruct nodes as [|n0 rest]; [done|].
  destruct (attributes_loop G (n0 :: rest) []) as [vals|] eqn:Hattr;
    simpl in Hout; [|done].
  apply attributes_loop_spec in Hattr as (vals' & -> & HF). simpl in Hout.
  change (gradient_loop G k (combine (n0 :: rest) vals') [] = Ok out) in Hout.
  by apply (gradient_loop_moves G k _ _ [] out HF) in Hout as (new & -> & H).
Qed.

(** X3. For a non-empty list of nodes that all hold a value and all have a
    neighbour within the radius, [nodes_gradient_step] returns a list of the
    same length in which every node either kept its place or moved to an
    adjacent node that holds a real value strictly greater than its own:
    the step never moves a node to a neighbour whose value is missing. *)
Theorem nodes_gradient_step_moves (G : Graph) (nodes : list Z) (k : Z) :
  nodes <> [] ->
  forallb (has_value G) nodes = true ->
  forallb (nonempty_neighbourhood G k) nodes = true ->
  exists out,
    nodes_gradient_step G nodes k = Ok out /\
    Forall2 (ascent_move G) nodes out.
Proof.
  intros Hne Hvals Hnb.
  destruct (nodes_gradient_step_run G nodes k Hne Hvals Hnb) as (out & Hout & HF).
  exists out. by split.
Qed.

Lemma nodes_gradient_step_moves_witness :
  [0; 1; 3] <> [] /\
  forallb (has_value two_faces) [0; 1; 3] = true /\
  forallb (nonempty_neighbourhood two_faces 1) [0; 1; 3] = true /\
  exists out,
    nodes_gradient_step two_faces [0; 1; 3] 1 = Ok out /\
    Forall2 (ascent_move two_faces) [0; 1; 3] out.
Proof.
  split_and!; [done|reflexivity|reflexivity|].
  apply (nodes_gradient_step_moves two_faces [0; 1; 3] 1);
    [done|reflexivity|reflexivity].
Defined.

(** ** A radius of zero or less *)

Lemma get_multi_no_radius G nodes k :
  k <= 0 -> get_multi_neighbours_and_vals G nodes k = Ok [].
Proof.
  intros Hk. unfold get_multi_neighbours_and_vals, range_len.
  by rewrite Z2Nat.nonpos.
Qed.

(** X4. With a radius of zero or less the neighbourhood is empty whatever
    the node, so [max_neighbour] raises [ValueError], and so does
    [nodes_gradient_step] on every non-empty list of nodes that hold a
    value. *)
Theorem max_neighbour_no_radius (G : Graph) (nodes : list Z) (n k : Z) :
  k <= 0 ->
  max_neighbour G n k = Raise ValueError /\
  (nodes <> [] -> forallb (has_value G) nodes = true ->
   nodes_gradient_step G nodes k = Raise ValueError).
Proof.
  intros Hk. split.
  - apply max_neighbour_empty. by apply get_multi_no_radius.
  - intros Hne Hvals. destruct nodes as [|n0 rest]; [done|].
    apply (nodes_gradient_step_empty G (n0 :: rest) k n0); [done| | |].
    + apply forallb_forall. intros x _. unfold neighbourhood_ok.
      by rewrite get_multi_no_radius.
    + apply elem_of_cons. by left.
    + by apply get_multi_no_radius.
Qed.

Lemma max_neighbour_no_radius_witness :
  0 <= 0 /\
  max_neighbour two_faces 0 0 = Raise ValueError /\
  ([0; 1] <> [] -> forallb (has_value two_faces) [0; 1] = true ->
   nodes_gradient_step two_faces [0; 1] 0 = Raise ValueError).
Proof.
  split; [lia|]. apply (max_neighbour_no_radius two_faces [0; 1] 0 0). lia.
Defined.

Lemma batch_pass_no_radius G targets k :
  k <= 0 ->
  exists G1,
    batch_pass G targets k = Ok G1 /\
    adj G1 = adj G /\
    dict_keys (node G1) = dict_keys (node G) /\
    (forall n, n ∈ targets -> has_node G n = true ->
               dict_get (node G1) n = Some (Some NaN)) /\
    (forall n, n ∉ targets -> dict_get (node G1) n = dict_get (node G) n).
Proof.
  intros Hk.
  destruct (batch_pass_ok G targets k) as [G1 HG1].
  { apply forallb_forall. intros x _. unfold neighbourhood_ok.
    by rewrite get_multi_no_radius. }
  exists G1. split; [done|].
  destruct (batch_pass_spec G targets k G1 HG1) as (Hadj & Hkeys & Hin & Hout).
  split_and!; [done..| |done].
  intros n Hn Hnode. destruct (Hin n Hn Hnode) as (mean & Hmean & Hget).
  unfold pass_mean in Hmean. rewrite get_multi_no_radius in Hmean by done.
  simpl in Hmean. by injection Hmean as <-.
Qed.

Lemma batch_passes_no_radius G targets k its :
  k <= 0 ->
  exists G',
    batch_passes G targets k (S its) = (Ok tt, G') /\
    adj G' = adj G /\
    dict_keys (node G') = dict_keys (node G) /\
    (forall n, n ∈ targets -> has_node G n = true ->
               dict_get (node G') n = Some (Some NaN)) /\
    (forall n, n ∉ targets -> dict_get (node G') n = dict_get (node G) n).
Proof.
  intros Hk. revert G. induction its as [|its IH]; intros G.
  - destruct (batch_pass_no_radius G targets k Hk) as (G1 & HG1 & H).
    exists G1. simpl. by rewrite HG1.
  - destruct (batch_pass_no_radius G targets k Hk)
      as (G1 & HG1 & Hadj1 & Hkeys1 & Hin1 & Hout1).
    destruct (IH G1) as (G' & HG' & Hadj & Hkeys & Hin & Hout).
    exists G'. split_and!.
    + change (batch_passes G targets k (S (S its))) with
        (match batch_pass G targets k with
         | Ok G0 => batch_passes G0 targets k (S its)
         | Raise e => (Raise e, G)
         end).
      by rewrite HG1.
    + congruence.
    + congruence.
    + intros n Hn Hnode. apply Hin; [done|].
      apply has_node_spec. rewrite Hkeys1. by apply has_node_spec.
    + intros n Hn. rewrite Hout by done. by apply Hout1.
Qed.

Lemma same_graph_has_node G G' n :
  same_graph G G' -> has_node G' n = has_node G n.
Proof. intros (Hnode & _). unfold has_node. by rewrite Hnode. Qed.

(** X5. With a kernel radius of zero or less and at least one pass,
    [smooth_graph] on a networkx graph never raises, not even for targets
    that are no nodes of the graph: it returns a graph with the adjacency of
    [G.copy()], so with the nodes and the edges of the input, in which every
    target node holds the missing value and every other node the value it
    had. *)
Theorem smooth_graph_no_radius (s : store) (g : ref) (G : Graph)
    (nodes : pynodes) (n_its k : Z) :
  graphs s !! g = Some G ->
  nx_graph G = true ->
  k <= 0 -> 1 <= n_its ->
  exists G',
    smooth_graph g nodes n_its k s =
      (Ok (fresh (dom (graphs s))), with_copy s G') /\
    adj G' = adj (graph_copy G) /\
    (forall u v, has_edge G' u v = has_edge G u v) /\
    dict_keys (node G') = dict_keys (node G) /\
    (forall n, n ∈ smooth_targets G nodes -> has_node G n = true ->
               dict_get (node G') n = Some (Some NaN)) /\
    (forall n, n ∉ smooth_targets G nodes ->
               dict_get (node G') n = dict_get (node G) n).
Proof.
  intros HG Hnx Hk Hits. rewrite (smooth_graph_run s g G) by done.
  destruct (graph_copy_same G Hnx) as [Hsame _].
  pose proof Hsame as (Hnode & _ & Hedge).
  unfold range_len. destruct (Z.to_nat n_its) as [|its] eqn:E; [lia|].
  destruct (batch_passes_no_radius (graph_copy G) (smooth_targets G nodes)
              k its Hk) as (G' & -> & Hadj & Hkeys & Hin & Hout).
  exists G'. split_and!.
  - done.
  - done.
  - intros u v. by rewrite (has_edge_adj _ _ u v Hadj).
  - by rewrite Hkeys, Hnode.
  - intros n Hn Hnd. apply Hin; [done|].
    by rewrite (same_graph_has_node G (graph_copy G)).
  - intros n Hn. rewrite Hout by done. by rewrite Hnode.
Qed.

Lemma smooth_graph_no_radius_witness :
  let s := store_of two_faces in
  let G := two_faces in
  graphs s !! 0%nat = Some G /\ nx_graph G = true /\ 0 <= 0 /\ 1 <= 2 /\
  exists G',
    smooth_graph 0%nat (PyList [0; 7]) 2 0 s =
      (Ok (fresh (dom (graphs s))), with_copy s G') /\
    adj G' = adj (graph_copy G) /\
    (forall u v, has_edge G' u v = has_edge G u v) /\
    dict_keys (node G') = dict_keys (node G) /\
    (forall n, n ∈ smooth_targets G (PyList [0; 7]) -> has_node G n = true ->
               dict_get (node G') n = Some (Some NaN)) /\
    (forall n, n ∉ smooth_targets G (PyList [0; 7]) ->
               dict_get (node G') n = dict_get (node G) n).
Proof.
  intros s G. split_and!; [reflexivity|reflexivity|lia|lia|].
  apply (smooth_graph_no_radius s 0%nat G (PyList [0; 7]) 2 0);
    [reflexivity|reflexivity|lia|lia].
Defined.

(** ** The topology under smoothing *)

Lemma batch_passes_topology G targets k its :
  adj (batch_passes G targets k its).2 = adj G /\
  dict_keys (node (batch_passes G targets k its).2) = dict_keys (node G).
Proof.
  revert G. induction its as [|its IH]; intros G; simpl; [done|].
  destruct (batch_pass G targets k) as [G1|] eqn:E; [|done].
  destruct (batch_pass_spec G targets k G1 E) as (Hadj & Hkeys & _).
  destruct (IH G1) as [-> ->]. done.
Qed.

(** X6. Whatever the arguments, and also when a pass raises, the graph that
    [smooth_graph] leaves at the new reference for a networkx graph has the
    adjacency of [G.copy()]: the nodes (in the same order) and the edges of
    the input graph.  With no pass at all ([n_its <= 0]) it is the plain
    copy, with the values of the input. *)
Theorem smooth_graph_topology (s : store) (g : ref) (G : Graph)
    (nodes : pynodes) (n_its k : Z) :
  graphs s !! g = Some G ->
  nx_graph G = true ->
  exists r G',
    smooth_graph g nodes n_its k s = (r, with_copy s G') /\
    adj G' = adj (graph_copy G) /\
    (forall u v, has_edge G' u v = has_edge G u v) /\
    dict_keys (node G') = dict_keys (node G) /\
    (n_its <= 0 ->
     r = Ok (fresh (dom (graphs s))) /\ G' = graph_copy G /\ node G' = node G).
Proof.
  intros HG Hnx. rewrite (smooth_graph_run s g G) by done.
  destruct (graph_copy_same G Hnx) as [(Hnode & _ & Hedge) _].
  destruct (batch_passes_topology (graph_copy G) (smooth_targets G nodes) k
              (range_len n_its)) as [Hadj Hkeys].
  eexists _, _. split_and!.
  - done.
  - done.
  - intros u v. by rewrite (has_edge_adj _ _ u v Hadj).
  - by rewrite Hkeys, Hnode.
  - intros Hn. unfold range_len. by rewrite Z2Nat.nonpos.
Qed.

Lemma smooth_graph_topology_witness :
  let s := store_of two_faces in
  let G := two_faces in
  graphs s !! 0%nat = Some G /\ nx_graph G = true /\
  exists r G',
    smooth_graph 0%nat PyNone 3 1 s = (r, with_copy s G') /\
    adj G' = adj (graph_copy G) /\
    (forall u v, has_edge G' u v = has_edge G u v) /\
    dict_keys (node G') = dict_keys (node G) /\
    (3 <= 0 ->
     r = Ok (fresh (dom (graphs s))) /\ G' = graph_copy G /\ node G' = node G).
Proof.
  intros s G. split_and!; [reflexivity|reflexivity|].
  apply (smooth_graph_topology s 0%nat G PyNone 3 1); reflexivity.
Defined.

(** ** Node-set expansion, step by step *)

Lemma expand_neighbours_elem ign (d : dict val) x :
  dict_wf d ->
  x ∈ expand_neighbours ign d <->
  exists v, dict_get d x = Some v /\ (ign = true -> isnan v = false).
Proof.
  intros Hwf. unfold expand_neighbours. destruct ign.
  - unfold dict_keys. rewrite list_elem_of_fmap. split.
    + intros ([k v] & -> & [Hv Hin]%list_elem_of_filter). simpl in *.
      exists v. split; [by apply dict_wf_get|].
      intros _. by destruct (isnan v).
    + intros (v & Hget & Hv). exists (x, v). split; [done|].
      apply list_elem_of_filter. split; [|by apply dict_get_Some_elem].
      simpl. by rewrite Hv.
  - rewrite <- dict_get_is_Some. split.
    + intros [v Hv]. by exists v.
    + intros (v & Hv & _). by exists v.
Qed.

(** X7. One step of [expand_nodes] on a list whose 1-hop query succeeds:
    the caller's list becomes the old list followed by the keys of the
    neighbourhood (without the keys whose value is missing, when these are
    ignored), and the new nodes are, each once, the appended keys that were
    not in the list before. *)
Theorem expand_nodes_one_step (s : store) (g nodes : ref) (G : Graph)
    (l : list Z) (d : dict val) (ignore_nans : bool) :
  graphs s !! g = Some G ->
  lists s !! nodes = Some l ->
  get_neighbours_and_vals G (PyList l) = Ok d ->
  exists new_nodes,
    expand_nodes g nodes 1 ignore_nans s =
      (Ok (nodes, new_nodes),
       mkStore (<[nodes := l ++ expand_neighbours ignore_nans d]> (lists s))
               (graphs s)) /\
    NoDup new_nodes /\
    forall x, x ∈ new_nodes <->
              (x ∉ l) /\
              exists v, dict_get d x = Some v /\
                        (ignore_nans = true -> isnan v = false).
Proof.
  intros HG Hl Hd.
  unfold expand_nodes, mbind, M_bind, read_list. rewrite Hl.
  change (range_len 1) with 1%nat. simpl.
  unfold mbind, M_bind, read_graph, read_list, lift, list_extend.
  rewrite HG, Hl, Hd. simpl. rewrite Hl. simpl. rewrite lookup_insert_eq.
  unfold mret, M_ret. eexists. split_and!; [done|apply NoDup_elements|].
  intros x. rewrite elem_of_elements, elem_of_difference,
    !elem_of_list_to_set, elem_of_app.
  rewrite (expand_neighbours_elem ignore_nans d x)
    by (by eapply get_neighbours_and_vals_wf).
  tauto.
Qed.

Lemma expand_nodes_one_step_witness :
  let s := caller_store in
  let d := [(1, Real 5); (2, Real 3)] in
  graphs s !! 0%nat = Some two_faces /\
  lists s !! 0%nat = Some [0] /\
  get_neighbours_and_vals two_faces (PyList [0]) = Ok d /\
  exists new_nodes,
    expand_nodes 0%nat 0%nat 1 true s =
      (Ok (0%nat, new_nodes),
       mkStore (<[0%nat := [0] ++ expand_neighbours true d]> (lists s))
               (graphs s)) /\
    NoDup new_nodes /\
    forall x, x ∈ new_nodes <->
              (x ∉ [0]) /\
              exists v, dict_get d x = Some v /\
                        (true = true -> isnan v = false).
Proof.
  intros s d. split_and!; [reflexivity..|].
  apply (expand_nodes_one_step s 0%nat 0%nat two_faces [0] d true);
    reflexivity.
Defined.

Lemma adj_closed_edge G n k :
  adj_closed G = true -> has_edge G n k = true -> seed_in_graph G k = true.
Proof.
  unfold adj_closed. rewrite forallb_forall.
  intros H (nbrs & Hn & Hk)%has_edge_spec.
  apply dict_get_Some_elem, list_elem_of_In in Hn.
  specialize (H _ Hn). simpl in H. rewrite forallb_forall in H.
  by apply H, list_elem_of_In.
Qed.

Lemma expand_loop_run g nodes ign its s G l :
  graphs s !! g = Some G ->
  lists s !! nodes = Some l ->
  values_bound G = true ->
  adj_closed G = true ->
  forallb (seed_in_graph G) l = true ->
  exists added,
    expand_loop g nodes ign its s =
      (Ok tt, mkStore (<[nodes := l ++ added]> (lists s)) (graphs s)) /\
    Forall (expandable G ign) added.
Proof.
  intros HG Hl Hvb Hcl. revert s l HG Hl.
  induction its as [|its IH]; intros s l HG Hl Hseeds.
  - exists []. split; [|constructor]. simpl.
    rewrite app_nil_r, insert_id by done. by rewrite store_eta.
  - destruct (nodes_loop_ok G l ([], []) Hvb Hseeds) as [acc Hacc].
    assert (get_neighbours_and_vals G (PyList l) = Ok (dict_zip acc.1 acc.2))
      as Hd.
    { unfold get_neighbours_and_vals. simpl. by rewrite Hacc. }
    set (d := dict_zip acc.1 acc.2) in *.
    destruct (get_neighbours_and_vals_spec G l d Hd) as (Hwf & Hkeys & Hvals).
    assert (Forall (expandable G ign) (expand_neighbours ign d)) as Hnew.
    { apply Forall_forall. intros x Hx.
      apply (expand_neighbours_elem ign d x Hwf) in Hx as (v & Hv & Hnan).
      split.
      - destruct (proj1 (Hkeys x)) as (n & _ & He).
        { apply dict_get_is_Some. by exists v. }
        by eapply adj_closed_edge.
      - intros ->. apply dict_get_Some_elem, Hvals in Hv.
        unfold has_real_value, bound_to in *. rewrite Hv.
        specialize (Hnan eq_refl). by destruct v. }
    set (s1 := mkStore (<[nodes := l ++ expand_neighbours ign d]> (lists s))
                       (graphs s)).
    destruct (IH s1 (l ++ expand_neighbours ign d)) as (added & Hrun & Hadd).
    { done. }
    { simpl. apply lookup_insert_eq. }
    { rewrite forallb_app, Hseeds. simpl. apply forallb_forall.
      intros x Hx%list_elem_of_In.
      rewrite Forall_forall in Hnew. by apply Hnew. }
    exists (expand_neighbours ign d ++ added). split.
    + simpl. unfold mbind, M_bind, read_graph, read_list, lift, list_extend.
      rewrite HG, Hl, Hd. simpl. rewrite Hl. simpl. fold s1. rewrite Hrun.
      simpl. by rewrite insert_insert_eq, app_assoc.
    + by apply Forall_app.
Qed.

(** X8. On a graph whose adjacency is closed and whose neighbours all hold a
    value, [expand_nodes] called on a list of nodes of the graph never
    raises, for any stepsize: the caller's list grows by nodes of the graph
    only, the new nodes are, each once, the added nodes that were not in the
    list before, and when the missing values are ignored every added node
    holds a real value. *)
Theorem expand_nodes_total (s : store) (g nodes : ref) (G : Graph)
    (l : list Z) (stepsize : Z) (ignore_nans : bool) :
  graphs s !! g = Some G ->
  lists s !! nodes = Some l ->
  values_bound G = true ->
  adj_closed G = true ->
  forallb (seed_in_graph G) l = true ->
  exists added new_nodes,
    expand_nodes g nodes stepsize ignore_nans s =
      (Ok (nodes, new_nodes),
       mkStore (<[nodes := l ++ added]> (lists s)) (graphs s)) /\
    Forall (expandable G ignore_nans) added /\
    NoDup new_nodes /\
    forall x, x ∈ new_nodes <-> x ∈ added /\ x ∉ l.
Proof.
  intros HG Hl Hvb Hcl Hseeds.
  destruct (expand_loop_run g nodes ignore_nans (range_len stepsize) s G l)
    as (added & Hrun & Hadd); [done..|].
  exists added. unfold expand_nodes, mbind, M_bind, read_list.
  rewrite Hl, Hrun. simpl. rewrite lookup_insert_eq. unfold mret, M_ret.
  eexists. split_and!; [done|done|apply NoDup_elements|].
  intros x. rewrite elem_of_elements, elem_of_difference,
    !elem_of_list_to_set, elem_of_app. tauto.
Qed.

Lemma expand_nodes_total_witness :
  let s := caller_store in
  graphs s !! 0%nat = Some two_faces /\
  lists s !! 0%nat = Some [0] /\
  values_bound two_faces = true /\
  adj_closed two_faces = true /\
  forallb (seed_in_graph two_faces) [0] = true /\
  exists added new_nodes,
    expand_nodes 0%nat 0%nat 2 true s =
      (Ok (0%nat, new_nodes),
       mkStore (<[0%nat := [0] ++ added]> (lists s)) (graphs s)) /\
    Forall (expandable two_faces true) added /\
    NoDup new_nodes /\
    forall x, x ∈ new_nodes <-> x ∈ added /\ x ∉ [0].
Proof.
  intros s. split_and!; [reflexivity..|].
  apply (expand_nodes_total s 0%nat 0%nat two_faces [0] 2 true); reflexivity.
Defined.

(** ** Binding the map to the graph *)

Lemma array_item_index_ok map_data i :
  index_ok map_data i = true -> is_ok (array_item map_data i).
Proof.
  unfold index_ok, array_item. rewrite andb_true_iff, Z.leb_le, Z.ltb_lt.
  intros [Hlo Hhi].
  destruct (0 <=? i) eqn:E0; simpl.
  - apply Z.leb_le in E0. rewrite (proj2 (Z.ltb_lt _ _) Hhi).
    destruct (lookup_lt_is_Some_2 map_data (Z.to_nat i)) as [v ->]; [lia|].
    by eexists.
  - apply Z.leb_gt in E0.
    rewrite (proj2 (Z.leb_le _ _) Hlo), (proj2 (Z.ltb_lt _ _) E0). simpl.
    destruct (lookup_lt_is_Some_2 map_data
                (Z.to_nat (Z.of_nat (length map_data) + i))) as [v ->]; [lia|].
    by eexists.
Qed.

Lemma array_item_index_bad map_data i :
  index_ok map_data i = false -> array_item map_data i = Raise IndexError.
Proof.
  unfold index_ok, array_item. rewrite andb_false_iff, Z.leb_gt, Z.ltb_ge.
  intros H.
  destruct (0 <=? i) eqn:E0; simpl.
  - apply Z.leb_le in E0.
    destruct (i <? Z.of_nat (length map_data)) eqn:E1; simpl.
    + apply Z.ltb_lt in E1. lia.
    + assert ((i <? 0) = false) as -> by (apply Z.ltb_ge; lia).
      by rewrite andb_false_r.
  - apply Z.leb_gt in E0.
    destruct (- Z.of_nat (length map_data) <=? i) eqn:E1; simpl; [|done].
    apply Z.leb_le in E1. lia.
Qed.

Lemma array_item_raise map_data i e :
  array_item map_data i = Raise e -> e = IndexError.
Proof.
  unfold array_item. repeat case_match; congruence.
Qed.

Lemma array_take_ok map_data idx :
  forallb (index_ok map_data) idx = true ->
  exists vs, array_take map_data idx = Ok vs /\
             Forall2 (fun i v => array_item map_data i = Ok v) idx vs.
Proof.
  induction idx as [|i idx IH]; simpl.
  - intros _. exists []. split; [done|constructor].
  - rewrite andb_true_iff. intros [Hi Hidx].
    destruct (array_item_index_ok map_data i Hi) as [v Hv].
    destruct (IH Hidx) as (vs & Hvs & HF).
    exists (v :: vs). rewrite Hv, Hvs. simpl. split; [done|]. by constructor.
Qed.

Lemma array_take_bad map_data idx :
  forallb (index_ok map_data) idx = false ->
  array_take map_data idx = Raise IndexError.
Proof.
  induction idx as [|i idx IH]; simpl; [done|].
  rewrite andb_false_iff.
  destruct (index_ok map_data i) eqn:Hi.
  - intros [?|Hidx]; [done|].
    destruct (array_item_index_ok map_data i Hi) as [v ->]. simpl.
    by rewrite IH.
  - intros _. by rewrite array_item_index_bad.
Qed.

Lemma add_map_to_surface_raises_index s g nodes_to_map map_data :
  forallb (index_ok map_data) nodes_to_map = false ->
  add_map_to_surface g nodes_to_map map_data s = (Raise IndexError, s).
Proof.
  intros H. unfold add_map_to_surface, mbind, M_bind, lift.
  by rewrite array_take_bad.
Qed.

(** X9. When some index of [nodes_to_map] is outside the bounds of the map
    array (numpy accepts [-len <= i < len]), [add_map_to_surface] raises
    [IndexError] before it touches the graph: the store is as it was.  This
    holds also for an index that no node would have been paired with. *)
Theorem add_map_to_surface_index_error (s : store) (g : ref)
    (nodes_to_map : list Z) (map_data : list val) :
  forallb (index_ok map_data) nodes_to_map = false ->
  add_map_to_surface g nodes_to_map map_data s = (Raise IndexError, s).
Proof.
  intros H. unfold add_map_to_surface, mbind, M_bind, lift.
  by rewrite array_take_bad.
Qed.

Lemma add_map_to_surface_index_error_witness :
  forallb (index_ok sample_map) [0; 1; 2; 3; 4] = false /\
  add_map_to_surface 0%nat [0; 1; 2; 3; 4] sample_map (store_of two_faces)
    = (Raise IndexError, store_of two_faces).
Proof.
  split; [reflexivity|].
  apply (add_map_to_surface_index_error (store_of two_faces) 0%nat
           [0; 1; 2; 3; 4] sample_map).
  reflexivity.
Defined.

Lemma combine_keys_subseteq {V} (ks : list Z) (vs : list V) k :
  k ∈ (combine ks vs).*1 -> k ∈ ks.
Proof.
  revert vs. induction ks as [|k0 ks IH]; intros [|v vs]; simpl;
    try (intros H; by apply elem_of_nil in H).
  intros [->|H]%elem_of_cons; apply elem_of_cons; [by left|right].
  by eapply IH.
Qed.

Lemma combine_wf {V} (ks : list Z) (vs : list V) :
  NoDup ks -> dict_wf (combine ks vs).
Proof.
  unfold dict_wf, dict_keys. intros Hnd. revert vs.
  induction Hnd as [|k ks Hk Hnd IH]; intros [|v vs]; simpl;
    try apply NoDup_nil_2.
  apply NoDup_cons. split; [|apply IH].
  intros Hin. apply Hk. by eapply combine_keys_subseteq.
Qed.

Lemma dict_zip_NoDup {V} (ks : list Z) (vs : list V) :
  NoDup ks -> dict_zip ks vs = combine ks vs.
Proof. intros H. apply dict_update_nil. by apply combine_wf. Qed.

Lemma combine_lookup {V} (ks : list Z) (vs : list V) i k v :
  ks !! i = Some k -> vs !! i = Some v -> (k, v) ∈ combine ks vs.
Proof.
  revert ks vs. induction i as [|i IH]; intros [|k0 ks] [|v0 vs]; simpl;
    try done.
  - intros [= ->] [= ->]. apply elem_of_cons. by left.
  - intros Hk Hv. apply elem_of_cons. right. by apply IH.
Qed.

Lemma combine_keys_short {V} (ks : list Z) (vs : list V) i k :
  NoDup ks -> ks !! i = Some k -> (length vs <= i)%nat ->
  k ∉ (combine ks vs).*1.
Proof.
  intros Hnd. revert vs i.
  induction Hnd as [|k0 ks Hk0 Hnd IH]; intros [|v vs] [|i]; simpl;
    try done; try (intros; apply not_elem_of_nil).
  - lia.
  - intros Hk Hlen. apply not_elem_of_cons. split.
    + intros ->. apply Hk0. by eapply list_elem_of_lookup_2.
    + apply (IH vs i); [done|lia].
Qed.

(** A run of [add_map_to_surface] with indices in bounds, on a graph whose
    nodes are listed once. *)
Lemma add_map_to_surface_run s g G nodes_to_map map_data :
  graphs s !! g = Some G ->
  dict_wf (node G) ->
  forallb (index_ok map_data) nodes_to_map = true ->
  exists G',
    add_map_to_surface g nodes_to_map map_data s =
      (Ok g, mkStore (lists s) (<[g := G']> (graphs s))) /\
    adj G' = adj G /\
    dict_keys (node G') = dict_keys (node G) /\
    (forall i n j v,
       dict_keys (node G) !! i = Some n -> nodes_to_map !! i = Some j ->
       array_item map_data j = Ok v ->
       dict_get (node G') n = Some (Some v)) /\
    (forall i n,
       dict_keys (node G) !! i = Some n -> (length nodes_to_map <= i)%nat ->
       dict_get (node G') n = dict_get (node G) n).
Proof.
  intros HG Hwf Hidx.
  destruct (array_take_ok map_data nodes_to_map Hidx) as (color_map & Hcm & HF).
  unfold add_map_to_surface, mbind, M_bind, lift, read_graph, write_graph.
  rewrite Hcm. simpl. rewrite HG. simpl.
  eexists. split; [done|].
  rewrite (dict_zip_NoDup _ color_map Hwf).
  split_and!.
  - apply set_node_attributes_adj.
  - apply set_node_attributes_keys.
  - intros i n j v Hn Hj Hv.
    destruct (Forall2_lookup_l _ _ _ _ _ HF Hj) as (v' & Hv' & Hitem).
    assert (v' = v) as -> by congruence.
    apply set_node_attributes_staged.
    + by apply combine_wf.
    + apply dict_wf_get; [by apply combine_wf|]. by eapply combine_lookup.
    + apply has_node_spec. by eapply list_elem_of_lookup_2.
  - intros i n Hn Hlen. apply set_node_attributes_other.
    apply (combine_keys_short _ color_map i n Hwf Hn).
    by rewrite <- (Forall2_length _ _ _ HF).
Qed.

(** X10. [add_map_to_surface] with all indices in bounds, on a graph whose
    nodes are listed once: it returns the graph it was given, written in
    place, with the same nodes and edges.  The binding is by position: the
    i-th node of the graph gets the map value at the i-th index of
    [nodes_to_map], and a node beyond the end of [nodes_to_map] keeps the
    attributes it had. *)
Theorem add_map_to_surface_by_position (s : store) (g : ref) (G : Graph)
    (nodes_to_map : list Z) (map_data : list val) :
  graphs s !! g = Some G ->
  dict_wf (node G) ->
  forallb (index_ok map_data) nodes_to_map = true ->
  exists G',
    add_map_to_surface g nodes_to_map map_data s =
      (Ok g, mkStore (lists s) (<[g := G']> (graphs s))) /\
    adj G' = adj G /\
    dict_keys (node G') = dict_keys (node G) /\
    (forall i n j v,
       dict_keys (node G) !! i = Some n -> nodes_to_map !! i = Some j ->
       array_item map_data j = Ok v ->
       dict_get (node G') n = Some (Some v)) /\
    (forall i n,
       dict_keys (node G) !! i = Some n -> (length nodes_to_map <= i)%nat ->
       dict_get (node G') n = dict_get (node G) n).
Proof.
  intros HG Hwf Hidx.
  destruct (add_map_to_surface_run s g G nodes_to_map map_data HG Hwf Hidx)
    as (G' & Hrun & Hadj & Hkeys & Hin & Hout).
  exists G'. by split_and!.
Qed.

Lemma add_map_to_surface_by_position_witness :
  let s := store_of bare_mesh in
  let G := bare_mesh in
  let nodes_to_map := [3; -1] in
  graphs s !! 0%nat = Some G /\
  dict_wf (node G) /\
  forallb (index_ok sample_map) nodes_to_map = true /\
  exists G',
    add_map_to_surface 0%nat nodes_to_map sample_map s =
      (Ok 0%nat, mkStore (lists s) (<[0%nat := G']> (graphs s))) /\
    adj G' = adj G /\
    dict_keys (node G') = dict_keys (node G) /\
    (forall i n j v,
       dict_keys (node G) !! i = Some n -> nodes_to_map !! i = Some j ->
       array_item sample_map j = Ok v ->
       dict_get (node G') n = Some (Some v)) /\
    (forall i n,
       dict_keys (node G) !! i = Some n -> (length nodes_to_map <= i)%nat ->
       dict_get (node G') n = dict_get (node G) n).
Proof.
  intros s G nodes_to_map.
  assert (dict_wf (node G)) as Hwf.
  { apply (bool_decide_unpack _). vm_compute. exact I. }
  split_and!; [reflexivity|exact Hwf|reflexivity|].
  apply (add_map_to_surface_by_position s 0%nat G nodes_to_map sample_map);
    [reflexivity|exact Hwf|reflexivity].
Defined.

(** ** From the two files to the graph *)

Lemma np_unique_NoDup l : NoDup (np_unique l).
Proof.
  unfold np_unique. rewrite merge_sort_Permutation. apply NoDup_remove_dups.
Qed.

Lemma elem_of_np_unique l x : x ∈ np_unique l <-> x ∈ l.
Proof.
  unfold np_unique. rewrite merge_sort_Permutation. apply elem_of_remove_dups.
Qed.

Lemma np_unique_sorted l : Sorted Z.le (np_unique l).
Proof. unfold np_unique. apply Sorted_merge_sort. intros x y. lia. Qed.

Lemma add_nodes_from_fresh l G :
  NoDup l -> (forall x, x ∈ l -> x ∉ dict_keys (node G)) ->
  node (add_nodes_from G l) = node G ++ map (fun n => (n, None)) l.
Proof.
  unfold add_nodes_from. intros Hnd. revert G.
  induction Hnd as [|n l Hn Hnd IH]; intros G Hfresh; simpl.
  - by rewrite app_nil_r.
  - assert (n ∉ dict_keys (node G)) as HnG.
    { apply Hfresh, elem_of_cons. by left. }
    unfold add_node at 2. rewrite (proj2 (dict_mem_false _ _) HnG).
    rewrite IH; simpl.
    + rewrite dict_set_fresh by done. by rewrite <- app_assoc.
    + intros x Hx. rewrite dict_keys_set, (proj2 (dict_mem_false _ _) HnG).
      rewrite elem_of_app, list_elem_of_singleton.
      intros [Hin| ->]; [|done]. revert Hin. apply Hfresh, elem_of_cons.
      by right.
Qed.

(** With node ids listed once that cover the face table, the nodes of the
    built graph are the ids, in the order given, with no attribute. *)
Lemma nifti_to_graph_nodes mesh_faces nodes_to_add :
  NoDup nodes_to_add ->
  (forall x, x ∈ concat mesh_faces -> x ∈ nodes_to_add) ->
  node (nifti_to_graph mesh_faces nodes_to_add) =
  map (fun n => (n, None)) nodes_to_add.
Proof.
  intros Hnd Hcover. unfold nifti_to_graph.
  assert (node (add_nodes_from empty_graph nodes_to_add)
          = map (fun n => (n, None)) nodes_to_add) as H0.
  { rewrite add_nodes_from_fresh; [done|done|].
    intros x _. apply not_elem_of_nil. }
  revert H0. generalize (add_nodes_from empty_graph nodes_to_add).
  induction mesh_faces as [|row rows IH]; intros G HG; simpl; [done|].
  apply IH.
  - intros x Hx. apply Hcover. simpl. apply elem_of_app. by right.
  - rewrite add_edges_from_known; [done|].
    intros e [H1 H2]%combinations2_in_row.
    assert (forall x, x ∈ row -> has_node G x = true) as Hrow.
    { intros x Hx. apply has_node_spec. rewrite HG. unfold dict_keys.
      rewrite map_map. simpl. rewrite map_id.
      apply Hcover. simpl. apply elem_of_app. by left. }
    split; by apply Hrow.
Qed.

Lemma dict_keys_bare (l : list Z) :
  dict_keys (map (fun n => (n, @None val)) l) = l.
Proof. unfold dict_keys. rewrite map_map. simpl. apply map_id. Qed.

Lemma surf_and_map_to_graph_index_error s mesh_faces map_data :
  forallb (index_ok map_data) (concat mesh_faces) = false ->
  (surf_and_map_to_graph mesh_faces map_data s).1 = Raise IndexError.
Proof.
  intros Hbad.
  unfold surf_and_map_to_graph, load_surface_info, mbind, M_bind,
    alloc_graph. simpl.
  rewrite add_map_to_surface_raises_index; [done|].
  apply not_true_iff_false. intros Hall.
  apply not_true_iff_false in Hbad. apply Hbad.
  rewrite forallb_forall in Hall. apply forallb_forall.
  intros x Hx%list_elem_of_In. apply Hall, list_elem_of_In.
  by apply elem_of_np_unique.
Qed.

(** A run of [surf_and_map_to_graph] on ids that index the map array. *)
Lemma surf_and_map_to_graph_run (s : store)
    (mesh_faces : list (list Z)) (map_data : list val) :
  Forall (fun n => 0 <= n < Z.of_nat (length map_data)) (concat mesh_faces) ->
  let ids := np_unique (concat mesh_faces) in
  exists G,
    surf_and_map_to_graph mesh_faces map_data s =
      (Ok (fresh (dom (graphs s))), with_copy s G) /\
    dict_keys (node G) = ids /\
    Sorted Z.le ids /\
    adj G = adj (nifti_to_graph mesh_faces ids) /\
    forall n, n ∈ concat mesh_faces ->
      exists v, map_data !! Z.to_nat n = Some v /\
                dict_get (node G) n = Some (Some v).
Proof.
  intros Hrange ids. rewrite Forall_forall in Hrange.
  set (G0 := nifti_to_graph mesh_faces ids).
  set (g := fresh (dom (graphs s))).
  set (s1 := mkStore (lists s) (<[g := G0]> (graphs s))).
  assert (node G0 = map (fun n => (n, None)) ids) as Hnode.
  { apply nifti_to_graph_nodes; [apply np_unique_NoDup|].
    intros x Hx. by apply elem_of_np_unique. }
  assert (dict_keys (node G0) = ids) as Hkeys.
  { rewrite Hnode. apply dict_keys_bare. }
  destruct (add_map_to_surface_run s1 g G0 ids map_data)
    as (G & Hrun & Hadj & HkG & Hin & _).
  { simpl. apply lookup_insert_eq. }
  { unfold dict_wf. rewrite Hkeys. apply np_unique_NoDup. }
  { apply forallb_forall. intros x Hx%list_elem_of_In.
    apply (elem_of_np_unique (concat mesh_faces)) in Hx.
    unfold index_ok. apply andb_true_iff. rewrite Z.leb_le, Z.ltb_lt.
    specialize (Hrange x Hx). lia. }
  exists G. split_and!.
  - unfold surf_and_map_to_graph, load_surface_info, mbind, M_bind,
      alloc_graph. simpl. fold ids G0 g s1. rewrite Hrun. simpl.
    unfold with_copy. fold g. by rewrite insert_insert_eq.
  - congruence.
  - apply np_unique_sorted.
  - done.
  - intros n Hn. specialize (Hrange n Hn).
    destruct (lookup_lt_is_Some_2 map_data (Z.to_nat n)) as [v Hv]; [lia|].
    exists v. split; [done|].
    assert (n ∈ ids) as [i Hi]%list_elem_of_lookup
      by (by apply elem_of_np_unique).
    apply (Hin i n n v); [by rewrite Hkeys|done|].
    unfold array_item.
    rewrite (proj2 (Z.leb_le _ _) (proj1 Hrange)),
      (proj2 (Z.ltb_lt _ _) (proj2 Hrange)). simpl. by rewrite Hv.
Qed.


(** X11. [surf_and_map_to_graph] on a face table whose vertex ids are valid
    indices of the map array ([0 <= id < len]): it returns a new graph whose
    nodes are the distinct ids of the table in increasing order, whose edges
    are those of [nifti_to_graph], and in which every node [n] holds the map
    value at index [n]. *)
Theorem surf_and_map_to_graph_binds (s : store)
    (mesh_faces : list (list Z)) (map_data : list val) :
  Forall (fun n => 0 <= n < Z.of_nat (length map_data)) (concat mesh_faces) ->
  let ids := np_unique (concat mesh_faces) in
  exists G,
    surf_and_map_to_graph mesh_faces map_data s =
      (Ok (fresh (dom (graphs s))), with_copy s G) /\
    dict_keys (node G) = ids /\
    Sorted Z.le ids /\
    adj G = adj (nifti_to_graph mesh_faces ids) /\
    forall n, n ∈ concat mesh_faces ->
      exists v, map_data !! Z.to_nat n = Some v /\
                dict_get (node G) n = Some (Some v).
Proof.
  intros Hrange ids.
  destruct (surf_and_map_to_graph_run s mesh_faces map_data Hrange)
    as (G & Hrun & Hkeys & Hsorted & Hadj & Hvals).
  exists G. by split_and!.
Qed.

Lemma surf_and_map_to_graph_binds_witness :
  let s := store_of two_faces in
  Forall (fun n => 0 <= n < Z.of_nat (length sample_map))
         (concat sample_faces) /\
  let ids := np_unique (concat sample_faces) in
  exists G,
    surf_and_map_to_graph sample_faces sample_map s =
      (Ok (fresh (dom (graphs s))), with_copy s G) /\
    dict_keys (node G) = ids /\
    Sorted Z.le ids /\
    adj G = adj (nifti_to_graph sample_faces ids) /\
    forall n, n ∈ concat sample_faces ->
      exists v, sample_map !! Z.to_nat n = Some v /\
                dict_get (node G) n = Some (Some v).
Proof.
  intros s.
  assert (Forall (fun n => 0 <= n < Z.of_nat (length sample_map))
                 (concat sample_faces)) as H.
  { simpl. repeat constructor; simpl; lia. }
  split; [exact H|].
  apply (surf_and_map_to_graph_binds s sample_faces sample_map H).
Defined.

(** ** A graph without attributes *)

Lemma add_node_bare G n :
  (forall x a, dict_get (node G) x = Some a -> a = None) ->
  forall x a, dict_get (node (add_node G n)) x = Some a -> a = None.
Proof.
  intros HG x a. unfold add_node. destruct (dict_mem (node G) n); [apply HG|].
  simpl. destruct (decide (n = x)) as [->|Hne].
  - rewrite dict_get_set_eq. congruence.
  - rewrite dict_get_set_ne by done. apply HG.
Qed.

Lemma nifti_to_graph_bare mesh_faces nodes_to_add x a :
  dict_get (node (nifti_to_graph mesh_faces nodes_to_add)) x = Some a ->
  a = None.
Proof.
  unfold nifti_to_graph. revert x a.
  assert (forall l G,
            (forall x a, dict_get (node G) x = Some a -> a = None) ->
            forall x a, dict_get (node (add_nodes_from G l)) x = Some a ->
                        a = None) as Hnodes.
  { unfold add_nodes_from. induction l as [|n l IH]; intros G HG; simpl;
      [done|]. by apply IH, add_node_bare. }
  assert (forall l G,
            (forall x a, dict_get (node G) x = Some a -> a = None) ->
            forall x a, dict_get (node (add_edges_from G l)) x = Some a ->
                        a = None) as Hedges.
  { unfold add_edges_from. induction l as [|e l IH]; intros G HG; simpl;
      [done|]. apply IH. unfold add_edge. simpl.
    by apply add_node_bare, add_node_bare. }
  specialize (Hnodes nodes_to_add empty_graph).
  revert Hnodes. generalize (add_nodes_from empty_graph nodes_to_add).
  induction mesh_faces as [|row rows IH]; intros G HG; simpl.
  - by apply HG.
  - apply IH. intros _. by apply Hedges, HG.
Qed.

Lemma get_neighbours_and_vals_raise G l e :
  get_neighbours_and_vals G (PyList l) = Raise e -> e = KeyError.
Proof.
  unfold get_neighbours_and_vals. simpl.
  destruct (nodes_loop G l ([], [])) as [acc|e'] eqn:E; simpl; [done|].
  intros [= <-]. by eapply nodes_loop_raise.
Qed.

(** X12. A graph as [nifti_to_graph] builds it holds no scalar value.  On
    it [graph_has_attributes] answers [False] when 0 is a node and raises
    [KeyError] otherwise, and [get_neighbours_and_vals] raises [KeyError] as
    soon as some seed has a neighbour: the map must be bound before any
    neighbourhood is queried. *)
Theorem nifti_to_graph_unbound (mesh_faces : list (list Z))
    (nodes_to_add seeds : list Z) :
  let G := nifti_to_graph mesh_faces nodes_to_add in
  (forall n, has_value G n = false) /\
  graph_has_attributes G =
    (if has_node G 0 then Ok false else Raise KeyError) /\
  ((exists n k, n ∈ seeds /\ has_edge G n k = true) ->
   get_neighbours_and_vals G (PyList seeds) = Raise KeyError).
Proof.
  intros G. split_and!.
  - intros n. unfold has_value.
    destruct (dict_get (node G) n) as [[v|]|] eqn:E; try done.
    by apply nifti_to_graph_bare in E.
  - unfold graph_has_attributes, has_node, dict_mem, dict_item.
    destruct (dict_get (node G) 0) as [a|] eqn:E; [|done].
    apply nifti_to_graph_bare in E as ->. done.
  - intros (n & k & Hn & He).
    destruct (get_neighbours_and_vals G (PyList seeds)) as [d|e] eqn:Hd.
    + exfalso.
      destruct (get_neighbours_and_vals_spec G seeds d Hd) as (_ & Hk & Hv).
      assert (k ∈ dict_keys d) as [v Hkv]%dict_get_is_Some
        by (apply Hk; by exists n).
      apply dict_get_Some_elem, Hv in Hkv.
      by apply nifti_to_graph_bare in Hkv.
    + f_equal. by eapply get_neighbours_and_vals_raise.
Qed.

(** ** Border detection when the global name is bound *)

Lemma existsb_elem_of {A} (f : A -> bool) (l1 l2 : list A) :
  (forall x, x ∈ l1 <-> x ∈ l2) -> existsb f l1 = existsb f l2.
Proof.
  intros H. apply eq_true_iff_eq. rewrite !existsb_exists.
  split; intros (x & Hx%list_elem_of_In & Hf); exists x;
    (split; [apply list_elem_of_In; by apply H|done]).
Qed.

Lemma is_border_outside_neighbour env G region n lc :
  label_coords env = Some lc ->
  values_bound G = true ->
  seed_in_graph G n = true ->
  is_node_on_region_border env G region n = Ok (outside_neighbour G lc n).
Proof.
  intros Hlc HG Hn.
  destruct (nodes_loop_ok G [n] ([], []) HG) as [acc Hacc];
    [by simpl; rewrite Hn|].
  assert (get_neighbours_and_vals G (PyList [n]) = Ok (dict_zip acc.1 acc.2))
    as Hd.
  { unfold get_neighbours_and_vals. simpl nodes_loop in *. simpl.
    by rewrite Hacc. }
  destruct (is_border_reads_global env G region n _ lc Hd Hlc)
    as (b & -> & Hb).
  f_equal. apply eq_true_iff_eq. rewrite Hb.
  destruct (get_neighbours_and_vals_spec G [n] _ Hd) as (_ & Hk & _).
  unfold outside_neighbour, seed_in_graph, dict_mem in *.
  destruct (dict_get (adj G) n) as [nbrs|] eqn:En; [|done].
  rewrite existsb_exists. split.
  - intros (x & Hx & Hout). exists x. split.
    + apply list_elem_of_In. apply Hk in Hx as (m & ->%list_elem_of_singleton & He).
      apply has_edge_spec in He as (nbrs' & Hn' & Hx). congruence.
    + by apply bool_decide_eq_true.
  - intros (x & Hx%list_elem_of_In & Hout%bool_decide_eq_true).
    exists x. split; [|done]. apply Hk. exists n.
    split; [by apply list_elem_of_singleton|].
    apply has_edge_spec. by exists nbrs.
Qed.

Lemma border_loop_filter env G region lc nodes acc :
  label_coords env = Some lc ->
  values_bound G = true ->
  forallb (seed_in_graph G) nodes = true ->
  border_loop env G region nodes acc =
  Ok (acc ++ List.filter (outside_neighbour G lc) nodes).
Proof.
  intros Hlc HG. revert acc. induction nodes as [|n rest IH]; intros acc; simpl.
  - intros _. by rewrite app_nil_r.
  - rewrite andb_true_iff. intros [Hn Hrest].
    rewrite (is_border_outside_neighbour env G region n lc) by done. simpl.
    rewrite IH by done.
    destruct (outside_neighbour G lc n); [|done]. by rewrite <- app_assoc.
Qed.

(** X13. When the caller binds the global name [label_coords], on a graph
    whose neighbours all hold a value and for nodes of the graph,
    [find_region_border] returns, in their order, the nodes of its argument
    that have a neighbour outside [label_coords]: the region that counts is
    the global one, whatever list is passed. *)
Theorem find_region_border_filter (env : globals) (G : Graph)
    (lc nodes : list Z) :
  label_coords env = Some lc ->
  values_bound G = true ->
  forallb (seed_in_graph G) nodes = true ->
  find_region_border env G nodes =
  Ok (List.filter (outside_neighbour G lc) nodes).
Proof.
  intros Hlc HG Hnodes. unfold find_region_border.
  by rewrite (border_loop_filter env G nodes lc nodes []).
Qed.

Lemma find_region_border_filter_witness :
  let env := mkGlobals (Some [0; 1; 2]) in
  label_coords env = Some [0; 1; 2] /\
  values_bound two_faces = true /\
  forallb (seed_in_graph two_faces) [0; 1; 2] = true /\
  find_region_border env two_faces [0; 1; 2] =
  Ok (List.filter (outside_neighbour two_faces [0; 1; 2]) [0; 1; 2]).
Proof.
  intros env. split_and!; [reflexivity..|].
  apply (find_region_border_filter env two_faces [0; 1; 2] [0; 1; 2]);
    reflexivity.
Defined.

(** ** Region filter *)

(** X14. [remove_out_of_region_nodes] returns, each once, the nodes that
    are in both lists; it does not look at the graph; swapping the two lists
    or filtering the result again gives the same nodes (up to their
    order). *)
Theorem remove_out_of_region_nodes_inter (G G' : Graph)
    (region_nodes nodes : list Z) :
  let out := remove_out_of_region_nodes G region_nodes nodes in
  NoDup out /\
  (forall x, x ∈ out <-> x ∈ region_nodes /\ x ∈ nodes) /\
  out = remove_out_of_region_nodes G' region_nodes nodes /\
  remove_out_of_region_nodes G nodes region_nodes ≡ₚ out /\
  remove_out_of_region_nodes G region_nodes out ≡ₚ out.
Proof.
  intros out. unfold out, remove_out_of_region_nodes.
  assert (forall l1 l2 x,
            x ∈ elements ((list_to_set l1 : gset Z) ∩ list_to_set l2) <->
            x ∈ l1 /\ x ∈ l2) as Hin.
  { intros l1 l2 x.
    by rewrite elem_of_elements, elem_of_intersection, !elem_of_list_to_set. }
  split_and!.
  - apply NoDup_elements.
  - intros x. apply Hin.
  - done.
  - apply NoDup_Permutation; [apply NoDup_elements..|].
    intros x. rewrite !Hin. tauto.
  - apply NoDup_Permutation; [apply NoDup_elements..|].
    intros x. rewrite !Hin. tauto.
Qed.

(** ** Reading the attributes back *)

Lemma attributes_loop_bad G nodes tmp :
  forallb (has_value G) nodes = false ->
  attributes_loop G nodes tmp = Raise KeyError.
Proof.
  revert tmp. induction nodes as [|n rest IH]; intros tmp; simpl; [done|].
  unfold has_value at 1, dict_item.
  destruct (dict_get (node G) n) as [[v|]|]; simpl; try done.
  apply IH.
Qed.

Lemma attributes_loop_total G nodes :
  if forallb (has_value G) nodes
  then exists vals, attributes_loop G nodes [] = Ok vals /\
                    Forall2 (bound_to G) nodes vals
  else attributes_loop G nodes [] = Raise KeyError.
Proof.
  destruct (forallb (has_value G) nodes) eqn:E.
  - destruct (attributes_loop_ok G nodes [] E) as (vals & Hvals & _).
    exists vals. split; [done|].
    by apply attributes_loop_spec in Hvals as (vals' & [= ->] & HF).
  - by apply attributes_loop_bad.
Qed.

(** X15. [get_node_attributes_as_list] reads the nodes of its list, or all
    the nodes of the graph when the list is empty.  When each of them holds
    a value it returns their values in order; otherwise (a node that is not
    in the graph, or one without a value) it raises [KeyError].  So
    [nodes_gradient_step] on the empty list returns the empty list only when
    every node of the graph holds a value, and raises [KeyError]
    otherwise. *)
Theorem get_node_attributes_as_list_total (G : Graph) (nodes : list Z)
    (stepsize : Z) :
  let targets := attribute_targets G nodes in
  (if forallb (has_value G) targets
   then exists vals, get_node_attributes_as_list G nodes = Ok vals /\
                     Forall2 (bound_to G) targets vals
   else get_node_attributes_as_list G nodes = Raise KeyError) /\
  nodes_gradient_step G [] stepsize =
    (if forallb (has_value G) (dict_keys (node G)) then Ok []
     else Raise KeyError).
Proof.
  intros targets. split.
  - apply (attributes_loop_total G targets).
  - unfold nodes_gradient_step.
    pose proof (attributes_loop_total G (dict_keys (node G))) as H.
    change (get_node_attributes_as_list G [])
      with (attributes_loop G (dict_keys (node G)) []).
    destruct (forallb (has_value G) (dict_keys (node G))).
    + by destruct H as (vals & -> & _).
    + by rewrite H.
Qed.

Lemma get_node_attributes_as_list_eq G :
  get_node_attributes_as_list G (dict_keys (node G)) =
  attributes_loop G (dict_keys (node G)) [].
Proof.
  unfold get_node_attributes_as_list. by destruct (dict_keys (node G)).
Qed.

(** ** The file extension *)

(** X16. [handle_ext] raises [IndexError] on the empty string and on nothing
    else; its result starts with a dot, is the argument itself or the
    argument with a dot in front, and is left as it is by a second call. *)
Theorem handle_ext_dot (ext : string) :
  match handle_ext ext with
  | Ok e =>
      (exists rest, e = String "."%char rest) /\
      (e = ext \/ e = String "."%char ext) /\
      handle_ext e = Ok e
  | Raise err => ext = EmptyString /\ err = IndexError
  end.
Proof.
  destruct ext as [|c rest]; simpl; [done|].
  destruct (Ascii.eqb c ".") eqn:E; simpl.
  - split_and!; [|by left|by rewrite E].
    apply Ascii.eqb_eq in E as ->. by eexists.
  - split_and!; [by eexists|by right|done].
Qed.

(** ** The unfinished clustering *)

Lemma clusters_loop_unbound G map_data :
  map_data <> [] -> clusters_loop None G map_data = Raise NameError.
Proof. by destruct map_data. Qed.

(** X17. [define_map_clusters], with the module as it is written (the name
    [nodes] is not bound): on a graph without nodes it returns; on a graph
    whose nodes all hold a value it raises [NameError]; when some node holds
    no value it raises [KeyError]. *)
Theorem define_map_clusters_unbound (G : Graph) :
  define_map_clusters None G =
  match node G with
  | [] => Ok tt
  | _ => if forallb (has_value G) (dict_keys (node G))
         then Raise NameError else Raise KeyError
  end.
Proof.
  unfold define_map_clusters, get_map_data_as_list.
  rewrite get_node_attributes_as_list_eq.
  pose proof (attributes_loop_total G (dict_keys (node G))) as H.
  destruct (node G) as [|[n a] rest]; [done|].
  destruct (forallb (has_value G) (dict_keys ((n, a) :: rest))).
  - destruct H as (vals & -> & HF). simpl.
    apply clusters_loop_unbound. intros ->. inversion HF.
  - by rewrite H.
Qed.

(** ** Invariants of the built graph *)

Lemma nifti_to_graph_facts mesh_faces nodes_to_add :
  let G := nifti_to_graph mesh_faces nodes_to_add in
  graph_wf G /\
  (forall u v, has_edge G u v = true -> has_node G v = true).
Proof.
  intros G. unfold G, nifti_to_graph.
  destruct (add_nodes_from_spec nodes_to_add _ graph_wf_empty)
    as (Hw0 & Hn0 & He0).
  destruct (faces_loop_spec mesh_faces _ Hw0) as (Hw & Hn & He).
  split; [done|].
  intros u v [H|(row & Hrow & Hc)]%He.
  - by rewrite He0 in H.
  - apply Hn. right.
    apply cooccur_combinations2 in Hc as [Hc|Hc].
    + exists row, (u, v). split_and!; [done..|by right].
    + exists row, (v, u). split_and!; [done..|by left].
Qed.

Lemma graph_wf_seed G n :
  graph_wf G -> seed_in_graph G n = has_node G n.
Proof.
  intros (Hk & _ & _). apply eq_true_iff_eq.
  unfold seed_in_graph, has_node. by rewrite !dict_mem_true, Hk.
Qed.

Lemma adj_closed_intro G :
  (forall u nbrs v, (u, nbrs) ∈ adj G -> v ∈ dict_keys nbrs ->
                    seed_in_graph G v = true) ->
  adj_closed G = true.
Proof.
  intros H. unfold adj_closed. apply forallb_forall.
  intros [u nbrs] Hin%list_elem_of_In. simpl. apply forallb_forall.
  intros v Hv%list_elem_of_In. by eapply H.
Qed.

Lemma graph_wf_adj_entry G u nbrs :
  graph_wf G -> (u, nbrs) ∈ adj G -> dict_get (adj G) u = Some nbrs.
Proof.
  intros (Hk & Hn & _) Hin. apply dict_wf_get; [|done].
  unfold dict_wf. by rewrite Hk.
Qed.

(** X18. Whatever the face table and the node ids, the graph that
    [nifti_to_graph] builds is well formed: nodes and adjacency have the same
    keys in the same order, each once, a neighbour is listed once, every
    neighbour is itself a node with an adjacency, and no edge leaves the
    graph. *)
Theorem nifti_to_graph_invariant (mesh_faces : list (list Z))
    (nodes_to_add : list Z) :
  let G := nifti_to_graph mesh_faces nodes_to_add in
  graph_wf G /\
  adj_closed G = true /\
  (forall u v, has_edge G u v = true ->
               has_node G u = true /\ has_node G v = true).
Proof.
  intros G.
  destruct (nifti_to_graph_facts mesh_faces nodes_to_add) as [Hwf Hedge].
  fold G in Hwf, Hedge. split_and!; [done| |].
  - apply adj_closed_intro. intros u nbrs v Hin Hv.
    rewrite graph_wf_seed by done. apply (Hedge u v).
    apply has_edge_spec. exists nbrs. split; [|done].
    by apply graph_wf_adj_entry.
  - intros u v He. split; [|by eapply Hedge].
    rewrite <- graph_wf_seed by done.
    apply has_edge_spec in He as (nbrs & Hu & _).
    unfold seed_in_graph, dict_mem. by rewrite Hu.
Qed.

(** ** The loaded graph *)

Lemma Forall2_impl_elem {A B} (P Q : A -> B -> Prop) l k :
  Forall2 P l k -> (forall x y, x ∈ l -> P x y -> Q x y) -> Forall2 Q l k.
Proof.
  induction 1 as [|x y l k HP _ IH]; intros H; constructor.
  - apply H; [apply elem_of_cons; by left|done].
  - apply IH. intros x' y' Hx'. apply H, elem_of_cons. by right.
Qed.

Lemma adj_closed_same_adj G G0 :
  adj G = adj G0 -> adj_closed G = adj_closed G0.
Proof.
  intros H. unfold adj_closed, seed_in_graph. by rewrite H.
Qed.

(** X19. The graph that [surf_and_map_to_graph] loads (vertex ids within
    the map array) is ready for the rest of the module: it is well formed,
    its adjacency is closed and every neighbour holds a value, so
    [get_neighbours_and_vals] returns for every list of vertex ids of the
    table; and [get_map_data_as_list] reads back the map values at the
    vertex ids, in increasing order of the ids. *)
Theorem surf_and_map_to_graph_ready (s : store)
    (mesh_faces : list (list Z)) (map_data : list val) :
  Forall (fun n => 0 <= n < Z.of_nat (length map_data)) (concat mesh_faces) ->
  exists G,
    surf_and_map_to_graph mesh_faces map_data s =
      (Ok (fresh (dom (graphs s))), with_copy s G) /\
    graph_wf G /\
    adj_closed G = true /\
    values_bound G = true /\
    (forall seeds, (forall n, n ∈ seeds -> n ∈ concat mesh_faces) ->
                   is_ok (get_neighbours_and_vals G (PyList seeds))) /\
    exists vals,
      get_map_data_as_list G = Ok vals /\
      Forall2 (fun n v => map_data !! Z.to_nat n = Some v)
              (np_unique (concat mesh_faces)) vals.
Proof.
  intros Hrange.
  destruct (surf_and_map_to_graph_run s mesh_faces map_data Hrange)
    as (G & Hrun & Hkeys & _ & Hadj & Hvals).
  set (ids := np_unique (concat mesh_faces)) in *.
  set (G0 := nifti_to_graph mesh_faces ids) in *.
  destruct (nifti_to_graph_facts mesh_faces ids) as [Hwf0 Hedge0].
  fold G0 in Hwf0, Hedge0.
  assert (node G0 = map (fun n => (n, None)) ids) as Hnode0.
  { apply nifti_to_graph_nodes; [apply np_unique_NoDup|].
    intros x Hx. by apply elem_of_np_unique. }
  assert (dict_keys (node G0) = ids) as Hkeys0.
  { rewrite Hnode0. apply dict_keys_bare. }
  assert (graph_wf G) as Hwf.
  { destruct Hwf0 as (Hk0 & Hn0 & Ha0). split_and!.
    - by rewrite Hadj, Hk0, Hkeys0, Hkeys.
    - unfold dict_wf. rewrite Hkeys. apply np_unique_NoDup.
    - rewrite Hadj. apply Ha0. }
  assert (forall n, seed_in_graph G n = true <-> n ∈ concat mesh_faces) as Hseed.
  { intros n. rewrite graph_wf_seed by done.
    rewrite has_node_spec, Hkeys. apply elem_of_np_unique. }
  assert (adj_closed G = true) as Hcl.
  { apply adj_closed_intro. intros u nbrs v Hin Hv.
    unfold seed_in_graph. rewrite Hadj.
    change (seed_in_graph G0 v = true). rewrite graph_wf_seed by done.
    apply (Hedge0 u v). apply has_edge_spec. exists nbrs. split; [|done].
    apply graph_wf_adj_entry; [done|]. by rewrite <- Hadj. }
  assert (forall n, n ∈ concat mesh_faces -> has_value G n = true) as Hhas.
  { intros n Hn. destruct (Hvals n Hn) as (v & _ & Hv).
    unfold has_value. by rewrite Hv. }
  assert (values_bound G = true) as Hvb.
  { unfold values_bound. apply forallb_forall.
    intros [u nbrs] Hin%list_elem_of_In. simpl. apply forallb_forall.
    intros v Hv%list_elem_of_In. apply Hhas, Hseed.
    eapply adj_closed_edge; [done|].
    apply has_edge_spec. exists nbrs. split; [|done].
    by apply graph_wf_adj_entry. }
  exists G. split_and!; [done..| |].
  - intros seeds Hseeds.
    destruct (nodes_loop_ok G seeds ([], []) Hvb) as [acc Hacc].
    { apply forallb_forall. intros x Hx%list_elem_of_In.
      by apply Hseed, Hseeds. }
    unfold get_neighbours_and_vals. simpl. rewrite Hacc. simpl. by eexists.
  - unfold get_map_data_as_list. rewrite get_node_attributes_as_list_eq.
    pose proof (attributes_loop_total G (dict_keys (node G))) as H.
    assert (forallb (has_value G) (dict_keys (node G)) = true) as Hall.
    { apply forallb_forall. intros x Hx%list_elem_of_In.
      apply Hhas. rewrite Hkeys in Hx.
      by apply (elem_of_np_unique (concat mesh_faces)) in Hx. }
    rewrite Hall in H. destruct H as (vals & -> & HF).
    exists vals. split; [done|]. rewrite Hkeys in HF.
    apply (Forall2_impl_elem _ _ _ _ HF). intros n v Hn Hnv.
    apply (elem_of_np_unique (concat mesh_faces)) in Hn.
    destruct (Hvals n Hn) as (v' & Hv' & Hget).
    unfold bound_to in Hnv. congruence.
Qed.

Lemma surf_and_map_to_graph_ready_witness :
  let s := store_of two_faces in
  Forall (fun n => 0 <= n < Z.of_nat (length sample_map))
         (concat sample_faces) /\
  exists G,
    surf_and_map_to_graph sample_faces sample_map s =
      (Ok (fresh (dom (graphs s))), with_copy s G) /\
    graph_wf G /\
    adj_closed G = true /\
    values_bound G = true /\
    (forall seeds, (forall n, n ∈ seeds -> n ∈ concat sample_faces) ->
                   is_ok (get_neighbours_and_vals G (PyList seeds))) /\
    exists vals,
      get_map_data_as_list G = Ok vals /\
      Forall2 (fun n v => sample_map !! Z.to_nat n = Some v)
              (np_unique (concat sample_faces)) vals.
Proof.
  intros s.
  assert (Forall (fun n => 0 <= n < Z.of_nat (length sample_map))
                 (concat sample_faces)) as H.
  { simpl. repeat constructor; simpl; lia. }
  split; [exact H|].
  apply (surf_and_map_to_graph_ready s sample_faces sample_map H).
Defined.

(** ** Local maxima and the climb *)

(** X20. A node that holds a value no neighbour exceeds stays where it is:
    on a non-empty list of such nodes (each with a value and at least one
    neighbour within the radius) [nodes_gradient_step] returns the list it
    was given. *)
Theorem nodes_gradient_step_local_maxima (G : Graph) (nodes : list Z)
    (k : Z) :
  nodes <> [] ->
  forallb (has_value G) nodes = true ->
  forallb (nonempty_neighbourhood G k) nodes = true ->
  (forall n m, n ∈ nodes -> has_edge G n m = true ->
               val_lt (value_of G n) (value_of G m) = false) ->
  nodes_gradient_step G nodes k = Ok nodes.
Proof.
  intros Hne Hvals Hnb Hmax.
  destruct (nodes_gradient_step_run G nodes k Hne Hvals Hnb) as (out & -> & HF).
  f_equal. clear -HF Hmax.
  induction HF as [|n m nodes out Hmove HF IH]; [done|].
  f_equal.
  - destruct Hmove as [->|(He & _ & Hlt)]; [done|].
    rewrite (Hmax n m) in Hlt; [done|apply elem_of_cons; by left|done].
  - apply IH. intros n' m' Hn'. apply Hmax, elem_of_cons. by right.
Qed.

Lemma nodes_gradient_step_local_maxima_witness :
  [1] <> [] /\
  forallb (has_value two_faces) [1] = true /\
  forallb (nonempty_neighbourhood two_faces 1) [1] = true /\
  nodes_gradient_step two_faces [1] 1 = Ok [1].
Proof.
  split_and!; [done|reflexivity|reflexivity|].
  apply (nodes_gradient_step_local_maxima two_faces [1] 1);
    [done|reflexivity|reflexivity|].
  intros n m ->%list_elem_of_singleton He.
  destruct (decide (m = 0)) as [->|?]; [reflexivity|].
  destruct (decide (m = 2)) as [->|?]; [reflexivity|].
  destruct (decide (m = 3)) as [->|?]; [reflexivity|].
  exfalso. revert He. unfold has_edge. simpl. unfold dict_mem. simpl.
  destruct (Z.eqb_spec m 0); [done|]. destruct (Z.eqb_spec m 2); [done|].
  destruct (Z.eqb_spec m 3); done.
Defined.

(** X21. A node with a real value whose neighbourhood starts with a real
    value and holds a real value greater than the node's own: the ascent
    step moves it to a neighbour whose value no real value of the
    neighbourhood exceeds. *)
Theorem nodes_gradient_step_climbs (G : Graph) (n k k0 : Z) (qn q0 : Q)
    (rest : dict val) :
  dict_get (node G) n = Some (Some (Real qn)) ->
  get_multi_neighbours_and_vals G (PyList [n]) k
    = Ok ((k0, Real q0) :: rest) ->
  (exists k' q', (k', Real q') ∈ (k0, Real q0) :: rest /\ (qn < q')%Q) ->
  exists nb q,
    nodes_gradient_step G [n] k = Ok [nb] /\
    (nb, Real q) ∈ (k0, Real q0) :: rest /\
    (qn < q)%Q /\
    forall k' q', (k', Real q') ∈ (k0, Real q0) :: rest -> (q' <= q)%Q.
Proof.
  intros Hn Hd (k' & q' & Hin & Hlt).
  destruct (max_neighbour_run G n k k0 (Real q0) rest Hd)
    as (nb & v & Hmax & Hnb & q & -> & Hupper).
  assert (qn < q)%Q as Hq.
  { eapply Qlt_le_trans; [exact Hlt|]. by eapply Hupper. }
  exists nb, q. split_and!; [|done..].
  unfold nodes_gradient_step, get_node_attributes_as_list. simpl.
  unfold dict_item. rewrite Hn. simpl. rewrite Hmax. simpl.
  assert (Qle_bool q qn = false) as ->; [|done].
  apply not_true_iff_false. intros H%Qle_bool_iff.
  by apply Qlt_not_le in Hq.
Qed.

Lemma nodes_gradient_step_climbs_witness :
  dict_get (node two_faces) 0 = Some (Some (Real 1)) /\
  get_multi_neighbours_and_vals two_faces (PyList [0]) 1
    = Ok ((1, Real 5) :: [(2, Real 3)]) /\
  exists nb q,
    nodes_gradient_step two_faces [0] 1 = Ok [nb] /\
    (nb, Real q) ∈ (1, Real 5) :: [(2, Real 3)] /\
    (1 < q)%Q /\
    forall k' q', (k', Real q') ∈ (1, Real 5) :: [(2, Real 3)] -> (q' <= q)%Q.
Proof.
  split_and!; [reflexivity..|].
  apply (nodes_gradient_step_climbs two_faces 0 1 1 1 5 [(2, Real 3)]);
    [reflexivity..|].
  exists 1, 5%Q. split; [apply elem_of_cons; by left|reflexivity].
Defined.

(** ** Smoothing: when it returns and when it raises *)

Lemma multi_loop_ok G nodes d its acc :
  get_neighbours_and_vals G nodes = Ok d -> is_ok (multi_loop G nodes its acc).
Proof.
  intros Hd. revert acc. induction its as [|its IH]; intros acc; simpl.
  - by eexists.
  - rewrite Hd. simpl. apply IH.
Qed.

Lemma multi_loop_raise_key G l its acc e :
  multi_loop G (PyList l) its acc = Raise e -> e = KeyError.
Proof.
  revert acc. induction its as [|its IH]; intros acc; simpl; [done|].
  destruct (get_neighbours_and_vals G (PyList l)) as [d|e'] eqn:Hd; simpl.
  - apply IH.
  - intros [= <-]. by eapply get_neighbours_and_vals_raise.
Qed.

Lemma neighbourhood_ok_seed G k n :
  values_bound G = true -> seed_in_graph G n = true ->
  neighbourhood_ok G k n = true.
Proof.
  intros HG Hn. unfold neighbourhood_ok, get_multi_neighbours_and_vals.
  destruct (nodes_loop_ok G [n] ([], []) HG) as [acc Hacc];
    [by simpl; rewrite Hn|].
  assert (get_neighbours_and_vals G (PyList [n]) = Ok (dict_zip acc.1 acc.2))
    as Hd.
  { unfold get_neighbours_and_vals. simpl nodes_loop in *. simpl.
    by rewrite Hacc. }
  by destruct (multi_loop_ok G (PyList [n]) _ (range_len k) [] Hd) as [d ->].
Qed.

Lemma neighbourhood_ok_in_graph G k n :
  1 <= k -> neighbourhood_ok G k n = true -> seed_in_graph G n = true.
Proof.
  intros Hk. unfold neighbourhood_ok, get_multi_neighbours_and_vals, range_len.
  destruct (Z.to_nat k) as [|its] eqn:E; [lia|]. simpl.
  unfold get_neighbours_and_vals at 1. simpl.
  unfold dict_item, seed_in_graph, dict_mem.
  by destruct (dict_get (adj G) n).
Qed.

Lemma staging_raise_key G k nodes staged e :
  staging G k nodes staged = Raise e -> e = KeyError.
Proof.
  revert staged. induction nodes as [|n rest IH]; intros staged; simpl; [done|].
  unfold pass_mean, get_multi_neighbours_and_vals.
  destruct (multi_loop G (PyList [n]) (range_len k) []) as [d|e'] eqn:Hd; simpl.
  - apply IH.
  - intros [= <-]. by eapply multi_loop_raise_key.
Qed.

Lemma staging_ok_inv G k nodes staged staged' :
  staging G k nodes staged = Ok staged' ->
  forallb (neighbourhood_ok G k) nodes = true.
Proof.
  revert staged. induction nodes as [|n rest IH]; intros staged; simpl; [done|].
  unfold pass_mean, neighbourhood_ok.
  destruct (get_multi_neighbours_and_vals G (PyList [n]) k); simpl; [|done].
  apply IH.
Qed.

Lemma same_graph_seed G G' n :
  same_graph G G' -> seed_in_graph G' n = seed_in_graph G n.
Proof.
  intros (_ & Hkeys & _). unfold seed_in_graph. apply eq_true_iff_eq.
  by rewrite !dict_mem_true, Hkeys.
Qed.

(** X22. With a radius of at least one and at least one pass, a target
    that is not a node of the (networkx) graph makes [smooth_graph] raise
    [KeyError] in its first pass, before anything is written: the graph it
    leaves in the store is still the plain copy, with the nodes, the values
    and the edges of the input graph. *)
Theorem smooth_graph_unknown_target (s : store) (g : ref) (G : Graph)
    (nodes : pynodes) (n_its k : Z) :
  graphs s !! g = Some G ->
  nx_graph G = true ->
  1 <= k -> 1 <= n_its ->
  forallb (seed_in_graph G) (smooth_targets G nodes) = false ->
  smooth_graph g nodes n_its k s =
    (Raise KeyError, with_copy s (graph_copy G)) /\
  same_graph G (graph_copy G).
Proof.
  intros HG Hnx Hk Hits Hbad. rewrite (smooth_graph_run s g G) by done.
  destruct (graph_copy_same G Hnx) as [Hsame _]. split; [|done].
  unfold range_len. destruct (Z.to_nat n_its) as [|its] eqn:E; [lia|].
  simpl. unfold batch_pass.
  destruct (staging (graph_copy G) k (smooth_targets G nodes) [])
    as [staged|e] eqn:Hs.
  - exfalso. apply staging_ok_inv in Hs.
    apply not_true_iff_false in Hbad. apply Hbad.
    rewrite forallb_forall in Hs. apply forallb_forall.
    intros x Hx. rewrite <- (same_graph_seed G (graph_copy G)) by done.
    by apply (neighbourhood_ok_in_graph (graph_copy G) k), Hs.
  - simpl. by apply staging_raise_key in Hs as ->.
Qed.

Lemma smooth_graph_unknown_target_witness :
  let s := store_of two_faces in
  graphs s !! 0%nat = Some two_faces /\ nx_graph two_faces = true /\
  1 <= 1 /\ 1 <= 2 /\
  forallb (seed_in_graph two_faces) (smooth_targets two_faces (PyList [0; 7]))
    = false /\
  smooth_graph 0%nat (PyList [0; 7]) 2 1 s
    = (Raise KeyError, with_copy s (graph_copy two_faces)) /\
  same_graph two_faces (graph_copy two_faces).
Proof.
  intros s. split_and!; [reflexivity|reflexivity|lia|lia|reflexivity|..];
    apply (smooth_graph_unknown_target s 0%nat two_faces (PyList [0; 7]) 2 1);
    (reflexivity || lia).
Defined.

Lemma batch_pass_has_value G targets k G1 n :
  batch_pass G targets k = Ok G1 ->
  has_value G n = true -> has_value G1 n = true.
Proof.
  intros HG1 Hn.
  destruct (batch_pass_spec G targets k G1 HG1) as (_ & _ & Hin & Hout).
  unfold has_value. destruct (decide (n ∈ targets)) as [Ht|Ht].
  - destruct (Hin n Ht (has_value_has_node G n Hn)) as (mean & _ & ->). done.
  - by rewrite Hout.
Qed.

Lemma batch_pass_values_bound G targets k G1 :
  batch_pass G targets k = Ok G1 ->
  values_bound G = true -> values_bound G1 = true.
Proof.
  intros HG1 HG.
  destruct (batch_pass_spec G targets k G1 HG1) as (Hadj & _).
  unfold values_bound in *. rewrite Hadj.
  rewrite forallb_forall in HG. apply forallb_forall.
  intros entry Hentry. specialize (HG entry Hentry).
  rewrite forallb_forall in HG. apply forallb_forall.
  intros v Hv. by eapply batch_pass_has_value, HG.
Qed.

Lemma batch_passes_total G targets k its :
  values_bound G = true ->
  forallb (seed_in_graph G) targets = true ->
  (batch_passes G targets k its).1 = Ok tt /\
  values_bound (batch_passes G targets k its).2 = true.
Proof.
  revert G. induction its as [|its IH]; intros G HG Ht; simpl; [done|].
  destruct (batch_pass_ok G targets k) as [G1 HG1].
  { apply forallb_forall. intros x Hx. apply neighbourhood_ok_seed; [done|].
    rewrite forallb_forall in Ht. by apply Ht. }
  rewrite HG1. apply IH.
  - by eapply batch_pass_values_bound.
  - destruct (batch_pass_spec G targets k G1 HG1) as (Hadj & _).
    unfold seed_in_graph in *. by rewrite Hadj.
Qed.

Lemma same_graph_values_bound G G' :
  same_graph G G' -> graph_wf G ->
  values_bound G = true -> values_bound G' = true.
Proof.
  intros (Hnode & Hkeys & Hedge) (Hk & Hn & _) Hvb.
  unfold values_bound. apply forallb_forall.
  intros [u nbrs] Hin%list_elem_of_In. apply forallb_forall.
  intros v Hv%list_elem_of_In. simpl in Hv.
  assert (has_edge G u v = true) as (nbrs0 & Hu & Hv0)%has_edge_spec.
  { rewrite <- Hedge. apply has_edge_spec. exists nbrs. split; [|done].
    apply dict_wf_get; [|done]. unfold dict_wf. by rewrite Hkeys, Hk. }
  pose proof (values_bound_adj G u nbrs0 Hvb Hu) as Hall.
  rewrite forallb_forall in Hall.
  unfold has_value. rewrite Hnode. by apply Hall, list_elem_of_In.
Qed.

(** X23. On a networkx graph whose neighbours all hold a value, with
    targets that are nodes of the graph, [smooth_graph] never raises, for
    any number of passes and any radius: it returns a new graph with the
    adjacency of [G.copy()], so with the nodes and the edges of the input,
    in which every neighbour still holds a value. *)
Theorem smooth_graph_total (s : store) (g : ref) (G : Graph)
    (nodes : pynodes) (n_its k : Z) :
  graphs s !! g = Some G ->
  nx_graph G = true ->
  values_bound G = true ->
  forallb (seed_in_graph G) (smooth_targets G nodes) = true ->
  exists G',
    smooth_graph g nodes n_its k s =
      (Ok (fresh (dom (graphs s))), with_copy s G') /\
    adj G' = adj (graph_copy G) /\
    (forall u v, has_edge G' u v = has_edge G u v) /\
    dict_keys (node G') = dict_keys (node G) /\
    values_bound G' = true.
Proof.
  intros HG Hnx Hvb Ht. rewrite (smooth_graph_run s g G) by done.
  destruct (graph_copy_same G Hnx) as [Hsame _].
  pose proof Hsame as (Hnode & _ & Hedge).
  pose proof Hnx as [Hwf _]%nx_graph_spec.
  destruct (batch_passes_total (graph_copy G) (smooth_targets G nodes) k
              (range_len n_its)) as [Hr Hvb'].
  { by apply (same_graph_values_bound G). }
  { rewrite forallb_forall in Ht. apply forallb_forall. intros x Hx.
    rewrite (same_graph_seed G (graph_copy G)) by done. by apply Ht. }
  destruct (batch_passes_topology (graph_copy G) (smooth_targets G nodes) k
              (range_len n_its)) as [Hadj Hkeys].
  eexists. rewrite Hr. split_and!.
  - done.
  - done.
  - intros u v. by rewrite (has_edge_adj _ _ u v Hadj).
  - by rewrite Hkeys, Hnode.
  - done.
Qed.

Lemma smooth_graph_total_witness :
  let s := store_of two_faces in
  let G := two_faces in
  graphs s !! 0%nat = Some G /\
  nx_graph G = true /\
  values_bound G = true /\
  forallb (seed_in_graph G) (smooth_targets G PyNone) = true /\
  exists G',
    smooth_graph 0%nat PyNone 3 2 s =
      (Ok (fresh (dom (graphs s))), with_copy s G') /\
    adj G' = adj (graph_copy G) /\
    (forall u v, has_edge G' u v = has_edge G u v) /\
    dict_keys (node G') = dict_keys (node G) /\
    values_bound G' = true.
Proof.
  intros s G. split_and!; [reflexivity..|].
  apply (smooth_graph_total s 0%nat G PyNone 3 2); reflexivity.
Defined.

(** ** Doing it in two calls *)

Lemma expand_loop_add g nodes ign a b s :
  expand_loop g nodes ign (a + b) s =
  match expand_loop g nodes ign a s with
  | (Ok _, s') => expand_loop g nodes ign b s'
  | (Raise e, s') => (Raise e, s')
  end.
Proof.
  revert s. induction a as [|a IH]; intros s; [done|].
  change (S a + b)%nat with (S (a + b)). simpl.
  unfold mbind, M_bind.
  destruct (read_graph g s) as [[G|e] s1]; [|done].
  destruct (read_list nodes s1) as [[cur|e] s2]; [|done].
  destruct (lift (get_neighbours_and_vals G (PyList cur)) s2)
    as [[d|e] s3]; [|done].
  destruct (list_extend nodes (expand_neighbours ign d) s3)
    as [[[]|e] s4]; [|done].
  apply IH.
Qed.

Lemma expand_nodes_store g nodes k ign s l :
  lists s !! nodes = Some l ->
  (expand_nodes g nodes k ign s).2 = (expand_loop g nodes ign (range_len k) s).2.
Proof.
  intros Hl. unfold expand_nodes, mbind, M_bind, read_list. rewrite Hl.
  destruct (expand_loop g nodes ign (range_len k) s) as [[[]|e] s']; [|done].
  simpl. by destruct (lists s' !! nodes).
Qed.

Lemma expand_nodes_ok_loop g nodes k ign s r :
  (expand_nodes g nodes k ign s).1 = Ok r ->
  exists l, lists s !! nodes = Some l /\
            (expand_loop g nodes ign (range_len k) s).1 = Ok tt.
Proof.
  unfold expand_nodes, mbind, M_bind, read_list.
  destruct (lists s !! nodes) as [l|]; [|done].
  destruct (expand_loop g nodes ign (range_len k) s) as [[[]|e] s']; [|done].
  intros _. by exists l.
Qed.

(** X24. Two calls of [expand_nodes] on the same list, with stepsizes [a]
    and then [b], leave the store (the caller's list above all) as one call
    with stepsize [a + b] does, when the first call returns. *)
Theorem expand_nodes_add (s : store) (g nodes : ref) (a b : Z)
    (ignore_nans : bool) (r : ref * list Z) :
  0 <= a -> 0 <= b ->
  (expand_nodes g nodes a ignore_nans s).1 = Ok r ->
  (expand_nodes g nodes (a + b) ignore_nans s).2 =
  (expand_nodes g nodes b ignore_nans
     (expand_nodes g nodes a ignore_nans s).2).2.
Proof.
  intros Ha Hb Hok.
  destruct (expand_nodes_ok_loop _ _ _ _ _ _ Hok) as (l & Hl & Hloop).
  rewrite !(expand_nodes_store g nodes _ ignore_nans s l Hl).
  destruct (expand_loop_frame g nodes ignore_nans (range_len a) s)
    as (_ & _ & Hnodes).
  destruct (Hnodes l Hl) as [added Hadded].
  rewrite (expand_nodes_store g nodes b ignore_nans _ _ Hadded).
  unfold range_len. rewrite Z2Nat.inj_add by done.
  rewrite expand_loop_add.
  fold (range_len a) in *. fold (range_len b).
  by destruct (expand_loop g nodes ignore_nans (range_len a) s) as [[[]|e] s'].
Qed.

Lemma expand_nodes_add_witness :
  let s := caller_store in
  0 <= 1 /\ 0 <= 1 /\
  (exists r, (expand_nodes 0%nat 0%nat 1 false s).1 = Ok r) /\
  (expand_nodes 0%nat 0%nat (1 + 1) false s).2 =
  (expand_nodes 0%nat 0%nat 1 false
     (expand_nodes 0%nat 0%nat 1 false s).2).2.
Proof.
  intros s. split_and!; [lia|lia|eexists; vm_compute; reflexivity|].
  eapply (expand_nodes_add s 0%nat 0%nat 1 1 false); [lia|lia|].
  vm_compute. reflexivity.
Defined.

Lemma batch_passes_add G targets k a b :
  batch_passes G targets k (a + b) =
  match batch_passes G targets k a with
  | (Ok _, G1) => batch_passes G1 targets k b
  | (Raise e, G1) => (Raise e, G1)
  end.
Proof.
  revert G. induction a as [|a IH]; intros G; [done|].
  change (S a + b)%nat with (S (a + b)). simpl.
  destruct (batch_pass G targets k) as [G1|e]; [apply IH|done].
Qed.

(** X25. Smoothing a networkx graph in two calls, [a] passes and then [b]
    passes on the graph that the first call returned, ends as one call with
    [a + b] passes does: the same outcome and, value by value and neighbour
    by neighbour, the same graph.  The copy of the second call changes
    nothing: the first call returned a graph in the order of a copy. *)
Theorem smooth_graph_add (s s1 : store) (g g1 : ref) (G : Graph)
    (nodes : pynodes) (a b k : Z) :
  graphs s !! g = Some G ->
  nx_graph G = true ->
  0 <= a -> 0 <= b ->
  smooth_graph g nodes a k s = (Ok g1, s1) ->
  exists (r : res unit) G2,
    smooth_graph g nodes (a + b) k s =
      (match r with Ok _ => Ok (fresh (dom (graphs s))) | Raise e => Raise e end,
       with_copy s G2) /\
    smooth_graph g1 nodes b k s1 =
      (match r with Ok _ => Ok (fresh (dom (graphs s1))) | Raise e => Raise e end,
       with_copy s1 G2).
Proof.
  intros HG Hnx Ha Hb Hfirst.
  rewrite (smooth_graph_run s g G) in Hfirst by done.
  set (t := smooth_targets G nodes) in *.
  destruct (batch_passes (graph_copy G) t k (range_len a)) as [r1 G1] eqn:H1.
  simpl in Hfirst. destruct r1 as [[]|e]; [|done].
  injection Hfirst as <- <-.
  pose proof (batch_passes_topology (graph_copy G) t k (range_len a))
    as [Hadj Hkeys].
  rewrite H1 in Hadj, Hkeys. simpl in Hadj, Hkeys.
  destruct (graph_copy_same G Hnx) as [(Hnode & _) _].
  rewrite Hnode in Hkeys.
  assert (smooth_targets G1 nodes = t) as Ht.
  { unfold t. destruct nodes; simpl; congruence. }
  destruct (with_copy_frame s G1) as (_ & Hnew & _).
  rewrite (smooth_graph_run s g G) by done.
  rewrite (smooth_graph_run (with_copy s G1) _ G1) by done.
  rewrite (graph_copy_of_copy G G1 Hnx Hadj Hkeys).
  rewrite Ht. fold t. unfold range_len.
  rewrite Z2Nat.inj_add by done. rewrite batch_passes_add.
  fold (range_len a) (range_len b). rewrite H1.
  by eexists _, _.
Qed.

Lemma smooth_graph_add_witness :
  let s := store_of four_cycle in
  let first := smooth_graph 0%nat PyNone 1 1 s in
  graphs s !! 0%nat = Some four_cycle /\ nx_graph four_cycle = true /\
  0 <= 1 /\ 0 <= 2 /\
  first.1 = Ok 1%nat /\
  exists (r : res unit) G2,
    smooth_graph 0%nat PyNone (1 + 2) 1 s =
      (match r with Ok _ => Ok (fresh (dom (graphs s))) | Raise e => Raise e end,
       with_copy s G2) /\
    smooth_graph 1%nat PyNone 2 1 first.2 =
      (match r with
       | Ok _ => Ok (fresh (dom (graphs first.2)))
       | Raise e => Raise e
       end,
       with_copy first.2 G2).
Proof.
  intros s first.
  assert (first = (Ok 1%nat, first.2)) as Hfirst by (vm_compute; reflexivity).
  split_and!; [reflexivity|reflexivity|lia|lia|by rewrite Hfirst|].
  apply (smooth_graph_add s first.2 0%nat 1%nat four_cycle PyNone 1 2 1);
    [reflexivity|reflexivity|lia|lia|exact Hfirst].
Defined.

(** ** What [G.copy()] does to the order of neighbours *)

(** X26. [G.copy()] of a networkx graph lists the neighbours of a node [x]
    in this order: first the neighbours that stand before [x] among the
    nodes, in the order of the nodes; then the other neighbours, in the
    order the input had them.  Nodes, attributes and edges are those of the
    input. *)
Theorem graph_copy_order (G : Graph) (x : Z) (pre post : list Z)
    (nb : dict unit) :
  nx_graph G = true ->
  dict_keys (adj G) = pre ++ x :: post ->
  dict_get (adj G) x = Some nb ->
  same_graph G (graph_copy G) /\
  exists nb',
    dict_get (adj (graph_copy G)) x = Some nb' /\
    dict_keys nb' = filter (fun u => has_edge G u x = true) pre ++
                    filter (fun v => v ∉ pre) (dict_keys nb).
Proof.
  intros Hnx Hsplit Hx.
  destruct (graph_copy_same G Hnx) as [Hsame _].
  destruct (graph_copy_adj G x pre post nb Hnx Hsplit Hx) as (nb' & Hget & Hk).
  split; [done|]. by exists nb'.
Qed.

Lemma graph_copy_order_witness :
  let G := four_cycle in
  let nb := [(2, tt); (0, tt)] in
  (nx_graph G = true /\
   dict_keys (adj G) = [0; 1; 2] ++ 3 :: [] /\
   dict_get (adj G) 3 = Some nb) /\
  same_graph G (graph_copy G) /\
  exists nb',
    dict_get (adj (graph_copy G)) 3 = Some nb' /\
    dict_keys nb' = filter (fun u => has_edge G u 3 = true) [0; 1; 2] ++
                    filter (fun v => v ∉ [0; 1; 2]) (dict_keys nb).
Proof.
  intros G nb. split; [split_and!; reflexivity|].
  apply (graph_copy_order G 3 [0; 1; 2] [] nb); reflexivity.
Defined.

(** X27. Copying a copy changes nothing: [G.copy().copy()] is [G.copy()],
    neighbour by neighbour. *)
Theorem graph_copy_idempotent (G : Graph) :
  nx_graph G = true -> graph_copy (graph_copy G) = graph_copy G.
Proof.
  intros Hnx. destruct (graph_copy_same G Hnx) as [(Hnode & _) _].
  apply (graph_copy_of_copy G); [done|done|]. by rewrite Hnode.
Qed.

Lemma graph_copy_idempotent_witness :
  nx_graph four_cycle = true /\
  graph_copy (graph_copy four_cycle) = graph_copy four_cycle.
Proof.
  split; [reflexivity|]. apply (graph_copy_idempotent four_cycle). reflexivity.
Defined.

(** X28. The copy that [smooth_graph] works on is not the input graph,
    neighbour by neighbour.  On the ring of four nodes, with no pass at all,
    the returned graph has the values of the input, but lists the
    neighbours of node 3 as 0, 2 where the input lists 2, 0; the best
    neighbour of node 3 is then node 0 with its missing value, where the
    input gives node 2 with the value 3. *)
Theorem smooth_graph_reorders_neighbours :
  let s := store_of four_cycle in
  smooth_graph 0%nat PyNone 0 1 s =
    (Ok 1%nat, with_copy s (graph_copy four_cycle)) /\
  node (graph_copy four_cycle) = node four_cycle /\
  dict_keys <$> dict_get (adj four_cycle) 3 = Some [2; 0] /\
  dict_keys <$> dict_get (adj (graph_copy four_cycle)) 3 = Some [0; 2] /\
  max_neighbour four_cycle 3 1 = Ok (2, Real 3) /\
  max_neighbour (graph_copy four_cycle) 3 1 = Ok (0, NaN).
Proof. split_and!; reflexivity. Qed.
